(** * Axelar data-provider service: resilience layers and snapshot pipeline

    A shallow embedding of [packages/axelar-plugin/src/service.ts].

    Conventions of the embedding.
    - JavaScript numbers that hold counters, HTTP status codes and
      millisecond timestamps are integers ([Z]).  Numbers that hold money
      amounts and ratios are exact rationals ([Q]): the embedding does the
      arithmetic of the source without binary64 rounding, and without the
      values NaN and Infinity (a division by zero is guarded where the source
      compares its result).
    - [Date.now()], [fetch], [Math.random()] and [setTimeout] are the outside
      world: a type [World] with a clock and three operations, over which the
      service is parametric.
    - A notional (a decimal string of digits in the source) is the integer it
      denotes; a request URL is the structured value it is built from; a JSON
      body is the record of the fields the source reads from it.  An object
      the source enumerates is the list of its own properties in creation
      order, and [Object.entries] puts the array-index keys first.
    - A computation of the service is a function from the state of the
      service and the world to a result (a value or a thrown error) and the
      next state.  The sub-pipelines that [Promise.all] starts together run
      one after the other; the request deduplicator, whose behaviour only
      shows under interleaving, has an event model of its own.
    - [console.log] / [console.error] output is not modelled. *)

From Stdlib Require Import ZArith QArith Qabs Qround Qpower Lqa Lia Ascii String
  List Bool Sorted.
From stdpp Require Import gmap strings sorting.

Local Open Scope Z_scope.

(** ** Errors

    The error classes of the source.  [RateLimitError] extends
    [AxelarAPIError] with status 429 and [retryable = true]; [Error] is the
    plain JavaScript error, told apart by its message. *)

Inductive JsError : Type :=
| AxelarAPIError (statusCode : Z) (retryable : bool)
| RateLimitError (retryAfterMs : Z)
| PriceAPIError (symbol : string)
| Error (message : string).

(** [e instanceof AxelarAPIError] *)
Definition isAxelarAPIError (e : JsError) : bool :=
  match e with
  | AxelarAPIError _ _ | RateLimitError _ => true
  | _ => false
  end.

(** [e.retryable], for an [AxelarAPIError] *)
Definition retryableOf (e : JsError) : bool :=
  match e with
  | AxelarAPIError _ r => r
  | RateLimitError _ => true
  | _ => true
  end.

(** ** TTLCache *)

Module TTLCache.
Section Cache.
Context {K : Type} `{Countable K} {V : Type}.

Record Entry : Type := mkEntry {
  value : V;
  expiresAt : Z;
  accessCount : Z
}.

Record t : Type := mkCache {
  store : gmap K Entry;
  hits : Z;
  misses : Z;
  ttlMs : Z
}.

Definition create (ttl : Z) : t :=
  {| store := ∅; hits := 0; misses := 0; ttlMs := ttl |}.

(** [get(key)], with [now] the reading of [Date.now()]. *)
Definition get (now : Z) (key : K) (c : t) : option V * t :=
  match store c !! key with
  | None =>
      (None, {| store := store c; hits := hits c;
                misses := misses c + 1; ttlMs := ttlMs c |})
  | Some hit =>
      if expiresAt hit <? now then
        (None, {| store := delete key (store c); hits := hits c;
                  misses := misses c + 1; ttlMs := ttlMs c |})
      else
        (Some (value hit),
         {| store := <[key := {| value := value hit;
                                 expiresAt := expiresAt hit;
                                 accessCount := accessCount hit + 1 |}]>
                       (store c);
            hits := hits c + 1; misses := misses c; ttlMs := ttlMs c |})
  end.

(** [set(key, value)] *)
Definition set (now : Z) (key : K) (v : V) (c : t) : t :=
  {| store := <[key := {| value := v; expiresAt := now + ttlMs c;
                          accessCount := 0 |}]> (store c);
     hits := hits c; misses := misses c; ttlMs := ttlMs c |}.

Definition clear (c : t) : t :=
  {| store := ∅; hits := 0; misses := 0; ttlMs := ttlMs c |}.

Record Stats : Type := mkStats {
  size_ : nat; hits_ : Z; misses_ : Z; hitRate : Q
}.

Definition getStats (c : t) : Stats :=
  {| size_ := size (store c); hits_ := hits c; misses_ := misses c;
     hitRate := if 0 <? hits c + misses c
                then (inject_Z (hits c) / inject_Z (hits c + misses c))%Q
                else 0%Q |}.
End Cache.
Arguments Entry : clear implicits.
Arguments t K {_ _} V.
End TTLCache.

(** ** CircuitBreaker *)

Module CircuitBreaker.

Inductive State : Type := CLOSED | OPEN | HALF_OPEN.

Record t : Type := mkBreaker {
  failures : Z;
  lastFailureTime : Z;
  state : State;
  failureThreshold : Z;
  resetTimeoutMs : Z
}.

Definition create (threshold resetMs : Z) : t :=
  {| failures := 0; lastFailureTime := 0; state := CLOSED;
     failureThreshold := threshold; resetTimeoutMs := resetMs |}.

Definition setState (st : State) (cb : t) : t :=
  {| failures := failures cb; lastFailureTime := lastFailureTime cb;
     state := st; failureThreshold := failureThreshold cb;
     resetTimeoutMs := resetTimeoutMs cb |}.

Definition onSuccess (cb : t) : t :=
  {| failures := 0; lastFailureTime := lastFailureTime cb;
     state := CLOSED; failureThreshold := failureThreshold cb;
     resetTimeoutMs := resetTimeoutMs cb |}.

Definition onFailure (now : Z) (cb : t) : t :=
  let failures' := failures cb + 1 in
  {| failures := failures'; lastFailureTime := now;
     state := if failureThreshold cb <=? failures' then OPEN else state cb;
     failureThreshold := failureThreshold cb;
     resetTimeoutMs := resetTimeoutMs cb |}.

Definition circuitOpenError : JsError := Error "Circuit breaker is OPEN".

Section Execute.
(** The wrapped operation runs against some state [W] that carries the
    clock; the breaker object is passed explicitly. *)
Context {W T : Type} (now : W -> Z).

(** The gate at the head of [execute]: [None] when the call is refused. *)
Definition gate (cb : t) (w : W) : option t :=
  match state cb with
  | OPEN =>
      if resetTimeoutMs cb <? now w - lastFailureTime cb
      then Some (setState HALF_OPEN cb)
      else None
  | _ => Some cb
  end.

Definition execute (fn : W -> (JsError + T) * W) (cb : t) (w : W)
  : (JsError + T) * t * W :=
  match gate cb w with
  | None => (inl circuitOpenError, cb, w)
  | Some cb1 =>
      let '(r, w') := fn w in
      match r with
      | inr result => (inr result, onSuccess cb1, w')
      | inl error => (inl error, onFailure (now w') cb1, w')
      end
  end.
End Execute.

Definition reset (cb : t) : t :=
  {| failures := 0; lastFailureTime := 0; state := CLOSED;
     failureThreshold := failureThreshold cb;
     resetTimeoutMs := resetTimeoutMs cb |}.

End CircuitBreaker.

(** ** RequestDeduplicator

    [deduplicate] is asynchronous: between the call of the producer and its
    settlement other callers run.  The embedding makes the two moments
    separate events on a small promise runtime.  A promise is a number; the
    promise handed to the callers ([fn().finally(...)]) and the producer's own
    promise settle together with the same outcome and share one number. *)

Module RequestDeduplicator.
Section Dedup.
Context {T : Type}.

Record t : Type := mkDedup {
  pending : gmap string nat;           (* [this.pending]: key to promise *)
  cleanup : gmap nat string;           (* unsettled promise to the key its
                                          [finally] callback deletes *)
  settled : gmap nat (JsError + T);    (* settled promises, with outcome *)
  nextPromise : nat;
  invoked : list string                (* one item per call of a producer *)
}.

Definition create : t :=
  {| pending := ∅; cleanup := ∅; settled := ∅; nextPromise := 0%nat;
     invoked := [] |}.

(** [deduplicate(key, fn)]: the promise returned to the caller. *)
Definition deduplicate (key : string) (d : t) : nat * t :=
  match pending d !! key with
  | Some existing => (existing, d)
  | None =>
      let promise := nextPromise d in
      (promise,
       {| pending := <[key := promise]> (pending d);
          cleanup := <[promise := key]> (cleanup d);
          settled := settled d;
          nextPromise := S promise;
          invoked := key :: invoked d |})
  end.

(** The producer behind [promise] completes with [outcome]: the [finally]
    callback deletes the key, and the promise settles. *)
Definition settle (promise : nat) (outcome : JsError + T) (d : t) : t :=
  match cleanup d !! promise with
  | Some key =>
      {| pending := delete key (pending d);
         cleanup := delete promise (cleanup d);
         settled := <[promise := outcome]> (settled d);
         nextPromise := nextPromise d;
         invoked := invoked d |}
  | None => d
  end.

Definition clear (d : t) : t :=
  {| pending := ∅; cleanup := cleanup d; settled := settled d;
     nextPromise := nextPromise d; invoked := invoked d |}.

Inductive Event : Type :=
| Call (key : string)
| Settle (promise : nat) (outcome : JsError + T).

(** One event; a call reports the key and the promise it was handed. *)
Definition step (ev : Event) (d : t) : option (string * nat) * t :=
  match ev with
  | Call key => let '(p, d') := deduplicate key d in (Some (key, p), d')
  | Settle p o => (None, settle p o d)
  end.

Fixpoint run (evs : list Event) (d : t) : list (string * nat) * t :=
  match evs with
  | [] => ([], d)
  | ev :: rest =>
      let '(r, d1) := step ev d in
      let '(rs, d2) := run rest d1 in
      (match r with Some x => x :: rs | None => rs end, d2)
  end.

(** How often the producer of [key] has been called. *)
Definition invocations (key : string) (d : t) : nat :=
  length (filter (λ k, k = key) (invoked d)).

(** The event does not settle [promise]. *)
Definition leaves (promise : nat) (ev : Event) : Prop :=
  match ev with
  | Settle p _ => p ≠ promise
  | Call _ => True
  end.

(** Consistency of the runtime: [pending] and [cleanup] are inverse to each
    other and only mention promises that were allocated. *)
Definition consistent (d : t) : Prop :=
  (∀ k p, pending d !! k = Some p ↔ cleanup d !! p = Some k) ∧
  (∀ p k, cleanup d !! p = Some k → (p < nextPromise d)%nat).
End Dedup.
Arguments t : clear implicits.
Arguments Event : clear implicits.
End RequestDeduplicator.

(** ** Domain entities (the contract's Asset, Rate, LiquidityDepth,
    VolumeWindow, ListedAssets and ProviderSnapshot) *)

Record Asset : Type := mkAsset {
  chainId : string;
  assetId : string;
  symbol : string;
  decimals : Z
}.

Record Route : Type := mkRoute { source : Asset; destination : Asset }.

Record Rate : Type := mkRate {
  rate_source : Asset;
  rate_destination : Asset;
  amountIn : Z;
  amountOut : Z;
  effectiveRate : Q;
  totalFeesUsd : Q;
  quotedAt : Z
}.

Record Threshold : Type := mkThreshold { maxAmountIn : Z; slippageBps : Z }.

Record LiquidityDepth : Type := mkLiquidity {
  ld_route : Route;
  thresholds : list Threshold;
  ld_measuredAt : Z
}.

Inductive Window : Type := W24h | W7d | W30d.

Record VolumeWindow : Type := mkVolume {
  window : Window;
  volumeUsd : Q;
  vw_measuredAt : Z
}.

Record ListedAssets : Type := mkListed {
  assets : list Asset;
  la_measuredAt : Z
}.

Record ProviderSnapshot : Type := mkSnapshot {
  volumes : list VolumeWindow;
  rates : list Rate;
  liquidity : list LiquidityDepth;
  listedAssets : ListedAssets
}.

(** ** The upstream side *)

Inductive Endpoint : Type :=
| CrossChainTransfers (fromTime toTime : Z) (cursor : option string)
| CrossChainFees (sourceChain destinationChain asset : string)
| CrossChainChains
| CrossChainAssets
| TokenPrice (platform contractAddress : string).

Record Request : Type := mkRequest {
  endpoint : Endpoint;
  xApiKey : option string;      (* the [x-api-key] header, when sent *)
  timeoutMs : Z                 (* the deadline that aborts the call *)
}.

Record AxelarAsset : Type := mkAxelarAsset {
  denom : string;
  aa_symbol : string;           (* empty when the field is missing *)
  aa_decimals : Z;              (* 0 when the field is missing *)
  addresses : list (string * string)
                                (* the own properties of [asset.addresses],
                                   chain to address, in creation order *)
}.

(** What the service reads from a decoded JSON body. *)
Record Body : Type := mkBody {
  transfers : list Q;           (* per item of [data.data]:
                                   [Number(value_usd || amount_usd || 0)] *)
  next_cursor : option string;  (* [pagination.next_cursor || next.cursor],
                                   [None] when falsy *)
  fee_usd : option Q;           (* [data.fee_usd] *)
  registry : list AxelarAsset;  (* the items of [data.data] *)
  usd : string -> option Q      (* [json[address]?.usd] *)
}.

Record Response : Type := mkResponse {
  status : Z;
  retryAfter : option Z;        (* the [retry-after] header, in seconds *)
  body : option Body            (* [None]: [response.json()] rejects *)
}.

Definition ok (r : Response) : bool :=
  (200 <=? status r) && (status r <=? 299).

Inductive FetchResult : Type :=
| Responded (response : Response)
| Aborted                       (* rejection with an [AbortError] *)
| Failed.                       (* any other rejection *)

Class Platform (World : Type) : Type := {
  now : World -> Z;                                   (* [Date.now()] *)
  fetch : Request -> World -> FetchResult * World;
  random : World -> Q * World;                        (* [Math.random()] *)
  sleep : Z -> World -> World                         (* [setTimeout] *)
}.

(** ** JavaScript helpers *)

Definition pow10 (d : Z) : Q := (inject_Z 10 ^ d)%Q.

Definition Qmin (x y : Q) : Q := if Qle_bool x y then x else y.
Definition Qgtb (x y : Q) : bool := negb (Qle_bool x y).

(** [Number(x.toFixed(6))] *)
Definition toFixed6 (x : Q) : Q :=
  let round (y : Q) := Qfloor (y * 1000000 + (1 # 2))%Q in
  if Qle_bool 0 x then (inject_Z (round x) / 1000000)%Q
  else (- (inject_Z (round (- x)%Q) / 1000000))%Q.

Definition upperChar (c : ascii) : ascii :=
  let n := nat_of_ascii c in
  if ((97 <=? n) && (n <=? 122))%nat then ascii_of_nat (n - 32) else c.

Definition lowerChar (c : ascii) : ascii :=
  let n := nat_of_ascii c in
  if ((65 <=? n) && (n <=? 90))%nat then ascii_of_nat (n + 32) else c.

Fixpoint mapString (f : ascii -> ascii) (s : string) : string :=
  match s with
  | EmptyString => EmptyString
  | String c rest => String (f c) (mapString f rest)
  end.

Definition toUpperCase : string -> string := mapString upperChar.
Definition toLowerCase : string -> string := mapString lowerChar.

Definition includes (s sub : string) : bool :=
  match String.index 0 sub s with Some _ => true | None => false end.

(** *** [Object.entries]

    The own properties of an ordinary object are enumerated with the keys
    that are array indices first, in ascending numeric order, and the other
    keys after them, in creation order.  An array index is a key that is
    the decimal notation, without a leading zero, of an integer from 0 to
    2^32 - 2. *)

Definition isDigit (c : ascii) : bool :=
  let n := nat_of_ascii c in ((48 <=? n) && (n <=? 57))%nat.

Fixpoint digitsValue (acc : N) (s : string) : option N :=
  match s with
  | EmptyString => Some acc
  | String c rest =>
      if isDigit c
      then digitsValue (acc * 10 + (N_of_ascii c - 48))%N rest
      else None
  end.

Definition arrayIndex (key : string) : option N :=
  match key with
  | EmptyString => None
  | String c rest =>
      if Ascii.eqb c "0" && negb (String.eqb rest EmptyString) then None
      else match digitsValue 0 key with
           | Some n => if (n <=? 4294967294)%N then Some n else None
           | None => None
           end
  end.

Definition indexOf (entry : string * string) : N :=
  default 0%N (arrayIndex (fst entry)).

Definition byIndex : relation (string * string) :=
  fun p q => (indexOf p <= indexOf q)%N.

#[export] Instance byIndex_dec : RelDecision byIndex :=
  fun p q => decide (indexOf p <= indexOf q)%N.

(** [Object.entries(o)], for the object whose own properties are [o]. *)
Definition objectEntries (o : list (string * string))
  : list (string * string) :=
  merge_sort byIndex (filter (fun p => is_Some (arrayIndex (fst p))) o)
  ++ filter (fun p => arrayIndex (fst p) = None) o.

(** ** DataProviderService *)

Record PerformanceMetrics : Type := mkMetrics {
  apiCalls : Z;
  cacheHits : Z;
  cacheMisses : Z;
  errors : Z;
  totalResponseTime : Z
}.

Definition maxRetries : Z := 3.
Definition retryDelayMs : Z := 1000.

Definition getEstimatedVolume (w : Window) : Q :=
  match w with
  | W24h => 8000000
  | W7d => 60000000
  | W30d => 250000000
  end.

Definition timeRange (w : Window) : Z :=
  match w with
  | W24h => 24 * 60 * 60 * 1000
  | W7d => 7 * 24 * 60 * 60 * 1000
  | W30d => 30 * 24 * 60 * 60 * 1000
  end.

Definition getFallbackAssets : list Asset :=
  [ mkAsset "1" "0xA0b86991c6218b36c1d19D4a2e9Eb0cE3606eB48" "USDC" 6;
    mkAsset "1" "0xdAC17F958D2ee523a2206206994597C13D831ec7" "USDT" 6;
    mkAsset "1" "0x2260FAC5E5542a773Aa44fBCfeDf7C193bc2C599" "WBTC" 8;
    mkAsset "137" "0x2791Bca1f2de4661ED88A30C99A7a9449Aa84174" "USDC" 6;
    mkAsset "137" "0xc2132D05D31c914a87C6611C10748AEb04B58e8F" "USDT" 6;
    mkAsset "43114" "0xB97EF9Ef8734C71904D8002F8b6Bc66Dd9c48a6E" "USDC" 6;
    mkAsset "42161" "0xFF970A61A04b1cA14834A43f5dE4533eBDDB5CC8" "USDC" 6;
    mkAsset "10" "0x7F5c764cBc14f9669B88837ca1490cCa17c31607" "USDC" 6;
    mkAsset "56" "0x8AC76a51cc950d9822D68b83fE1Ad97B32Cd580d" "USDC" 18;
    mkAsset "250" "0x04068DA6C83AFCFA0e13ba15A6696662335D5B75" "USDC" 6 ].

Definition platformMap (chain : string) : string :=
  if decide (chain = "1") then "ethereum"
  else if decide (chain = "137") then "polygon-pos"
  else if decide (chain = "56") then "binance-smart-chain"
  else if decide (chain = "43114") then "avalanche"
  else if decide (chain = "42161") then "arbitrum-one"
  else if decide (chain = "10") then "optimistic-ethereum"
  else if decide (chain = "250") then "fantom"
  else "ethereum".

(** *** The fee arithmetic of [getAxelarQuote] *)

Definition baseFeePercent : Q := 1 # 1000.
Definition gasFeeUsdDefault : Q := 5.

(** [Number(feeData.data.fee_usd) || gasFeeUsdDefault], when the field is
    truthy; the default otherwise. *)
Definition quotedGasFee (feeUsd : option Q) : Q :=
  match feeUsd with
  | Some fee => if Qeq_bool fee 0 then gasFeeUsdDefault else fee
  | None => gasFeeUsdDefault
  end.

(** The gas fee after the cap at 50% of the transfer value. *)
Definition cappedGasFee (amountInUsd : Q) (gasFeeUsd : Q) : Q :=
  if Qgtb amountInUsd 0 && Qgtb gasFeeUsd (amountInUsd * (1 # 2))
  then (amountInUsd * (1 # 2))%Q else gasFeeUsd.

Definition totalFeeUsdOf (amountInUsd gasFeeUsd : Q) : Q :=
  (amountInUsd * baseFeePercent + gasFeeUsd)%Q.

Definition feeRatioOf (amountInUsd totalFeeUsd : Q) : Q :=
  if Qgtb amountInUsd 0 then Qmin (totalFeeUsd / amountInUsd) (99 # 100)
  else (1 # 1000).

Definition amountOutNumOf (amountInNum feeRatio : Q) : Z :=
  Z.max 0 (Qfloor (amountInNum * (1 - feeRatio))).

(** Lines 597-649 of the source, after the fee figure and the price have
    been obtained. *)
Definition quoteRate (src dst : Asset) (amountIn_ : Z) (priceUsd : Q)
    (feeUsd : option Q) (at_ : Z) : Rate :=
  let amountInNum := inject_Z amountIn_ in
  let amountInNormalized := (amountInNum / pow10 (decimals src))%Q in
  let amountInUsd := (amountInNormalized * priceUsd)%Q in
  let gasFeeUsd := cappedGasFee amountInUsd (quotedGasFee feeUsd) in
  let totalFeeUsd := totalFeeUsdOf amountInUsd gasFeeUsd in
  let feeRatio := feeRatioOf amountInUsd totalFeeUsd in
  let amountOutNum := amountOutNumOf amountInNum feeRatio in
  let amountOutNormalized := (inject_Z amountOutNum / pow10 (decimals dst))%Q in
  {| rate_source := src;
     rate_destination := dst;
     amountIn := amountIn_;
     amountOut := amountOutNum;
     effectiveRate := (amountOutNormalized / amountInNormalized)%Q;
     totalFeesUsd := toFixed6 totalFeeUsd;
     quotedAt := at_ |}.

Definition createFallbackRate (src dst : Asset) (amountIn_ : Z) (at_ : Z)
  : Rate :=
  let amountInNum := inject_Z amountIn_ in
  let rate := (999 # 1000)%Q in
  {| rate_source := src;
     rate_destination := dst;
     amountIn := amountIn_;
     amountOut := Qfloor (amountInNum * rate);
     effectiveRate := rate;
     totalFeesUsd := (amountInNum / pow10 (decimals src) * (1 # 1000) + 5)%Q;
     quotedAt := at_ |}.

Section Service.
Context {World : Type} `{Platform World}.

(** The fields of a [DataProviderService] and the world it runs in.  The
    request deduplicator holds no entry between two sequential calls (each
    producer has settled and removed its key), so it has no field here. *)
Record St : Type := mkSt {
  apiKey : string;
  timeout : Z;
  priceCache : TTLCache.t string Q;
  chainCache : TTLCache.t string unit;
  assetCache : TTLCache.t string ListedAssets;
  axelarscanCircuit : CircuitBreaker.t;
  priceCircuit : CircuitBreaker.t;
  metrics : PerformanceMetrics;
  world : World
}.

(** [new DataProviderService(baseUrl, apiKey, timeout)] *)
Definition newService (key : string) (timeout_ : Z) (w : World) : St :=
  {| apiKey := key; timeout := timeout_;
     priceCache := TTLCache.create (5 * 60 * 1000);
     chainCache := TTLCache.create (60 * 60 * 1000);
     assetCache := TTLCache.create (60 * 60 * 1000);
     axelarscanCircuit := CircuitBreaker.create 5 60000;
     priceCircuit := CircuitBreaker.create 3 30000;
     metrics := mkMetrics 0 0 0 0 0;
     world := w |}.

Definition setWorld (w : World) (s : St) : St :=
  mkSt (apiKey s) (timeout s) (priceCache s) (chainCache s) (assetCache s)
       (axelarscanCircuit s) (priceCircuit s) (metrics s) w.
Definition setMetrics (m : PerformanceMetrics) (s : St) : St :=
  mkSt (apiKey s) (timeout s) (priceCache s) (chainCache s) (assetCache s)
       (axelarscanCircuit s) (priceCircuit s) m (world s).
Definition setPriceCache (c : TTLCache.t string Q) (s : St) : St :=
  mkSt (apiKey s) (timeout s) c (chainCache s) (assetCache s)
       (axelarscanCircuit s) (priceCircuit s) (metrics s) (world s).
Definition setAssetCache (c : TTLCache.t string ListedAssets) (s : St) : St :=
  mkSt (apiKey s) (timeout s) (priceCache s) (chainCache s) c
       (axelarscanCircuit s) (priceCircuit s) (metrics s) (world s).
Definition setPriceCircuit (cb : CircuitBreaker.t) (s : St) : St :=
  mkSt (apiKey s) (timeout s) (priceCache s) (chainCache s) (assetCache s)
       (axelarscanCircuit s) cb (metrics s) (world s).

(** [metrics.apiCalls++; metrics.totalResponseTime += duration] *)
Definition recordCall (duration : Z) (s : St) : St :=
  let m := metrics s in
  setMetrics (mkMetrics (apiCalls m + 1) (cacheHits m) (cacheMisses m)
                        (errors m) (totalResponseTime m + duration)) s.
Definition recordError (s : St) : St :=
  let m := metrics s in
  setMetrics (mkMetrics (apiCalls m) (cacheHits m) (cacheMisses m)
                        (errors m + 1) (totalResponseTime m)) s.
Definition recordCacheHit (s : St) : St :=
  let m := metrics s in
  setMetrics (mkMetrics (apiCalls m) (cacheHits m + 1) (cacheMisses m)
                        (errors m) (totalResponseTime m)) s.
Definition recordCacheMiss (s : St) : St :=
  let m := metrics s in
  setMetrics (mkMetrics (apiCalls m) (cacheHits m) (cacheMisses m + 1)
                        (errors m) (totalResponseTime m)) s.

(** *** Computations that read and write the state and may throw *)

Definition M (A : Type) : Type := St -> (JsError + A) * St.

Definition ret {A} (a : A) : M A := fun s => (inr a, s).
Definition throw {A} (e : JsError) : M A := fun s => (inl e, s).
Definition bind {A B} (m : M A) (k : A -> M B) : M B :=
  fun s => match m s with
           | (inr a, s') => k a s'
           | (inl e, s') => (inl e, s')
           end.
(** [try { m } catch (error) { handler }] *)
Definition try_catch {A} (m : M A) (handler : JsError -> M A) : M A :=
  fun s => match m s with
           | (inr a, s') => (inr a, s')
           | (inl e, s') => handler e s'
           end.
Definition gets {A} (f : St -> A) : M A := fun s => (inr (f s), s).
Definition modify (f : St -> St) : M unit := fun s => (inr tt, f s).
Definition dateNow : M Z := gets (fun s => now (world s)).

Notation "x <- m ;; k" := (bind m (fun x => k))
  (at level 100, m at next level, right associativity).
Notation "m ;; k" := (bind m (fun _ => k))
  (at level 100, right associativity).

Fixpoint mapM {A B} (f : A -> M B) (l : list A) : M (list B) :=
  match l with
  | [] => ret []
  | a :: rest => b <- f a ;; bs <- mapM f rest ;; ret (b :: bs)
  end.

(** [...(this.apiKey && { 'x-api-key': this.apiKey })] *)
Definition authHeader (s : St) : option string :=
  if decide (apiKey s = EmptyString) then None else Some (apiKey s).

(** [await response.json()] *)
Definition json (response : Response) : M Body :=
  match body response with
  | Some data => ret data
  | None => throw (Error "Unexpected end of JSON input")
  end.

(** *** fetchWithTimeout *)

Definition fetchWithTimeout (ep : Endpoint) (key : option string)
  : M Response :=
  fun s =>
    let startTime := now (world s) in
    let '(res, w') :=
      fetch {| endpoint := ep; xApiKey := key; timeoutMs := timeout s |}
            (world s) in
    let s1 := setWorld w' s in
    match res with
    | Responded response =>
        let duration := now w' - startTime in
        let s2 := recordCall duration s1 in
        if status response =? 429 then
          let retryAfter_ := default 1 (retryAfter response) in
          (inl (RateLimitError (retryAfter_ * 1000)), recordError s2)
        else if negb (ok response) && (400 <=? status response) then
          (inl (AxelarAPIError (status response) (500 <=? status response)),
           recordError s2)
        else (inr response, s2)
    | Aborted => (inl (AxelarAPIError 0 true), recordError s1)
    | Failed => (inl (AxelarAPIError 0 true), recordError s1)
    end.

(** *** retryOperation *)

(** [lastError instanceof AxelarAPIError && !lastError.retryable] *)
Definition nonRetryable (e : JsError) : bool :=
  isAxelarAPIError e && negb (retryableOf e).

Definition retryDelay (attempt jitter : Z) (e : JsError) : Z :=
  let baseDelay := retryDelayMs * 2 ^ attempt in
  match e with
  | RateLimitError retryAfterMs => retryAfterMs
  | _ => baseDelay + jitter
  end.

(** The state in which the next attempt starts, after a failed attempt
    number [attempt] that left the state [s]. *)
Definition backoff (attempt : Z) (e : JsError) (s : St) : St :=
  if attempt <? maxRetries - 1 then
    let '(r, w1) := random (world s) in
    let jitter := Qfloor (r * 250) in
    setWorld (sleep (retryDelay attempt jitter e) w1) s
  else s.

(** The loop, from attempt number [attempt], with [fuel] attempts left. *)
Fixpoint retryFrom {A} (fuel : nat) (attempt : Z)
    (lastError : option JsError) (operation : M A) : M A :=
  match fuel with
  | O => throw (default (Error "Operation failed after retries") lastError)
  | S fuel' =>
      fun s =>
        match operation s with
        | (inr result, s1) => (inr result, s1)
        | (inl e, s1) =>
            if nonRetryable e then (inl e, s1)
            else retryFrom fuel' (attempt + 1) (Some e) operation
                           (backoff attempt e s1)
        end
  end.

Definition retryOperation {A} (operation : M A) : M A :=
  retryFrom (Z.to_nat maxRetries) 0 None operation.

(** *** Volumes *)

Definition sumTransfers (total : Q) (values : list Q) : Q :=
  fold_left Qplus values total.

(** The [while (remaining-- > 0)] loop of [getVolumes]. *)
Fixpoint fetchTransferPages (remaining : nat) (fromTime toTime : Z)
    (cursor : option string) (totalVolumeUsd : Q) : M Q :=
  match remaining with
  | O => ret totalVolumeUsd
  | S remaining' =>
      key <- gets authHeader ;;
      response <-
        fetchWithTimeout (CrossChainTransfers fromTime toTime cursor) key ;;
      if negb (ok response) then throw (Error "Axelarscan API error")
      else
        data <- json response ;;
        let total := sumTransfers totalVolumeUsd (transfers data) in
        match next_cursor data with
        | Some next => fetchTransferPages remaining' fromTime toTime
                                          (Some next) total
        | None => ret total
        end
  end.

(** One iteration of the [for (const window of windows)] loop. *)
Definition volumeOf (w : Window) : M VolumeWindow :=
  try_catch
    (now_ <- dateNow ;;
     let fromTime := now_ - timeRange w in
     totalVolumeUsd <- fetchTransferPages 5 fromTime now_ None 0%Q ;;
     measuredAt <- dateNow ;;
     ret {| window := w;
            volumeUsd := if Qeq_bool totalVolumeUsd 0
                         then getEstimatedVolume w else totalVolumeUsd;
            vw_measuredAt := measuredAt |})
    (fun _ =>
       measuredAt <- dateNow ;;
       ret {| window := w;
              volumeUsd := getEstimatedVolume w;
              vw_measuredAt := measuredAt |}).

Definition getVolumes (windows : list Window) : M (list VolumeWindow) :=
  mapM volumeOf windows.

Definition getVolumesWithRetry (windows : list Window)
  : M (list VolumeWindow) :=
  retryOperation (getVolumes windows).

(** *** Prices *)

Definition priceCacheGet (key : string) : M (option Q) :=
  fun s =>
    let '(v, c) := TTLCache.get (now (world s)) key (priceCache s) in
    (inr v, setPriceCache c s).

Definition priceCacheSet (key : string) (price : Q) : M unit :=
  modify (fun s =>
    setPriceCache (TTLCache.set (now (world s)) key price (priceCache s)) s).

(** [this.priceCircuit.execute(fn)] *)
Definition priceCircuitExecute {T} (fn : M T) : M T :=
  fun s =>
    let '(r, cb, s') :=
      CircuitBreaker.execute (fun s0 => now (world s0)) fn
                             (priceCircuit s) s in
    (r, setPriceCircuit cb s').

(** [this.deduplicator.deduplicate(key, fn)] in a sequential run: no
    operation is pending when the call arrives, the producer runs, and its
    key is removed when it settles. *)
Definition deduplicate {T} (key : string) (fn : M T) : M T := fn.

Definition isStablecoin (sym : string) : bool :=
  includes sym "USDC" || includes sym "USDT" || includes sym "DAI"
  || includes sym "BUSD".

(** The operation guarded by the price circuit breaker. *)
Definition lookupPrice (chain assetAddress sym : string) : M Q :=
  startTime <- dateNow ;;
  let platform := platformMap chain in
  res <- fetchWithTimeout (TokenPrice platform assetAddress) None ;;
  modify (fun s => recordCall (now (world s) - startTime) s) ;;
  if ok res then
    json_ <- json res ;;
    let price := default 0%Q (usd json_ (toLowerCase assetAddress)) in
    if Qgtb price 0 then ret price else throw (PriceAPIError sym)
  else throw (PriceAPIError sym).

Definition getUsdPrice (chain assetAddress sym_ : string) : M Q :=
  let cacheKey := toLowerCase (chain ++ ":" ++ assetAddress) in
  cached <- priceCacheGet cacheKey ;;
  match cached with
  | Some price => modify recordCacheHit ;; ret price
  | None =>
      modify recordCacheMiss ;;
      if isStablecoin (toUpperCase sym_) then
        priceCacheSet cacheKey 1 ;; ret 1%Q
      else
        deduplicate cacheKey
          (try_catch
             (price <- priceCircuitExecute
                         (lookupPrice chain assetAddress sym_) ;;
              priceCacheSet cacheKey price ;;
              ret price)
             (fun _ => priceCacheSet cacheKey 1 ;; ret 1%Q))
  end.

(** *** Rates *)

Definition getAxelarQuote (src dst : Asset) (amountIn_ : Z) : M Rate :=
  try_catch
    (key <- gets authHeader ;;
     response <-
       fetchWithTimeout
         (CrossChainFees (chainId src) (chainId dst) (symbol src)) key ;;
     feeData <- (if ok response
                 then data <- json response ;; ret (Some data)
                 else ret None) ;;
     priceUsd <- getUsdPrice (chainId src) (assetId src) (symbol src) ;;
     quotedAt_ <- dateNow ;;
     ret (quoteRate src dst amountIn_ priceUsd
                    (match feeData with
                     | Some data => fee_usd data
                     | None => None
                     end)
                    quotedAt_))
    (fun _ =>
       quotedAt_ <- dateNow ;;
       ret (createFallbackRate src dst amountIn_ quotedAt_)).

(** The pairs visited by the nested loops of [getRates], in order. *)
Definition combinations (routes_ : list Route) (notionals_ : list Z)
  : list (Route * Z) :=
  flat_map (fun route => map (pair route) notionals_) routes_.

(** The body of the inner loop of [getRates]. *)
Definition rateOf (item : Route * Z) : M Rate :=
  let '(route, notional) := item in
  try_catch
    (getAxelarQuote (source route) (destination route) notional)
    (fun _ =>
       quotedAt_ <- dateNow ;;
       ret (createFallbackRate (source route) (destination route) notional
                               quotedAt_)).

Definition getRates (routes_ : list Route) (notionals_ : list Z)
  : M (list Rate) :=
  mapM rateOf (combinations routes_ notionals_).

Definition getRatesWithRetry (routes_ : list Route) (notionals_ : list Z)
  : M (list Rate) :=
  retryOperation (getRates routes_ notionals_).

(** *** Liquidity depth *)

(** [Math.floor(usd * Math.pow(10, decimals))] *)
Definition scaled (usdAmount : Z) (d : Z) : Z :=
  Qfloor (inject_Z usdAmount * pow10 d).

(** [Math.abs((rate - baseline) / baseline) * 10_000 <= limit]; with a zero
    baseline the source compares NaN or Infinity, which is false. *)
Definition slippageWithin (limit : Q) (rate baseline : Q) : bool :=
  if Qeq_bool baseline 0 then false
  else Qle_bool (Qabs ((rate - baseline) / baseline) * 10000) limit.

(** The [for (const amount of testAmounts)] loop. *)
Fixpoint probeLadder (route : Route) (baselineRate : Q)
    (testAmounts : list Z) (max50 max100 : Z) : M (Z * Z) :=
  match testAmounts with
  | [] => ret (max50, max100)
  | amount :: rest =>
      probe <- try_catch
                 (quote <- getAxelarQuote (source route) (destination route)
                                          amount ;;
                  ret (Some quote))
                 (fun _ => ret None) ;;
      match probe with
      | Some quote =>
          let rate := effectiveRate quote in
          probeLadder route baselineRate rest
            (if slippageWithin 50 rate baselineRate then amount else max50)
            (if slippageWithin 100 rate baselineRate then amount
             else max100)
      | None => ret (max50, max100)
      end
  end.

Definition fallbackLiquidity (route : Route) (measuredAt : Z)
  : LiquidityDepth :=
  {| ld_route := route;
     thresholds :=
       [ {| maxAmountIn := scaled 800000 (decimals (source route));
            slippageBps := 50 |};
         {| maxAmountIn := scaled 600000 (decimals (source route));
            slippageBps := 100 |} ];
     ld_measuredAt := measuredAt |}.

(** One iteration of the [for (const route of routes)] loop. *)
Definition liquidityOf (route : Route) : M LiquidityDepth :=
  let d := decimals (source route) in
  try_catch
    (let baselineAmount := scaled 50000 d in
     baselineQuote <- getAxelarQuote (source route) (destination route)
                                     baselineAmount ;;
     let baselineRate := effectiveRate baselineQuote in
     let testAmounts :=
       [scaled 100000 d; scaled 500000 d; scaled 1000000 d] in
     maxima <- probeLadder route baselineRate testAmounts
                           (scaled 50000 d) (scaled 50000 d) ;;
     measuredAt <- dateNow ;;
     ret {| ld_route := route;
            thresholds :=
              [ {| maxAmountIn := fst maxima; slippageBps := 50 |};
                {| maxAmountIn := snd maxima; slippageBps := 100 |} ];
            ld_measuredAt := measuredAt |})
    (fun _ =>
       measuredAt <- dateNow ;;
       ret (fallbackLiquidity route measuredAt)).

Definition getLiquidityDepth (routes_ : list Route)
  : M (list LiquidityDepth) :=
  mapM liquidityOf routes_.

Definition getLiquidityDepthWithRetry (routes_ : list Route)
  : M (list LiquidityDepth) :=
  retryOperation (getLiquidityDepth routes_).

(** *** Listed assets *)

Definition assetCacheGet (key : string) : M (option ListedAssets) :=
  fun s =>
    let '(v, c) := TTLCache.get (now (world s)) key (assetCache s) in
    (inr v, setAssetCache c s).

Definition assetCacheSet (key : string) (v : ListedAssets) : M unit :=
  modify (fun s =>
    setAssetCache (TTLCache.set (now (world s)) key v (assetCache s)) s).

(** One record per chain-address pairing of every asset: the items of
    [assetsData.data] in their order, and for each item the entries of
    [Object.entries(asset.addresses)]. *)
Definition flattenAssets (items : list AxelarAsset) : list Asset :=
  flat_map
    (fun asset =>
       map (fun entry : string * string =>
              {| chainId := fst entry;
                 assetId := snd entry;
                 symbol := if decide (aa_symbol asset = EmptyString)
                           then denom asset else aa_symbol asset;
                 decimals := if aa_decimals asset =? 0
                             then 18 else aa_decimals asset |})
           (objectEntries (addresses asset)))
    items.

Definition getListedAssets : M ListedAssets :=
  cached <- assetCacheGet "all-assets" ;;
  match cached with
  | Some listed => ret listed
  | None =>
      try_catch
        (key <- gets authHeader ;;
         chainsResponse <- fetchWithTimeout CrossChainChains key ;;
         if negb (ok chainsResponse)
         then throw (Error "Axelarscan chains API error")
         else
           chainsData <- json chainsResponse ;;
           assetsResponse <- fetchWithTimeout CrossChainAssets key ;;
           if negb (ok assetsResponse)
           then throw (Error "Axelarscan assets API error")
           else
             assetsData <- json assetsResponse ;;
             let found := flattenAssets (registry assetsData) in
             measuredAt <- dateNow ;;
             let result :=
               {| assets := match found with
                            | [] => getFallbackAssets
                            | _ => found
                            end;
                  la_measuredAt := measuredAt |} in
             assetCacheSet "all-assets" result ;;
             ret result)
        (fun _ =>
           measuredAt <- dateNow ;;
           ret {| assets := getFallbackAssets;
                  la_measuredAt := measuredAt |})
  end.

Definition getListedAssetsWithRetry : M ListedAssets :=
  retryOperation getListedAssets.

(** *** getSnapshot *)

Record SnapshotParams : Type := mkParams {
  routes : list Route;
  notionals : list Z;
  includeWindows : option (list Window)
}.

(** The four sub-pipelines are started together by [Promise.all] in the
    source; here they run one after the other, in the order of the array.
    The result of the [Effect] is [inl] when it fails. *)
Definition getSnapshot (params : SnapshotParams) : M ProviderSnapshot :=
  try_catch
    (try_catch
       (volumes_ <- getVolumesWithRetry
                      (default [W24h] (includeWindows params)) ;;
        rates_ <- getRatesWithRetry (routes params) (notionals params) ;;
        liquidity_ <- getLiquidityDepthWithRetry (routes params) ;;
        listedAssets_ <- getListedAssetsWithRetry ;;
        ret {| volumes := volumes_;
               rates := rates_;
               liquidity := liquidity_;
               listedAssets := listedAssets_ |})
       (fun error => modify recordError ;; throw error))
    (fun error =>
       if isAxelarAPIError error
       then throw (Error "Axelar API error")
       else throw (Error "Failed to fetch snapshot")).

End Service.
Arguments St : clear implicits.
Arguments M : clear implicits.

(** ** A scripted world, for concrete runs

    The clock advances by one with every [fetch]; [fetch] answers from a
    script and fails (a transport error) once the script is used up;
    [Math.random()] yields the next number of a list (0 when exhausted);
    [setTimeout] is logged and advances the clock by the delay. *)

Record Sim : Type := mkSim {
  clock : Z;
  script : list FetchResult;
  randoms : list Q;
  requests : list Request;      (* the requests made, latest first *)
  timers : list Z               (* the delays slept, latest first *)
}.

#[export] Instance simPlatform : Platform Sim := {|
  now := clock;
  fetch := fun req w =>
    match script w with
    | [] => (Failed,
             mkSim (clock w + 1) [] (randoms w) (req :: requests w) (timers w))
    | r :: rest =>
        (r, mkSim (clock w + 1) rest (randoms w) (req :: requests w)
                  (timers w))
    end;
  random := fun w =>
    match randoms w with
    | [] => (0%Q, w)
    | r :: rest =>
        (r, mkSim (clock w) (script w) rest (requests w) (timers w))
    end;
  sleep := fun delay w =>
    mkSim (clock w + delay) (script w) (randoms w) (requests w)
          (delay :: timers w)
|}.

Definition usdcEth : Asset :=
  mkAsset "1" "0xA0b86991c6218b36c1d19D4a2e9Eb0cE3606eB48" "USDC" 6.
Definition usdcPolygon : Asset :=
  mkAsset "137" "0x2791Bca1f2de4661ED88A30C99A7a9449Aa84174" "USDC" 6.
Definition usdcBsc : Asset :=
  mkAsset "56" "0x8AC76a51cc950d9822D68b83fE1Ad97B32Cd580d" "USDC" 18.

(** Two more worlds, whose only state is the clock: one in which every call
    fails in transport, and one in which every call is answered with status
    200 and the same body (no transfers, a fee of 2 USD, no assets, no
    price). *)

Definition offline : Platform Z := {|
  now := fun w => w;
  fetch := fun _ w => (Failed, w + 1);
  random := fun w => (0%Q, w);
  sleep := fun delay w => w + delay
|}.

Definition steady : Platform Z := {|
  now := fun w => w;
  fetch := fun _ w =>
    (Responded {| status := 200; retryAfter := None;
                  body := Some {| transfers := []; next_cursor := None;
                                  fee_usd := Some 2%Q; registry := [];
                                  usd := fun _ => None |} |}, w + 1);
  random := fun w => (0%Q, w);
  sleep := fun delay w => w + delay
|}.

(** One route, two notionals, the windows 24h and 7d. *)
Definition demoParams : SnapshotParams :=
  mkParams [mkRoute usdcEth usdcPolygon] [1000000; 1000000000]
           (Some [W24h; W7d]).

Definition answer200 (fee : option Q) : Response :=
  {| status := 200; retryAfter := None;
     body := Some {| transfers := []; next_cursor := None; fee_usd := fee;
                     registry := []; usd := fun _ => None |} |}.

Definition answer (code : Z) (retryAfterSeconds : option Z) : Response :=
  {| status := code; retryAfter := retryAfterSeconds; body := None |}.

(** A service in the scripted world. *)
Definition simService (answers : list FetchResult) : St Sim :=
  newService EmptyString 30000 (mkSim 1000 answers [] [] []).

(** A service whose price circuit breaker opened at t = 1000. *)
Definition tripped : St Sim :=
  setPriceCircuit (CircuitBreaker.mkBreaker 3 1000 CircuitBreaker.OPEN 3 30000)
                  (simService []).

(** An operation that counts its attempts in [metrics.errors] and then goes
    through the price circuit breaker. *)
Definition guardedCall : M Sim Q :=
  bind (modify recordError) (fun _ => priceCircuitExecute (ret 1%Q)).

(** Operations for a breaker whose wrapped state is the clock. *)
Definition failing : Z -> (JsError + Z) * Z :=
  fun clock_ => (inl (AxelarAPIError 500 true), clock_ + 10).
Definition succeeding : Z -> (JsError + Z) * Z :=
  fun clock_ => (inr 42, clock_ + 10).

(** ** Vocabulary of the properties *)

Section BreakerRuns.
Context {W T : Type} (now_ : W -> Z).

(** Calls made one after the other, each on the breaker and the state the
    previous one left. *)
Fixpoint executeAll (fns : list (W -> (JsError + T) * W))
    (cb : CircuitBreaker.t) (w : W) : CircuitBreaker.t * W :=
  match fns with
  | [] => (cb, w)
  | fn :: rest =>
      let '(_, cb', w') := CircuitBreaker.execute now_ fn cb w in
      executeAll rest cb' w'
  end.

End BreakerRuns.

Definition feeNonNegative (feeUsd : option Q) : Prop :=
  forall q, feeUsd = Some q -> (0 <= q)%Q.

(** What the code establishes of a Rate.  The amounts and the fee are as
    the specification has them.  The effective rate is either the 0.999 of
    [createFallbackRate], or, for a quote, the ratio of [amountOut] to
    [amountIn] multiplied by ten to the difference of the decimals of the two
    assets: [getAxelarQuote] divides [amountOut], which it computed in units
    of the source asset, by ten to the decimals of the destination asset.
    The rate is therefore at most 1 where the decimals are equal. *)
Definition rateInvariant (r : Rate) : Prop :=
  (0 <= effectiveRate r)%Q /\
  (effectiveRate r == 999 # 1000 \/
   effectiveRate r ==
   inject_Z (amountOut r) / inject_Z (amountIn r)
   * pow10 (decimals (rate_source r) - decimals (rate_destination r)))%Q /\
  (decimals (rate_source r) = decimals (rate_destination r) ->
   (effectiveRate r <= 1)%Q) /\
  0 <= amountOut r <= amountIn r /\
  (0 <= totalFeesUsd r)%Q.

Definition never : JsError -> Prop := fun _ => False.
Definition any {A} : A -> Prop := fun _ => True.

(** The shape of a liquidity entry: its route, and two thresholds, at 50 and
    at 100 basis points. *)
Definition liquidityFor (route : Route) (l : LiquidityDepth) : Prop :=
  ld_route l = route /\ map slippageBps (thresholds l) = [50; 100].

(** Both thresholds at the top of the ladder of probed amounts. *)
Definition ladderTop (route : Route) : list Threshold :=
  [ {| maxAmountIn := scaled 1000000 (decimals (source route));
       slippageBps := 50 |};
    {| maxAmountIn := scaled 1000000 (decimals (source route));
       slippageBps := 100 |} ].

Definition fallbackFor (item : Route * Z) (r : Rate) : Prop :=
  exists t, r = createFallbackRate (source (fst item))
                                   (destination (fst item)) (snd item) t.

Section Vocabulary.
Context {World : Type} `{Platform World}.

(** [hoare I m Q E]: from a state that satisfies [I], the computation [m]
    either returns a value that satisfies [Q] or throws an error that
    satisfies [E], and leaves a state that satisfies [I]. *)
Definition hoare {A} (I : St World -> Prop) (m : M World A) (Q : A -> Prop)
    (E : JsError -> Prop) : Prop :=
  forall s, I s ->
    match m s with
    | (inr a, s') => Q a /\ I s'
    | (inl e, s') => E e /\ I s'
    end.

(** A response handed on by [fetchWithTimeout] is one that [fetch]
    produced. *)
Definition fetched (response : Response) : Prop :=
  exists req w w', fetch req w = (Responded response, w').

(** What [getAxelarQuote] can return: a quote computed from a good price and
    a good fee figure, or the fallback rate. *)
Definition quoted (goodPrice : Q -> Prop) (goodFee : option Q -> Prop)
    (src dst : Asset) (n : Z) (r : Rate) : Prop :=
  (exists priceUsd feeUsd t,
     goodPrice priceUsd /\ goodFee feeUsd /\
     r = quoteRate src dst n priceUsd feeUsd t) \/
  (exists t, r = createFallbackRate src dst n t).

Definition quotedFor (goodPrice : Q -> Prop) (goodFee : option Q -> Prop)
    (item : Route * Z) (r : Rate) : Prop :=
  quoted goodPrice goodFee (source (fst item)) (destination (fst item))
         (snd item) r.

(** What every snapshot looks like. *)
Definition shaped (goodPrice : Q -> Prop) (goodFee : option Q -> Prop)
    (params : SnapshotParams) (snap : ProviderSnapshot) : Prop :=
  Forall2 (fun w v => window v = w)
          (default [W24h] (includeWindows params)) (volumes snap) /\
  Forall2 (quotedFor goodPrice goodFee)
          (combinations (routes params) (notionals params)) (rates snap) /\
  Forall2 liquidityFor (routes params) (liquidity snap).

(** Every cached price is positive. *)
Definition pricesPositive (s : St World) : Prop :=
  forall k e, TTLCache.store (priceCache s) !! k = Some e ->
              (0 < TTLCache.value e)%Q.

(** Every fee figure the upstream sends is non-negative. *)
Definition feesNonNegative : Prop :=
  forall req w response w' data,
    fetch req w = (Responded response, w') ->
    body response = Some data -> feeNonNegative (fee_usd data).

(** Every upstream call fails: it is aborted by the deadline, fails in
    transport, or is answered with a status of 400 or more. *)
Definition upstreamDown : Prop :=
  forall req w,
    match fst (fetch req w) with
    | Responded response => 400 <= status response
    | Aborted | Failed => True
    end.

(** No asset list is cached. *)
Definition noAssetsCached (s : St World) : Prop :=
  TTLCache.store (assetCache s) !! "all-assets" = None.

(** The snapshot of a service whose upstream is down. *)
Definition degraded (params : SnapshotParams) (snap : ProviderSnapshot)
  : Prop :=
  Forall2 (fun w v => window v = w /\ volumeUsd v = getEstimatedVolume w)
          (default [W24h] (includeWindows params)) (volumes snap) /\
  Forall2 fallbackFor (combinations (routes params) (notionals params))
          (rates snap) /\
  Forall2 (fun route l => ld_route l = route /\
                          thresholds l = ladderTop route)
          (routes params) (liquidity snap) /\
  assets (listedAssets snap) = getFallbackAssets.
End Vocabulary.

(** ** Vocabulary of the further properties *)

(** ** Runs of the components *)

Section CacheRuns.
Context {K : Type} `{Countable K} {V : Type}.

(** The calls a user of a cache can make. *)
Inductive CacheCall : Type :=
| CacheGet (now_ : Z) (key : K)
| CacheSet (now_ : Z) (key : K) (v : V)
| CacheClear.

Definition cacheCall (call : CacheCall) (c : TTLCache.t K V)
  : TTLCache.t K V :=
  match call with
  | CacheGet now_ key => snd (TTLCache.get now_ key c)
  | CacheSet now_ key v => TTLCache.set now_ key v c
  | CacheClear => TTLCache.clear c
  end.

Definition cacheRun (calls : list CacheCall) (c : TTLCache.t K V)
  : TTLCache.t K V :=
  fold_left (fun c call => cacheCall call c) calls c.

(** The reads made since the last [clear]. *)
Fixpoint readsSinceClear (calls : list CacheCall) (reads : nat) : nat :=
  match calls with
  | [] => reads
  | CacheGet _ _ :: rest => readsSinceClear rest (S reads)
  | CacheSet _ _ _ :: rest => readsSinceClear rest reads
  | CacheClear :: rest => readsSinceClear rest 0
  end.
End CacheRuns.
Arguments CacheCall : clear implicits.

(** The breaker is CLOSED exactly while its failure count is below the
    threshold. *)
Definition breakerSound (cb : CircuitBreaker.t) : Prop :=
  1 <= CircuitBreaker.failureThreshold cb /\
  0 <= CircuitBreaker.failures cb /\
  (CircuitBreaker.state cb = CircuitBreaker.CLOSED <->
   CircuitBreaker.failures cb < CircuitBreaker.failureThreshold cb).

(** No promise that is still registered has settled, and every settled
    promise was allocated. *)
Definition unsettled {T : Type} (d : RequestDeduplicator.t T) : Prop :=
  (forall p k, RequestDeduplicator.cleanup d !! p = Some k ->
               RequestDeduplicator.settled d !! p = None) /\
  (forall p o, RequestDeduplicator.settled d !! p = Some o ->
               (p < RequestDeduplicator.nextPromise d)%nat).

(** ** The health check *)

Record Health : Type := mkHealth {
  health_status : string;
  health_timestamp : Z
}.

Section HealthCheck.
Context {World : Type} `{Platform World}.

(** [ping()]: the result of the [Effect] is [inl] when it fails. *)
Definition ping : M World Health :=
  bind
    (try_catch
       (bind (fetchWithTimeout CrossChainChains None)
             (fun response =>
                if negb (ok response)
                then throw (Error "Axelarscan API unhealthy")
                else ret tt))
       (fun _ => ret tt))
    (fun _ =>
       bind dateNow
            (fun timestamp =>
               ret {| health_status := "ok";
                      health_timestamp := timestamp |})).
End HealthCheck.

(** ** More vocabulary *)

(** The amounts [getLiquidityDepth] works with for a route: the baseline and
    the three probes. *)
Definition ladder (route : Route) : list Z :=
  map (fun usdAmount => scaled usdAmount (decimals (source route)))
      [50000; 100000; 500000; 1000000].

(** The route and notional a rate was made for. *)
Definition rateKey (r : Rate) : Route * Z :=
  (mkRoute (rate_source r) (rate_destination r), amountIn r).

(** A liquidity entry whose two thresholds are in order and come from the
    ladder of its route. *)
Definition orderedOnLadder (route : Route) (l : LiquidityDepth) : Prop :=
  exists max50 max100,
    thresholds l = [ {| maxAmountIn := max50; slippageBps := 50 |};
                     {| maxAmountIn := max100; slippageBps := 100 |} ] /\
    max50 <= max100 /\
    In max50 (ladder route) /\ In max100 (ladder route).

Section MoreVocabulary.
Context {World : Type} `{Platform World}.

(** [graded R k m]: the computation [m] takes every state to one that is
    related to it by [R k], whether it returns or throws. *)
Definition graded {A} (R : nat -> St World -> St World -> Prop) (k : nat)
    (m : M World A) : Prop :=
  forall s, R k s (snd (m s)).

(** At most [k] more upstream calls, for a count of the calls made. *)
Definition callsWithin (count : World -> nat) (k : nat) (s s' : St World)
  : Prop :=
  (count (world s') <= count (world s) + k)%nat.

(** [count] counts the calls of [fetch], and nothing else. *)
Definition countsFetches (count : World -> nat) : Prop :=
  (forall req w, count (snd (fetch req w)) = S (count w)) /\
  (forall w, count (snd (random w)) = count w) /\
  (forall delay w, count (sleep delay w) = count w).

(** No counter of the metrics has decreased. *)
Definition countersGrow (k : nat) (s s' : St World) : Prop :=
  apiCalls (metrics s) <= apiCalls (metrics s') /\
  cacheHits (metrics s) <= cacheHits (metrics s') /\
  cacheMisses (metrics s) <= cacheMisses (metrics s') /\
  errors (metrics s) <= errors (metrics s').

(** The configuration, the Axelarscan circuit breaker and the chain cache
    are what they were. *)
Definition settingsKept (k : nat) (s s' : St World) : Prop :=
  apiKey s' = apiKey s /\ timeout s' = timeout s /\
  axelarscanCircuit s' = axelarscanCircuit s /\
  chainCache s' = chainCache s.

(** The price cache is what it was. *)
Definition priceCacheKept (k : nat) (s s' : St World) : Prop :=
  priceCache s' = priceCache s.



(** No condition on the state. *)
Definition anyState : St World -> Prop := fun _ => True.

(** The asset list in the cache, if any, is not empty. *)
Definition cachedAssetsNonEmpty (s : St World) : Prop :=
  forall e, TTLCache.store (assetCache s) !! "all-assets" = Some e ->
            assets (TTLCache.value e) <> [].
End MoreVocabulary.

Section Tracking.
Context {World : Type} `{Platform World}.

(** A relation between the state before and the state after, indexed by a
    number of upstream calls, that every primitive step of the service
    respects: a call of [fetch] costs one, the updates of the metrics, of the
    price cache, of the asset cache and of the price circuit breaker cost
    nothing. *)
Record tracked (R : nat -> St World -> St World -> Prop) : Prop := {
  tracked_refl : forall s, R 0%nat s s;
  tracked_trans : forall j k s1 s2 s3,
    R j s1 s2 -> R k s2 s3 -> R (j + k)%nat s1 s3;
  tracked_mono : forall j k s s', (j <= k)%nat -> R j s s' -> R k s s';
  tracked_fetch : forall req s,
    R 1%nat s (setWorld (snd (fetch req (world s))) s);
  tracked_recordCall : forall duration s, R 0%nat s (recordCall duration s);
  tracked_recordError : forall s, R 0%nat s (recordError s);
  tracked_recordCacheHit : forall s, R 0%nat s (recordCacheHit s);
  tracked_recordCacheMiss : forall s, R 0%nat s (recordCacheMiss s);
  tracked_priceCache : forall c s, R 0%nat s (setPriceCache c s);
  tracked_assetCache : forall c s, R 0%nat s (setAssetCache c s);
  tracked_priceCircuit : forall cb s, R 0%nat s (setPriceCircuit cb s)
}.

(** Five pages for each window, a fee call and a price call for each quote,
    four quotes for each route of the liquidity ladder, and the two asset
    endpoints. *)
Definition callBudget (params : SnapshotParams) : nat :=
  (5 * length (default [W24h] (includeWindows params))
   + 2 * (length (routes params) * length (notionals params))
   + 8 * length (routes params)
   + 2)%nat.
End Tracking.

(** The number of requests the scripted world has received. *)
Definition requestsMade (w : Sim) : nat := length (requests w).

Section PriceVocabulary.
Context {World : Type} `{Platform World}.

(** [getUsdPrice]'s cache key. *)
Definition priceKey (chain assetAddress : string) : string :=
  toLowerCase (chain ++ ":" ++ assetAddress).

(** The price cache holds [price] under [key], not yet expired at the
    current reading of the clock. *)
Definition cachedFresh (key : string) (price : Q) (s : St World) : Prop :=
  exists e, TTLCache.store (priceCache s) !! key = Some e /\
            TTLCache.value e = price /\
            now (world s) <= TTLCache.expiresAt e.

(** The price circuit breaker refuses calls: it is open and its reset
    timeout has not passed. *)
Definition priceCircuitRefuses (s : St World) : Prop :=
  CircuitBreaker.state (priceCircuit s) = CircuitBreaker.OPEN /\
  now (world s) - CircuitBreaker.lastFailureTime (priceCircuit s)
  <= CircuitBreaker.resetTimeoutMs (priceCircuit s).
End PriceVocabulary.

(** ** Metrics and start-up *)

(** [CircuitBreaker.getState()] *)
Record BreakerState : Type := mkBreakerState {
  bs_state : CircuitBreaker.State;
  bs_failures : Z;
  bs_lastFailureTime : Z
}.

Definition getState (cb : CircuitBreaker.t) : BreakerState :=
  {| bs_state := CircuitBreaker.state cb;
     bs_failures := CircuitBreaker.failures cb;
     bs_lastFailureTime := CircuitBreaker.lastFailureTime cb |}.

(** What [getMetrics()] returns: the counters ([...this.metrics]), the
    average, the statistics of the three caches and the state of the two
    circuit breakers. *)
Record MetricsReport : Type := mkReport {
  counters : PerformanceMetrics;
  averageResponseTime : Q;
  stats_price : TTLCache.Stats;
  stats_chain : TTLCache.Stats;
  stats_asset : TTLCache.Stats;
  breaker_axelarscan : BreakerState;
  breaker_price : BreakerState
}.

Section StartUp.
Context {World : Type} `{Platform World}.

Definition getMetrics (s : St World) : MetricsReport :=
  {| counters := metrics s;
     averageResponseTime :=
       if 0 <? apiCalls (metrics s)
       then (inject_Z (totalResponseTime (metrics s))
             / inject_Z (apiCalls (metrics s)))%Q
       else 0%Q;
     stats_price := TTLCache.getStats (priceCache s);
     stats_chain := TTLCache.getStats (chainCache s);
     stats_asset := TTLCache.getStats (assetCache s);
     breaker_axelarscan := getState (axelarscanCircuit s);
     breaker_price := getState (priceCircuit s) |}.

(** The plugin's [initialize]: a new service from the configuration, and a
    [ping] whose failure would fail the start-up.  The service is the state
    that is returned. *)
Definition initialize (key : string) (timeout_ : Z) (w : World)
  : (JsError + unit) * St World :=
  bind ping (fun _ => ret tt) (newService key timeout_ w).
End StartUp.

(** * Properties *)

(** ** TTLCache *)

Section CacheProperties.
Context {K : Type} `{Countable K} {V : Type}.
Implicit Types (c : TTLCache.t K V) (e : TTLCache.Entry V).

Lemma get_fresh c key e now_ :
  TTLCache.store c !! key = Some e ->
  now_ <= TTLCache.expiresAt e ->
  fst (TTLCache.get now_ key c) = Some (TTLCache.value e).
Proof.
  intros Hkey Hle. unfold TTLCache.get. rewrite Hkey.
  destruct (TTLCache.expiresAt e <? now_) eqn:Hexp; [lia | reflexivity].
Qed.

Lemma get_stale c key e now_ :
  TTLCache.store c !! key = Some e ->
  TTLCache.expiresAt e < now_ ->
  fst (TTLCache.get now_ key c) = None /\
  TTLCache.store (snd (TTLCache.get now_ key c)) !! key = None.
Proof.
  intros Hkey Hlt. unfold TTLCache.get. rewrite Hkey.
  destruct (TTLCache.expiresAt e <? now_) eqn:Hexp; [| lia].
  split; [reflexivity | apply lookup_delete_eq].
Qed.

Lemma get_counts c key now_ :
  let c' := snd (TTLCache.get now_ key c) in
  (TTLCache.hits c' = TTLCache.hits c + 1 /\
   TTLCache.misses c' = TTLCache.misses c) \/
  (TTLCache.hits c' = TTLCache.hits c /\
   TTLCache.misses c' = TTLCache.misses c + 1).
Proof.
  unfold TTLCache.get.
  destruct (TTLCache.store c !! key) as [hit|]; [| right; split; reflexivity].
  destruct (TTLCache.expiresAt hit <? now_);
    [right | left]; split; reflexivity.
Qed.

Lemma set_stores c key v now_ :
  TTLCache.store (TTLCache.set now_ key v c) !! key =
  Some (TTLCache.mkEntry v (now_ + TTLCache.ttlMs c) 0).
Proof. apply lookup_insert_eq. Qed.

(** C9. For a key stored in the cache, [get] returns the stored value up to
    the entry's expiry and a miss strictly after it, deleting the entry;
    every [get] increments exactly one of the hit and miss counters; [set]
    stores the value with expiry [now + ttl] and access counter zero. *)
Theorem ttl_cache_get_set c key e now_ v :
  TTLCache.store c !! key = Some e ->
  (now_ <= TTLCache.expiresAt e ->
   fst (TTLCache.get now_ key c) = Some (TTLCache.value e)) /\
  (TTLCache.expiresAt e < now_ ->
   fst (TTLCache.get now_ key c) = None /\
   TTLCache.store (snd (TTLCache.get now_ key c)) !! key = None) /\
  (forall k t, let c' := snd (TTLCache.get t k c) in
     (TTLCache.hits c' = TTLCache.hits c + 1 /\
      TTLCache.misses c' = TTLCache.misses c) \/
     (TTLCache.hits c' = TTLCache.hits c /\
      TTLCache.misses c' = TTLCache.misses c + 1)) /\
  TTLCache.store (TTLCache.set now_ key v c) !! key =
    Some (TTLCache.mkEntry v (now_ + TTLCache.ttlMs c) 0) /\
  (forall later, later <= now_ + TTLCache.ttlMs c ->
     fst (TTLCache.get later key (TTLCache.set now_ key v c)) = Some v) /\
  (forall later, now_ + TTLCache.ttlMs c < later ->
     fst (TTLCache.get later key (TTLCache.set now_ key v c)) = None).
Proof.
  intros Hkey. repeat split.
  - intros Hle. exact (get_fresh c key e now_ Hkey Hle).
  - apply (get_stale c key e now_ Hkey); assumption.
  - apply (get_stale c key e now_ Hkey); assumption.
  - intros k t. apply get_counts.
  - apply set_stores.
  - intros later Hle.
    exact (get_fresh _ key _ later (set_stores c key v now_) Hle).
  - intros later Hlt.
    exact (proj1 (get_stale _ key _ later (set_stores c key v now_) Hlt)).
Qed.
End CacheProperties.

(** TTL = 100 ms, an entry set at t = 0: read at t = 50, missed at t = 150. *)
Lemma ttl_cache_get_set_witness :
  let c := TTLCache.set 0 "k" 7 (TTLCache.create (K := string) 100) in
  fst (TTLCache.get 50 "k" c) = Some 7 /\
  fst (TTLCache.get 150 "k" c) = None /\
  TTLCache.store (snd (TTLCache.get 150 "k" c)) !! "k" = None.
Proof.
  intros c.
  pose proof (ttl_cache_get_set c "k" (TTLCache.mkEntry 7 100 0) 50 7
                (set_stores _ "k" 7 0)) as (Hfresh & _).
  pose proof (ttl_cache_get_set c "k" (TTLCache.mkEntry 7 100 0) 150 7
                (set_stores _ "k" 7 0)) as (_ & Hstale & _).
  split; [apply Hfresh; simpl; lia | apply Hstale; simpl; lia].
Defined.

(** ** CircuitBreaker *)

Module BreakerProperties.
Import CircuitBreaker.

Section Breaker.
Context {W T : Type} (now_ : W -> Z).
Implicit Types (cb : t) (w : W) (fn : W -> (JsError + T) * W).



Lemma execute_open_early cb w fn :
  state cb = OPEN ->
  now_ w - lastFailureTime cb <= resetTimeoutMs cb ->
  execute now_ fn cb w = (inl circuitOpenError, cb, w).
Proof.
  intros Hst Hle. unfold execute, gate. rewrite Hst.
  destruct (resetTimeoutMs cb <? now_ w - lastFailureTime cb) eqn:Hlt;
    [lia | reflexivity].
Qed.



End Breaker.



End BreakerProperties.

(** ** RequestDeduplicator *)

Module DedupProperties.
Import RequestDeduplicator.

Section Dedup.
Context {T : Type}.
Implicit Types (d : t T) (key : string) (ev : Event T).

Lemma create_consistent : consistent (create (T := T)).
Proof.
  split.
  - intros k p. cbn. rewrite !lookup_empty. split; discriminate.
  - intros p k. cbn. rewrite lookup_empty. discriminate.
Qed.

Lemma deduplicate_consistent key d :
  consistent d -> consistent (snd (deduplicate key d)).
Proof.
  intros [Hinv Hlt]. unfold deduplicate.
  destruct (pending d !! key) as [existing|] eqn:Hkey; [split; assumption|].
  split; cbn.
  - intros k p.
    destruct (decide (k = key)) as [->|Hk];
      destruct (decide (p = nextPromise d)) as [->|Hp].
    + rewrite !lookup_insert_eq. split; reflexivity.
    + rewrite lookup_insert_eq, lookup_insert_ne by congruence. split.
      * intros [=]. congruence.
      * intros Hc. apply Hinv in Hc. congruence.
    + rewrite lookup_insert_ne, lookup_insert_eq by congruence. split.
      * intros Hq. apply Hinv, Hlt in Hq. lia.
      * intros [=]. congruence.
    + rewrite !lookup_insert_ne by congruence. apply Hinv.
  - intros p k.
    destruct (decide (p = nextPromise d)) as [->|Hp]; [lia|].
    rewrite lookup_insert_ne by congruence. intros Hc.
    apply Hlt in Hc. lia.
Qed.

Lemma settle_consistent p o d : consistent d -> consistent (settle p o d).
Proof.
  intros [Hinv Hlt]. unfold settle.
  destruct (cleanup d !! p) as [key|] eqn:Hp; [|split; assumption].
  split; cbn.
  - intros k q.
    destruct (decide (k = key)) as [->|Hk];
      destruct (decide (q = p)) as [->|Hq].
    + rewrite !lookup_delete_eq. split; discriminate.
    + rewrite lookup_delete_eq, lookup_delete_ne by congruence. split.
      * discriminate.
      * intros Hc. apply Hinv in Hc. apply Hinv in Hp. congruence.
    + rewrite lookup_delete_ne, lookup_delete_eq by congruence. split.
      * intros Hc. apply Hinv in Hc. congruence.
      * discriminate.
    + rewrite !lookup_delete_ne by congruence. apply Hinv.
  - intros q k.
    destruct (decide (q = p)) as [->|Hq];
      [rewrite lookup_delete_eq; discriminate|].
    rewrite lookup_delete_ne by congruence. apply Hlt.
Qed.

(** While the operation for [key] is in flight, behind promise [h], an
    event that does not settle [h] keeps it in flight, does not call the
    producer of [key], and hands [h] to a caller of [key]. *)
Lemma step_in_flight key h ev d :
  consistent d -> pending d !! key = Some h -> leaves h ev ->
  consistent (snd (step ev d)) /\
  pending (snd (step ev d)) !! key = Some h /\
  invocations key (snd (step ev d)) = invocations key d /\
  (forall p, fst (step ev d) = Some (key, p) -> p = h).
Proof.
  intros Hcons Hkey Hev. destruct ev as [k | p o].
  - pose proof (deduplicate_consistent k d Hcons) as Hcons'.
    unfold step. revert Hcons'. unfold deduplicate.
    destruct (pending d !! k) as [existing|] eqn:Hk; cbn; intros Hcons'.
    + refine (conj Hcons' (conj Hkey (conj eq_refl _))).
      intros q [= -> ->]. congruence.
    + assert (Hne : k <> key) by congruence.
      refine (conj Hcons' (conj _ (conj _ _))).
      * rewrite lookup_insert_ne by assumption. exact Hkey.
      * unfold invocations. cbn.
        destruct (decide (k = key)); [contradiction | reflexivity].
      * intros q [= ? ?]. contradiction.
  - pose proof (settle_consistent p o d Hcons) as Hcons'.
    cbn in *. revert Hcons'. unfold settle.
    destruct (cleanup d !! p) as [k|] eqn:Hp; cbn; intros Hcons'.
    + assert (Hne : k <> key).
      { intros ->. destruct Hcons as [Hinv _]. apply Hinv in Hp.
        rewrite Hp in Hkey. injection Hkey as ->. contradiction. }
      refine (conj Hcons' (conj _ (conj eq_refl _))).
      * rewrite lookup_delete_ne by assumption. exact Hkey.
      * discriminate.
    + refine (conj Hcons' (conj Hkey (conj eq_refl _))). discriminate.
Qed.

Lemma run_in_flight key h evs : forall d,
  consistent d -> pending d !! key = Some h -> Forall (leaves h) evs ->
  consistent (snd (run evs d)) /\
  pending (snd (run evs d)) !! key = Some h /\
  invocations key (snd (run evs d)) = invocations key d /\
  Forall (fun r => fst r = key -> snd r = h) (fst (run evs d)).
Proof.
  induction evs as [|ev rest IH]; intros d Hcons Hkey Hall.
  - cbn. refine (conj Hcons (conj Hkey (conj eq_refl _))). constructor.
  - inversion Hall as [|? ? Hev Hrest]; subst.
    destruct (step_in_flight key h ev d Hcons Hkey Hev)
      as (Hc1 & Hk1 & Hi1 & Hh1).
    cbn [run]. destruct (step ev d) as [r d1] eqn:Hstep. cbn in *.
    specialize (IH d1 Hc1 Hk1 Hrest).
    destruct (run rest d1) as [rs d2] eqn:Hrun. cbn in *.
    destruct IH as (Hc2 & Hk2 & Hi2 & Hh2).
    refine (conj Hc2 (conj Hk2 (conj _ _))); [congruence|].
    destruct r as [[k p]|]; [|assumption].
    constructor; [|assumption]. cbn. intros ->. apply Hh1. reflexivity.
Qed.

(** C7. A first caller of [deduplicate key] finds no pending operation and
    starts one, behind promise [h].  Whatever calls (for this key or any
    other) and settlements of other promises happen while it is in flight,
    the producer of [key] is called exactly once, every caller for [key] is
    handed [h], and when [h] settles with an outcome every one of them
    observes that outcome and [key] is no longer pending. *)
Theorem deduplicate_single_flight key d evs :
  consistent d ->
  pending d !! key = None ->
  Forall (leaves (fst (deduplicate key d))) evs ->
  let h := fst (deduplicate key d) in
  let d1 := snd (deduplicate key d) in
  let handles := fst (run evs d1) in
  let d2 := snd (run evs d1) in
  invocations key d2 = S (invocations key d) /\
  Forall (fun r => fst r = key -> snd r = h) handles /\
  forall outcome,
    let d3 := settle h outcome d2 in
    settled d3 !! h = Some outcome /\ pending d3 !! key = None.
Proof.
  intros Hcons Hfree Hall h d1 handles d2.
  pose proof (deduplicate_consistent key d Hcons) as Hc1. fold d1 in Hc1.
  assert (Hk1 : pending d1 !! key = Some h).
  { subst d1 h. unfold deduplicate. rewrite Hfree. cbn.
    apply lookup_insert_eq. }
  assert (Hi1 : invocations key d1 = S (invocations key d)).
  { subst d1. unfold deduplicate. rewrite Hfree. unfold invocations. cbn.
    destruct (decide (key = key)); [reflexivity | contradiction]. }
  destruct (run_in_flight key h evs d1 Hc1 Hk1 Hall)
    as (Hc2 & Hk2 & Hi2 & Hh2).
  fold d2 in Hc2, Hk2, Hi2. fold handles in Hh2.
  split; [congruence|]. split; [exact Hh2|].
  intros outcome d3. subst d3. unfold settle.
  assert (Hclean : cleanup d2 !! h = Some key) by (apply Hc2; exact Hk2).
  rewrite Hclean. cbn. split; [apply lookup_insert_eq | apply lookup_delete_eq].
Qed.
End Dedup.

(** Three callers ask for the price of the same asset while one caller asks
    for another; the price lookup then completes with 42. *)
Lemma deduplicate_single_flight_witness :
  let d0 := create (T := Z) in
  let h := fst (deduplicate "1:0xabc" d0) in
  let d1 := snd (deduplicate "1:0xabc" d0) in
  let evs := [Call "1:0xabc"; Call "1:0xdef"; Call "1:0xabc"] in
  let d2 := snd (run evs d1) in
  invocations "1:0xabc" d2 = 1%nat /\
  Forall (fun r => fst r = "1:0xabc" -> snd r = h) (fst (run evs d1)) /\
  settled (settle h (inr 42) d2) !! h = Some (inr 42) /\
  pending (settle h (inr 42) d2) !! "1:0xabc" = None.
Proof.
  intros d0 h d1 evs d2.
  assert (Hall : Forall (leaves (T := Z) h) evs).
  { repeat (constructor; [exact I|]). constructor. }
  destruct (deduplicate_single_flight "1:0xabc" d0 evs create_consistent
              (lookup_empty _) Hall) as (Hinv & Hsame & Hsettle).
  split; [exact Hinv|]. split; [exact Hsame|]. exact (Hsettle (inr 42)).
Defined.

End DedupProperties.

(** ** The fee arithmetic *)

Section FeeArithmetic.
Local Open Scope Q_scope.

Lemma pow10_pos d : 0 < pow10 d.
Proof. unfold pow10. apply Qpower_0_lt. reflexivity. Qed.

Lemma pow10_mono d1 d2 : (d1 <= d2)%Z -> pow10 d1 <= pow10 d2.
Proof.
  intros Hle. unfold pow10. apply Qpower_le_compat_l; [exact Hle|].
  discriminate.
Qed.

Lemma Qgtb_true x y : Qgtb x y = true <-> y < x.
Proof.
  unfold Qgtb. rewrite negb_true_iff. split.
  - intros Hb. apply Qnot_le_lt. intros Hle.
    apply Qle_bool_iff in Hle. congruence.
  - intros Hlt. destruct (Qle_bool x y) eqn:Hb; [|reflexivity].
    apply Qle_bool_iff in Hb. lra.
Qed.

Lemma Qgtb_false x y : Qgtb x y = false <-> x <= y.
Proof.
  unfold Qgtb. rewrite negb_false_iff. apply Qle_bool_iff.
Qed.

Lemma Qmin_spec x y :
  (x <= y /\ Qmin x y = x) \/ (y < x /\ Qmin x y = y).
Proof.
  unfold Qmin. destruct (Qle_bool x y) eqn:Hb.
  - left. split; [apply Qle_bool_iff; exact Hb | reflexivity].
  - right. split; [|reflexivity]. apply Qnot_le_lt. intros Hle.
    apply Qle_bool_iff in Hle. congruence.
Qed.

Lemma quotedGasFee_nonneg fee :
  (forall q, fee = Some q -> 0 <= q) -> 0 <= quotedGasFee fee.
Proof.
  intros Hfee. unfold quotedGasFee, gasFeeUsdDefault.
  destruct fee as [q|]; [|lra].
  destruct (Qeq_bool q 0); [lra | apply Hfee; reflexivity].
Qed.

(** The cap is a minimum, when the transfer has a positive value. *)
Lemma cappedGasFee_min usd gas :
  0 < usd -> cappedGasFee usd gas = Qmin gas (usd * (1 # 2)).
Proof.
  intros Hpos. unfold cappedGasFee, Qmin.
  assert (Hb : Qgtb usd 0 = true) by (apply Qgtb_true; exact Hpos).
  rewrite Hb. cbn [andb]. unfold Qgtb.
  destruct (Qle_bool gas (usd * (1 # 2))); reflexivity.
Qed.

Lemma cappedGasFee_bounds usd gas :
  0 < usd -> cappedGasFee usd gas <= usd * (1 # 2) /\
             cappedGasFee usd gas <= gas /\
             (0 <= gas -> 0 <= cappedGasFee usd gas).
Proof.
  intros Hpos. rewrite (cappedGasFee_min usd gas Hpos).
  destruct (Qmin_spec gas (usd * (1 # 2))) as [[Hle ->]|[Hlt ->]];
    repeat split; intros; lra.
Qed.

Lemma feeRatio_bounds usd gas :
  0 < usd ->
  let fee := totalFeeUsdOf usd (cappedGasFee usd gas) in
  feeRatioOf usd fee == fee / usd /\
  feeRatioOf usd fee <= 501 # 1000 /\
  (0 <= gas -> 0 <= feeRatioOf usd fee).
Proof.
  intros Hpos fee.
  destruct (cappedGasFee_bounds usd gas Hpos) as (Hhalf & _ & Hnonneg).
  assert (Hfee : fee <= usd * (501 # 1000)).
  { subst fee. unfold totalFeeUsdOf, baseFeePercent. lra. }
  assert (Hratio : fee / usd <= 501 # 1000).
  { apply Qle_shift_div_r; [exact Hpos | lra]. }
  unfold feeRatioOf.
  assert (Hb : Qgtb usd 0 = true) by (apply Qgtb_true; exact Hpos).
  rewrite Hb.
  destruct (Qmin_spec (fee / usd) (99 # 100)) as [[Hle ->]|[Hlt ->]];
    [|lra].
  split; [reflexivity|]. split; [exact Hratio|].
  intros Hgas. apply Qle_shift_div_l; [exact Hpos|].
  subst fee. unfold totalFeeUsdOf, baseFeePercent.
  specialize (Hnonneg Hgas). lra.
Qed.

Lemma toFixed6_nonneg x : 0 <= x -> 0 <= toFixed6 x.
Proof.
  intros Hx. unfold toFixed6.
  assert (Hb : Qle_bool 0 x = true) by (apply Qle_bool_iff; exact Hx).
  rewrite Hb.
  assert (Hfl : (0 <= Qfloor (x * 1000000 + (1 # 2)))%Z).
  { change 0%Z with (Qfloor 0). apply Qfloor_resp_le. lra. }
  apply Qle_shift_div_l; [reflexivity|].
  rewrite Qmult_0_l. change 0 with (inject_Z 0). rewrite <- Zle_Qle.
  exact Hfl.
Qed.

Lemma amountOut_floor n ratio :
  (0 <= n)%Z -> ratio <= 1 ->
  amountOutNumOf (inject_Z n) ratio = Qfloor (inject_Z n * (1 - ratio)).
Proof.
  intros Hn Hr. unfold amountOutNumOf. apply Z.max_r.
  change 0%Z with (Qfloor 0). apply Qfloor_resp_le.
  assert (0 <= inject_Z n) by (change 0 with (inject_Z 0);
                                rewrite <- Zle_Qle; exact Hn).
  nra.
Qed.

Lemma amountOut_le n ratio :
  (0 <= n)%Z -> 0 <= ratio -> (amountOutNumOf (inject_Z n) ratio <= n)%Z.
Proof.
  intros Hn Hr. unfold amountOutNumOf. apply Z.max_lub; [exact Hn|].
  rewrite <- (Qfloor_Z n) at 2. apply Qfloor_resp_le.
  assert (0 <= inject_Z n) by (change 0 with (inject_Z 0);
                                rewrite <- Zle_Qle; exact Hn).
  nra.
Qed.

Lemma amountOut_positive n ratio :
  (3 <= n)%Z -> ratio <= 501 # 1000 ->
  (0 < amountOutNumOf (inject_Z n) ratio)%Z.
Proof.
  intros Hn Hr. unfold amountOutNumOf.
  apply Z.lt_le_trans with (Qfloor (inject_Z n * (1 - ratio)));
    [|apply Z.le_max_r].
  apply Z.lt_le_trans with (Qfloor 1); [reflexivity|].
  apply Qfloor_resp_le.
  assert (Hn3 : inject_Z 3 <= inject_Z n) by (rewrite <- Zle_Qle; exact Hn).
  change (inject_Z 3) with 3 in Hn3. nra.
Qed.

Lemma inject_Z_pos n : (0 < n)%Z -> 0 < inject_Z n.
Proof. intros Hn. change 0 with (inject_Z 0). rewrite <- Zlt_Qlt. exact Hn. Qed.

Lemma notional_positive n d priceUsd :
  0 < priceUsd -> 0 < inject_Z n / pow10 d * priceUsd -> (0 < n)%Z.
Proof.
  intros Hp Husd. pose proof (pow10_pos d) as Hd.
  destruct (Z.lt_ge_cases 0 n) as [Hn|Hn]; [exact Hn|].
  exfalso.
  assert (Hq : inject_Z n <= 0).
  { change 0 with (inject_Z 0). rewrite <- Zle_Qle. exact Hn. }
  assert (Hdiv : inject_Z n / pow10 d <= 0).
  { apply Qle_shift_div_r; [exact Hd | lra]. }
  nra.
Qed.

Lemma usd_positive n d priceUsd :
  (0 < n)%Z -> 0 < priceUsd -> 0 < inject_Z n / pow10 d * priceUsd.
Proof.
  intros Hn Hp. pose proof (pow10_pos d) as Hd.
  pose proof (inject_Z_pos n Hn) as Hq.
  assert (Hdiv : 0 < inject_Z n / pow10 d).
  { apply Qlt_shift_div_l; [exact Hd | lra]. }
  nra.
Qed.

(** C4 as the code has it.  For a quote whose notional has a positive USD
    value: the gas fee is the quoted (or default) flat fee capped at 50% of
    that value; the fee is [baseFeePercent * notionalUsd] plus the capped
    gas fee, hence at most 50.1% of the value; [feeRatio] is
    [min(fee / notionalUsd, 0.99)]; [amountOut] is
    [floor(amountIn * (1 - feeRatio))], which is never negative and is
    strictly positive when [amountIn] is at least 3 units. *)
Theorem quote_fee_and_output src dst n priceUsd feeUsd t :
  let usd := inject_Z n / pow10 (decimals src) * priceUsd in
  let gas := cappedGasFee usd (quotedGasFee feeUsd) in
  let fee := totalFeeUsdOf usd gas in
  let ratio := feeRatioOf usd fee in
  let r := quoteRate src dst n priceUsd feeUsd t in
  0 < priceUsd -> 0 < usd ->
  gas = Qmin (quotedGasFee feeUsd) (usd * (1 # 2)) /\
  fee = usd * baseFeePercent + gas /\
  fee <= usd * (501 # 1000) /\
  totalFeesUsd r = toFixed6 fee /\
  ratio = Qmin (fee / usd) (99 # 100) /\
  amountOut r = Qfloor (inject_Z n * (1 - ratio)) /\
  (0 <= amountOut r)%Z /\
  ((3 <= n)%Z -> (0 < amountOut r)%Z).
Proof.
  intros usd gas fee ratio r Hprice Husd.
  pose proof (notional_positive n _ priceUsd Hprice Husd) as Hn.
  destruct (cappedGasFee_bounds usd (quotedGasFee feeUsd) Husd)
    as (Hhalf & _ & _).
  destruct (feeRatio_bounds usd (quotedGasFee feeUsd) Husd)
    as (_ & Hratio & _).
  fold gas in Hhalf. fold gas fee ratio in Hratio.
  assert (Hout : amountOut r = Qfloor (inject_Z n * (1 - ratio))).
  { subst r. cbn [quoteRate amountOut]. fold usd gas fee ratio.
    apply amountOut_floor; [lia | lra]. }
  split; [apply cappedGasFee_min; exact Husd|].
  split; [reflexivity|].
  split; [subst fee; unfold totalFeeUsdOf, baseFeePercent; lra|].
  split; [reflexivity|].
  split.
  { subst ratio. unfold feeRatioOf.
    assert (Hb : Qgtb usd 0 = true) by (apply Qgtb_true; exact Husd).
    rewrite Hb. reflexivity. }
  split; [exact Hout|].
  split.
  - subst r. cbn [quoteRate amountOut]. unfold amountOutNumOf.
    apply Z.le_max_l.
  - intros H3. subst r. cbn [quoteRate amountOut]. fold usd gas fee ratio.
    apply amountOut_positive; assumption.
Qed.

Lemma quoteRate_effectiveRate src dst n priceUsd feeUsd t :
  (0 < n)%Z ->
  let r := quoteRate src dst n priceUsd feeUsd t in
  effectiveRate r ==
  inject_Z (amountOut r) / inject_Z n
  * pow10 (decimals src - decimals dst).
Proof.
  intros Hn r. subst r. cbn [quoteRate effectiveRate amountOut].
  pose proof (pow10_pos (decimals src)) as Hs.
  pose proof (pow10_pos (decimals dst)) as Hd.
  pose proof (inject_Z_pos n Hn) as Hq.
  unfold pow10 in *. rewrite Qpower_minus by discriminate.
  field. repeat split; lra.
Qed.

Lemma quoteRate_invariant src dst n priceUsd feeUsd t :
  (0 < n)%Z -> 0 < priceUsd -> feeNonNegative feeUsd ->
  rateInvariant (quoteRate src dst n priceUsd feeUsd t).
Proof.
  intros Hn Hprice Hfee.
  pose proof (usd_positive n (decimals src) priceUsd Hn Hprice) as Husd.
  pose proof (quotedGasFee_nonneg feeUsd Hfee) as Hgas.
  set (usd := inject_Z n / pow10 (decimals src) * priceUsd) in *.
  destruct (cappedGasFee_bounds usd (quotedGasFee feeUsd) Husd)
    as (_ & _ & Hcap).
  destruct (feeRatio_bounds usd (quotedGasFee feeUsd) Husd)
    as (_ & _ & Hratio).
  specialize (Hcap Hgas). specialize (Hratio Hgas).
  set (ratio := feeRatioOf usd _) in Hratio.
  assert (Hle : (amountOutNumOf (inject_Z n) ratio <= n)%Z)
    by (apply amountOut_le; [lia | exact Hratio]).
  assert (H0 : (0 <= amountOutNumOf (inject_Z n) ratio)%Z)
    by (unfold amountOutNumOf; apply Z.le_max_l).
  pose proof (pow10_pos (decimals src)) as Hs.
  pose proof (pow10_pos (decimals dst)) as Hd.
  pose proof (inject_Z_pos n Hn) as Hq.
  assert (Hin : 0 < inject_Z n / pow10 (decimals src))
    by (apply Qlt_shift_div_l; [exact Hs | lra]).
  assert (Hout0 : 0 <= inject_Z (amountOutNumOf (inject_Z n) ratio)).
  { change 0 with (inject_Z 0). rewrite <- Zle_Qle. exact H0. }
  assert (Houtn : inject_Z (amountOutNumOf (inject_Z n) ratio)
                  <= inject_Z n) by (rewrite <- Zle_Qle; exact Hle).
  unfold rateInvariant.
  cbn [quoteRate effectiveRate amountOut amountIn totalFeesUsd
       rate_source rate_destination].
  fold usd. fold ratio.
  split; [|split; [|split; [|split]]].
  - apply Qle_shift_div_l; [exact Hin|]. rewrite Qmult_0_l.
    apply Qle_shift_div_l; [exact Hd | lra].
  - right. exact (quoteRate_effectiveRate src dst n priceUsd feeUsd t Hn).
  - intros Heq.
    assert (Hdec : (decimals src <= decimals dst)%Z) by lia.
    pose proof (pow10_mono _ _ Hdec) as Hmono.
    assert (HX : inject_Z n / pow10 (decimals src) * pow10 (decimals src)
                 == inject_Z n) by (field; lra).
    apply Qle_shift_div_r; [exact Hin|]. rewrite Qmult_1_l.
    apply Qle_shift_div_r; [exact Hd|].
    set (X := inject_Z n / pow10 (decimals src)) in *. nra.
  - split; [exact H0 | exact Hle].
  - apply toFixed6_nonneg. unfold totalFeeUsdOf, baseFeePercent. lra.
Qed.

Lemma createFallbackRate_invariant src dst n t :
  (0 <= n)%Z -> rateInvariant (createFallbackRate src dst n t).
Proof.
  intros Hn. unfold rateInvariant.
  cbn [createFallbackRate effectiveRate amountOut amountIn totalFeesUsd
       rate_source rate_destination].
  assert (Hq : 0 <= inject_Z n).
  { change 0 with (inject_Z 0). rewrite <- Zle_Qle. exact Hn. }
  pose proof (pow10_pos (decimals src)) as Hs.
  split; [lra|]. split; [left; reflexivity|]. split; [intros _; lra|].
  split.
  - split.
    + rewrite <- (Qfloor_Z 0). apply Qfloor_resp_le.
      change (inject_Z 0) with 0%Q. lra.
    + rewrite <- (Qfloor_Z n) at 2. apply Qfloor_resp_le. lra.
  - assert (0 <= inject_Z n / pow10 (decimals src)).
    { apply Qle_shift_div_l; [exact Hs | lra]. }
    lra.
Qed.
End FeeArithmetic.

(** ** DataProviderService *)

Section ServiceProperties.
Context {World : Type} `{Platform World}.

(** *** Rules of the program logic

    Every rule and every lemma below holds from any state that satisfies
    the invariant, so what is proved of a sub-pipeline does not depend on
    what ran before it. *)

Section Rules.
Variable I : St World -> Prop.

Lemma hoare_ret {A} (a : A) (Q : A -> Prop) E :
  Q a -> hoare I (ret a) Q E.
Proof. intros Hq s Hs. cbn. split; assumption. Qed.

Lemma hoare_throw {A} e (Q : A -> Prop) (E : JsError -> Prop) :
  E e -> hoare I (throw e) Q E.
Proof. intros He s Hs. cbn. split; assumption. Qed.

Lemma hoare_bind {A B} (m : M World A) (k : A -> M World B) Q1 Q2 E :
  hoare I m Q1 E ->
  (forall a, Q1 a -> hoare I (k a) Q2 E) ->
  hoare I (bind m k) Q2 E.
Proof.
  intros Hm Hk s Hs. unfold bind. specialize (Hm s Hs).
  destruct (m s) as [[e|a] s1].
  - exact Hm.
  - destruct Hm as [Hq Hs1]. exact (Hk a Hq s1 Hs1).
Qed.

Lemma hoare_try_catch {A} (m : M World A) handler Q E1 E2 :
  hoare I m Q E1 ->
  (forall e, E1 e -> hoare I (handler e) Q E2) ->
  hoare I (try_catch m handler) Q E2.
Proof.
  intros Hm Hh s Hs. unfold try_catch. specialize (Hm s Hs).
  destruct (m s) as [[e|a] s1].
  - destruct Hm as [He Hs1]. exact (Hh e He s1 Hs1).
  - exact Hm.
Qed.

Lemma hoare_weaken {A} (m : M World A) (Q Q' : A -> Prop) (E E' : _ -> Prop) :
  hoare I m Q E ->
  (forall a, Q a -> Q' a) -> (forall e, E e -> E' e) ->
  hoare I m Q' E'.
Proof.
  intros Hm Hq He s Hs. specialize (Hm s Hs).
  destruct (m s) as [[e|a] s1]; destruct Hm; split; auto.
Qed.

Lemma hoare_gets {A} (f : St World -> A) (Q : A -> Prop) E :
  (forall s, I s -> Q (f s)) -> hoare I (gets f) Q E.
Proof. intros Hq s Hs. cbn. split; auto. Qed.

Lemma hoare_gets_any {A} (f : St World -> A) E :
  hoare I (gets f) any E.
Proof. apply hoare_gets. intros; exact Logic.I. Qed.

Lemma hoare_modify (f : St World -> St World) E :
  (forall s, I s -> I (f s)) -> hoare I (modify f) any E.
Proof. intros Hf s Hs. cbn. split; [exact Logic.I | auto]. Qed.

Lemma hoare_mapM {A B} (f : A -> M World B) (R : A -> B -> Prop) E l :
  (forall a, In a l -> hoare I (f a) (R a) E) ->
  hoare I (mapM f l) (Forall2 R l) E.
Proof.
  induction l as [|a rest IH]; intros Hf.
  - apply hoare_ret. constructor.
  - cbn [mapM].
    apply hoare_bind with (Q1 := R a); [apply Hf; left; reflexivity|].
    intros b Hb.
    apply hoare_bind with (Q1 := Forall2 R rest).
    + apply IH. intros a' Hin. apply Hf. right. exact Hin.
    + intros bs Hbs. apply hoare_ret. constructor; assumption.
Qed.

(** An operation that does not throw is not retried. *)
Lemma hoare_retry {A} (operation : M World A) Q E :
  hoare I operation Q never ->
  hoare I (retryOperation operation) Q E.
Proof.
  intros Hop s Hs.
  change (retryOperation operation s)
    with (retryFrom 3 0 None operation s).
  cbn [retryFrom].
  specialize (Hop s Hs). destruct (operation s) as [[e|a] s1].
  - destruct Hop as [[] _].
  - exact Hop.
Qed.
End Rules.

(** *** The operations that leave the caches alone *)

Section Frame.
Variable I : St World -> Prop.
Hypothesis I_frame : forall s s',
  priceCache s' = priceCache s -> assetCache s' = assetCache s ->
  I s -> I s'.

Lemma hoare_dateNow E : hoare I dateNow any E.
Proof. apply hoare_gets. intros; exact Logic.I. Qed.

Lemma hoare_record (f : St World -> St World) E :
  (forall s, priceCache (f s) = priceCache s /\
             assetCache (f s) = assetCache s) ->
  hoare I (modify f) any E.
Proof.
  intros Hf. apply hoare_modify. intros s Hs.
  destruct (Hf s). eapply I_frame; eassumption.
Qed.

Lemma hoare_json response :
  hoare I (json response) (fun data => body response = Some data) any.
Proof.
  unfold json. destruct (body response) as [data|].
  - apply hoare_ret. reflexivity.
  - apply hoare_throw. exact Logic.I.
Qed.

Lemma hoare_fetchWithTimeout ep key :
  hoare I (fetchWithTimeout ep key) fetched any.
Proof.
  intros s Hs. unfold fetchWithTimeout.
  destruct (fetch _ (world s)) as [res w'] eqn:Hfetch.
  destruct res as [response| |].
  - destruct (status response =? 429);
      [|destruct (negb (ok response) && (400 <=? status response))].
    + split; [exact Logic.I|]. eapply I_frame; [| |exact Hs]; reflexivity.
    + split; [exact Logic.I|]. eapply I_frame; [| |exact Hs]; reflexivity.
    + split; [eexists _, _, _; exact Hfetch|].
      eapply I_frame; [| |exact Hs]; reflexivity.
  - split; [exact Logic.I|]. eapply I_frame; [| |exact Hs]; reflexivity.
  - split; [exact Logic.I|]. eapply I_frame; [| |exact Hs]; reflexivity.
Qed.

Lemma hoare_priceCircuitExecute {T} (fn : M World T) Q :
  hoare I fn Q any -> hoare I (priceCircuitExecute fn) Q any.
Proof.
  intros Hfn s Hs. unfold priceCircuitExecute, CircuitBreaker.execute.
  destruct (CircuitBreaker.gate _ _ _) as [cb1|].
  - specialize (Hfn s Hs). destruct (fn s) as [[e|a] s1];
      destruct Hfn as [Hq Hs1]; (split; [exact Hq|]);
      eapply I_frame; [| |exact Hs1| | |exact Hs1]; reflexivity.
  - split; [exact Logic.I|]. eapply I_frame; [| |exact Hs]; reflexivity.
Qed.
End Frame.

(** *** The pipelines, for an invariant of the caches *)

Section Pipelines.
Variable I : St World -> Prop.
Variable goodPrice : Q -> Prop.
Variable goodFee : option Q -> Prop.
Hypothesis I_frame : forall s s',
  priceCache s' = priceCache s -> assetCache s' = assetCache s ->
  I s -> I s'.
Hypothesis I_price_get : forall s t k,
  I s ->
  I (setPriceCache (snd (TTLCache.get t k (priceCache s))) s) /\
  forall v, fst (TTLCache.get t k (priceCache s)) = Some v -> goodPrice v.
Hypothesis I_price_set : forall s t k v,
  goodPrice v -> I s ->
  I (setPriceCache (TTLCache.set t k v (priceCache s)) s).
Hypothesis I_asset : forall s c, I s -> I (setAssetCache c s).
Hypothesis good_one : goodPrice 1%Q.
Hypothesis good_positive : forall v, (0 < v)%Q -> goodPrice v.
Hypothesis good_none : goodFee None.
Hypothesis good_fetched : forall response data,
  fetched response -> body response = Some data ->
  goodFee (fee_usd data).

Ltac step lem x Hx := eapply hoare_bind; [lem | cbv beta; intros x Hx].
Ltac frame_modify :=
  apply (hoare_record I I_frame); intros ?; split; reflexivity.

Lemma hoare_priceCacheGet key E :
  hoare I (priceCacheGet key)
        (fun o => forall v, o = Some v -> goodPrice v) E.
Proof.
  intros s Hs. unfold priceCacheGet.
  destruct (I_price_get s (now (world s)) key Hs) as [Hi Hv].
  destruct (TTLCache.get _ key (priceCache s)) as [o c].
  cbn in *. split; [|exact Hi]. intros v ->. apply Hv. reflexivity.
Qed.

Lemma hoare_priceCacheSet key v E :
  goodPrice v -> hoare I (priceCacheSet key v) any E.
Proof.
  intros Hv. apply hoare_modify. intros s Hs.
  apply I_price_set; assumption.
Qed.

Lemma hoare_lookupPrice chain assetAddress sym :
  hoare I (lookupPrice chain assetAddress sym) goodPrice any.
Proof.
  unfold lookupPrice.
  step ltac:(apply (hoare_dateNow I)) startTime Hstart.
  step ltac:(apply (hoare_fetchWithTimeout I I_frame)) res Hres.
  step ltac:(frame_modify) u Hu.
  destruct (ok res); [|apply hoare_throw; exact Logic.I].
  step ltac:(apply (hoare_json I)) data Hdata.
  destruct (Qgtb _ 0) eqn:Hprice; [|apply hoare_throw; exact Logic.I].
  apply hoare_ret. apply good_positive. apply Qgtb_true. exact Hprice.
Qed.

Lemma hoare_getUsdPrice chain assetAddress sym E :
  hoare I (getUsdPrice chain assetAddress sym) goodPrice E.
Proof.
  unfold getUsdPrice.
  step ltac:(apply hoare_priceCacheGet) cached Hcached.
  destruct cached as [price|].
  - step ltac:(frame_modify) u Hu.
    apply hoare_ret. apply Hcached. reflexivity.
  - step ltac:(frame_modify) u Hu.
    destruct (isStablecoin _).
    + step ltac:(apply hoare_priceCacheSet; exact good_one) u1 Hu1.
      apply hoare_ret. exact good_one.
    + unfold deduplicate. eapply hoare_try_catch.
      * step ltac:(apply hoare_priceCircuitExecute;
                   [exact I_frame | apply hoare_lookupPrice]) price Hprice.
        step ltac:(apply hoare_priceCacheSet; exact Hprice) u1 Hu1.
        apply hoare_ret. exact Hprice.
      * intros e _.
        step ltac:(apply hoare_priceCacheSet; exact good_one) u1 Hu1.
        apply hoare_ret. exact good_one.
Qed.

Lemma hoare_getAxelarQuote src dst n E :
  hoare I (getAxelarQuote src dst n) (quoted goodPrice goodFee src dst n) E.
Proof.
  unfold getAxelarQuote. eapply hoare_try_catch.
  - step ltac:(apply hoare_gets_any) key Hkey.
    step ltac:(apply (hoare_fetchWithTimeout I I_frame)) response Hres.
    eapply hoare_bind with
      (Q1 := fun feeData =>
               goodFee (match feeData with
                        | Some data => fee_usd data
                        | None => None
                        end)).
    { destruct (ok response).
      - step ltac:(apply (hoare_json I)) data Hdata.
        apply hoare_ret. eapply good_fetched; eassumption.
      - apply hoare_ret. exact good_none. }
    intros feeData Hfee.
    step ltac:(apply hoare_getUsdPrice) priceUsd Hprice.
    step ltac:(apply (hoare_dateNow I)) t Ht.
    apply hoare_ret. left. eexists _, _, _. repeat split; eassumption.
  - intros e _.
    step ltac:(apply (hoare_dateNow I)) t Ht.
    apply hoare_ret. right. eexists. reflexivity.
Qed.

Lemma hoare_getRates routes_ notionals_ E :
  hoare I (getRates routes_ notionals_)
        (Forall2 (quotedFor goodPrice goodFee)
                 (combinations routes_ notionals_)) E.
Proof.
  unfold getRates. apply hoare_mapM. intros [route notional] _.
  unfold rateOf. eapply hoare_try_catch.
  - apply hoare_getAxelarQuote with (E := never).
  - intros e [].
Qed.

Lemma hoare_fetchTransferPages remaining :
  forall fromTime toTime cursor acc,
  hoare I (fetchTransferPages remaining fromTime toTime cursor acc)
        any any.
Proof.
  induction remaining as [|remaining IH]; intros; cbn [fetchTransferPages].
  - apply hoare_ret. exact Logic.I.
  - step ltac:(apply hoare_gets_any) key Hkey.
    step ltac:(apply (hoare_fetchWithTimeout I I_frame)) response Hres.
    destruct (negb (ok response)); [apply hoare_throw; exact Logic.I|].
    step ltac:(apply (hoare_json I)) data Hdata.
    destruct (next_cursor data); [apply IH|].
    apply hoare_ret. exact Logic.I.
Qed.

Lemma hoare_volumeOf w E :
  hoare I (volumeOf w) (fun v => window v = w) E.
Proof.
  unfold volumeOf. eapply hoare_try_catch.
  - step ltac:(apply (hoare_dateNow I)) t Ht.
    step ltac:(apply hoare_fetchTransferPages) vol Hvol.
    step ltac:(apply (hoare_dateNow I)) t1 Ht1.
    apply hoare_ret. reflexivity.
  - intros e _.
    step ltac:(apply (hoare_dateNow I)) t Ht.
    apply hoare_ret. reflexivity.
Qed.

Lemma hoare_getVolumes windows E :
  hoare I (getVolumes windows)
        (Forall2 (fun w v => window v = w) windows) E.
Proof.
  unfold getVolumes. apply hoare_mapM. intros w _. apply hoare_volumeOf.
Qed.

Lemma hoare_probeLadder route baselineRate testAmounts E :
  forall max50 max100,
  hoare I (probeLadder route baselineRate testAmounts max50 max100)
        any E.
Proof.
  induction testAmounts as [|amount rest IH]; intros; cbn [probeLadder].
  - apply hoare_ret. exact Logic.I.
  - eapply hoare_bind with (Q1 := any).
    + eapply hoare_try_catch.
      * step ltac:(apply hoare_getAxelarQuote with (E := never)) q Hq.
        apply hoare_ret. exact Logic.I.
      * intros e [].
    + intros [quote|] _; [apply IH | apply hoare_ret; exact Logic.I].
Qed.

Lemma hoare_getLiquidityDepth routes_ E :
  hoare I (getLiquidityDepth routes_) (Forall2 liquidityFor routes_) E.
Proof.
  unfold getLiquidityDepth. apply hoare_mapM. intros route _.
  unfold liquidityOf. eapply hoare_try_catch.
  - step ltac:(apply hoare_getAxelarQuote with (E := never)) base Hbase.
    step ltac:(apply hoare_probeLadder) maxima Hmaxima.
    step ltac:(apply (hoare_dateNow I)) t Ht.
    apply hoare_ret. split; reflexivity.
  - intros e [].
Qed.

Lemma hoare_getListedAssets E : hoare I getListedAssets any E.
Proof.
  unfold getListedAssets.
  eapply hoare_bind with (Q1 := any).
  { intros s Hs. unfold assetCacheGet.
    destruct (TTLCache.get _ _ (assetCache s)) as [o c].
    split; [exact Logic.I | apply I_asset; exact Hs]. }
  intros [listed|] _; [apply hoare_ret; exact Logic.I|].
  eapply hoare_try_catch.
  - step ltac:(apply hoare_gets_any) key Hkey.
    step ltac:(apply (hoare_fetchWithTimeout I I_frame)) chainsRes Hc.
    destruct (negb (ok chainsRes)); [apply hoare_throw; exact Logic.I|].
    step ltac:(apply (hoare_json I)) chainsData Hcd.
    step ltac:(apply (hoare_fetchWithTimeout I I_frame)) assetsRes Ha.
    destruct (negb (ok assetsRes)); [apply hoare_throw; exact Logic.I|].
    step ltac:(apply (hoare_json I)) assetsData Had.
    step ltac:(apply (hoare_dateNow I)) t Ht.
    eapply hoare_bind with (Q1 := any).
    { apply hoare_modify. intros s Hs. apply I_asset. exact Hs. }
    intros u _. apply hoare_ret. exact Logic.I.
  - intros e _.
    step ltac:(apply (hoare_dateNow I)) t Ht.
    apply hoare_ret. exact Logic.I.
Qed.

Lemma hoare_getSnapshot params :
  hoare I (getSnapshot params) (shaped goodPrice goodFee params) never.
Proof.
  unfold getSnapshot.
  eapply hoare_try_catch with (E1 := never); [|intros e []].
  eapply hoare_try_catch with (E1 := never); [|intros e []].
  unfold getVolumesWithRetry, getRatesWithRetry,
    getLiquidityDepthWithRetry, getListedAssetsWithRetry.
  step ltac:(apply hoare_retry; apply hoare_getVolumes) vs Hvs.
  step ltac:(apply hoare_retry; apply hoare_getRates) rs Hrs.
  step ltac:(apply hoare_retry; apply hoare_getLiquidityDepth) ls Hls.
  step ltac:(apply hoare_retry; apply hoare_getListedAssets) la Hla.
  apply hoare_ret. repeat split; assumption.
Qed.
End Pipelines.

Lemma hoare_returns {A} I (m : M World A) Q s :
  hoare I m Q never -> I s ->
  exists a s', m s = (inr a, s') /\ Q a /\ I s'.
Proof.
  intros Hm Hs. specialize (Hm s Hs). destruct (m s) as [[e|a] s'].
  - destruct Hm as [[] _].
  - destruct Hm. eexists _, _. repeat split; assumption.
Qed.

(** C10. When [includeWindows] is omitted, [getSnapshot] returns a snapshot
    whose [volumes] has exactly one entry, for the 24h window. *)
Theorem snapshot_default_window routes_ notionals_ (s : St World) :
  exists snap s',
    getSnapshot (mkParams routes_ notionals_ None) s = (inr snap, s') /\
    exists v, volumes snap = [v] /\ window v = W24h.
Proof.
  destruct (hoare_returns (fun _ => True)
              (getSnapshot (mkParams routes_ notionals_ None))
              (shaped (fun _ => True) (fun _ => True)
                      (mkParams routes_ notionals_ None)) s)
    as (snap & s' & Hrun & (Hvol & _) & _).
  - apply hoare_getSnapshot; auto.
  - exact Logic.I.
  - exists snap, s'. split; [exact Hrun|].
    cbn in Hvol. inversion Hvol as [|w v ws vs Hw Hrest]; subst.
    inversion Hrest; subst. exists v. split; [congruence | assumption].
Qed.

(** *** Rates *)

Lemma pricesPositive_get (s : St World) t k :
  pricesPositive s ->
  pricesPositive (setPriceCache (snd (TTLCache.get t k (priceCache s))) s)
  /\ forall v, fst (TTLCache.get t k (priceCache s)) = Some v -> (0 < v)%Q.
Proof.
  intros Hs. unfold TTLCache.get.
  destruct (TTLCache.store (priceCache s) !! k) as [hit|] eqn:Hk.
  - destruct (TTLCache.expiresAt hit <? t).
    + split; [|discriminate]. intros k' e. cbn.
      destruct (decide (k' = k)) as [->|Hne].
      * rewrite lookup_delete_eq. discriminate.
      * rewrite lookup_delete_ne by congruence. apply Hs.
    + split.
      * intros k' e. cbn. destruct (decide (k' = k)) as [->|Hne].
        -- rewrite lookup_insert_eq. intros [= <-]. cbn.
           apply (Hs k hit Hk).
        -- rewrite lookup_insert_ne by congruence. apply Hs.
      * cbn. intros v [= <-]. apply (Hs k hit Hk).
  - split; [|discriminate]. intros k' e. cbn. apply Hs.
Qed.

Lemma pricesPositive_set (s : St World) t k v :
  (0 < v)%Q -> pricesPositive s ->
  pricesPositive (setPriceCache (TTLCache.set t k v (priceCache s)) s).
Proof.
  intros Hv Hs k' e. cbn. destruct (decide (k' = k)) as [->|Hne].
  - rewrite lookup_insert_eq. intros [= <-]. exact Hv.
  - rewrite lookup_insert_ne by congruence. apply Hs.
Qed.

Lemma Forall2_Forall_right {A B} (R : A -> B -> Prop) (P : B -> Prop) l k :
  Forall2 R l k -> (forall x y, In x l -> R x y -> P y) -> Forall P k.
Proof.
  induction 1 as [|x y l k Hxy Hrest IH]; intros Himp; constructor.
  - apply (Himp x y); [left; reflexivity | exact Hxy].
  - apply IH. intros x' y' Hin. apply Himp. right. exact Hin.
Qed.

Lemma combinations_notional routes_ notionals_ route n :
  In (route, n) (combinations routes_ notionals_) -> In n notionals_.
Proof.
  unfold combinations. rewrite in_flat_map. intros (r & _ & Hin).
  apply in_map_iff in Hin. destruct Hin as (n' & [= _ <-] & Hn). exact Hn.
Qed.

(** C3.  The rates of a snapshot, as the code computes them.  When the
    cached prices are positive, the upstream fee figures are non-negative
    and the notionals are positive, [getSnapshot] returns, and every Rate
    of the snapshot (quoted or fallback) has [0 <= amountOut <= amountIn],
    [0 <= totalFeesUsd] and [0 <= effectiveRate].  Its [effectiveRate] is
    0.999 (a fallback) or the ratio of [amountOut] to [amountIn] multiplied
    by ten to the source decimals minus the destination decimals (a
    quote): it is at most 1 where the two assets have the same decimals,
    and it is not bounded by 1 where the source has more decimals than the
    destination.  The cached prices are positive again afterwards. *)
Theorem snapshot_rate_invariants params (s : St World) :
  pricesPositive s -> feesNonNegative ->
  Forall (fun n => 0 < n) (notionals params) ->
  exists snap s',
    getSnapshot params s = (inr snap, s') /\
    Forall rateInvariant (rates snap) /\
    pricesPositive s'.
Proof.
  intros Hs Hfees Hnotionals.
  destruct (hoare_returns pricesPositive (getSnapshot params)
              (shaped (fun v => (0 < v)%Q) feeNonNegative params) s)
    as (snap & s' & Hrun & (_ & Hrates & _) & Hs').
  - apply hoare_getSnapshot.
    + intros s0 s1 Hp _ H0 k e. rewrite Hp. apply H0.
    + apply pricesPositive_get.
    + apply pricesPositive_set.
    + intros s0 c H0. exact H0.
    + reflexivity.
    + auto.
    + intros q [=].
    + intros response data (req & w & w' & Hfetch) Hbody.
      exact (Hfees req w response w' data Hfetch Hbody).
  - exact Hs.
  - exists snap, s'. split; [exact Hrun|]. split; [|exact Hs'].
    eapply Forall2_Forall_right; [exact Hrates|].
    intros [route n] r Hin Hq.
    assert (Hn : 0 < n).
    { apply combinations_notional in Hin.
      rewrite Forall_forall in Hnotionals. apply Hnotionals.
      apply list_elem_of_In. exact Hin. }
    destruct Hq as [(p & fee & t & Hp & Hfee & ->)|(t & ->)].
    + apply quoteRate_invariant; assumption.
    + apply createFallbackRate_invariant. cbn. lia.
Qed.

(** *** The snapshot when the upstream is down *)

Section UpstreamDown.
Hypothesis down : upstreamDown.

Ltac step lem x Hx := eapply hoare_bind; [lem | cbv beta; intros x Hx].

Lemma noAssetsCached_frame (s s' : St World) :
  priceCache s' = priceCache s -> assetCache s' = assetCache s ->
  noAssetsCached s -> noAssetsCached s'.
Proof. intros _ Ha. unfold noAssetsCached. rewrite Ha. auto. Qed.

Lemma fetchWithTimeout_down ep key :
  hoare noAssetsCached (fetchWithTimeout ep key) (fun _ => False) any.
Proof.
  intros s Hs. unfold fetchWithTimeout.
  pose proof (down {| endpoint := ep; xApiKey := key;
                      timeoutMs := timeout s |} (world s)) as Hdown.
  destruct (fetch _ (world s)) as [res w'].
  destruct res as [response| |]; cbn in Hdown.
  - destruct (status response =? 429); [split; [exact Logic.I|exact Hs]|].
    unfold ok.
    assert (Hok : (200 <=? status response) && (status response <=? 299)
                  = false).
    { apply andb_false_iff. right. apply Z.leb_gt. lia. }
    assert (H400 : (400 <=? status response) = true)
      by (apply Z.leb_le; exact Hdown).
    rewrite Hok, H400. cbn. split; [exact Logic.I | exact Hs].
  - split; [exact Logic.I | exact Hs].
  - split; [exact Logic.I | exact Hs].
Qed.

Lemma volumeOf_down w E :
  hoare noAssetsCached (volumeOf w)
        (fun v => window v = w /\ volumeUsd v = getEstimatedVolume w) E.
Proof.
  unfold volumeOf. eapply hoare_try_catch.
  - step ltac:(apply (hoare_dateNow noAssetsCached)) t Ht.
    eapply hoare_bind with (Q1 := fun _ => False); [|intros ? []].
    cbn [fetchTransferPages].
    step ltac:(apply hoare_gets_any) key Hkey.
    eapply hoare_bind; [apply fetchWithTimeout_down | intros ? []].
  - intros e _.
    step ltac:(apply (hoare_dateNow noAssetsCached)) t Ht.
    apply hoare_ret. split; reflexivity.
Qed.

Lemma getAxelarQuote_down src dst n E :
  hoare noAssetsCached (getAxelarQuote src dst n)
        (fun r => exists t, r = createFallbackRate src dst n t) E.
Proof.
  unfold getAxelarQuote. eapply hoare_try_catch.
  - step ltac:(apply hoare_gets_any) key Hkey.
    eapply hoare_bind; [apply fetchWithTimeout_down | intros ? []].
  - intros e _.
    step ltac:(apply (hoare_dateNow noAssetsCached)) t Ht.
    apply hoare_ret. eexists. reflexivity.
Qed.

Lemma last_default {A} (b d d' : A) l :
  List.last (b :: l) d = List.last (b :: l) d'.
Proof.
  revert b. induction l as [|c l IH]; intros b; [reflexivity|].
  change (List.last (c :: l) d = List.last (c :: l) d'). apply IH.
Qed.

Lemma last_cons {A} (a d : A) l : List.last (a :: l) d = List.last l a.
Proof.
  destruct l as [|b l]; [reflexivity|].
  change (List.last (b :: l) d = List.last (b :: l) a).
  apply last_default.
Qed.

Lemma probeLadder_down route testAmounts E : forall max50 max100,
  hoare noAssetsCached
        (probeLadder route (999 # 1000) testAmounts max50 max100)
        (fun maxima => maxima = (List.last testAmounts max50,
                                 List.last testAmounts max100)) E.
Proof.
  induction testAmounts as [|amount rest IH]; intros; cbn [probeLadder].
  - apply hoare_ret. reflexivity.
  - eapply hoare_bind with
      (Q1 := fun probe => exists quote,
               probe = Some quote /\ effectiveRate quote = (999 # 1000)%Q).
    + eapply hoare_try_catch with (E1 := never); [|intros e []].
      step ltac:(apply getAxelarQuote_down) quote Hquote.
      apply hoare_ret. destruct Hquote as [t ->]. eexists.
      split; reflexivity.
    + intros probe (quote & -> & ->).
      change (slippageWithin 50 (999 # 1000) (999 # 1000)) with true.
      change (slippageWithin 100 (999 # 1000) (999 # 1000)) with true.
      cbv iota. rewrite !last_cons. apply IH.
Qed.

Lemma liquidityOf_down route E :
  hoare noAssetsCached (liquidityOf route)
        (fun l => ld_route l = route /\ thresholds l = ladderTop route) E.
Proof.
  unfold liquidityOf. eapply hoare_try_catch with (E1 := never);
    [|intros e []].
  step ltac:(apply getAxelarQuote_down) base Hbase.
  destruct Hbase as [t0 ->]. cbn [createFallbackRate effectiveRate].
  step ltac:(apply probeLadder_down) maxima Hmaxima.
  step ltac:(apply (hoare_dateNow noAssetsCached)) t Ht.
  apply hoare_ret. subst maxima. split; reflexivity.
Qed.

Lemma getListedAssets_down E :
  hoare noAssetsCached getListedAssets
        (fun listed => assets listed = getFallbackAssets) E.
Proof.
  unfold getListedAssets.
  eapply hoare_bind with (Q1 := fun cached => cached = None).
  { intros s Hs. unfold assetCacheGet, TTLCache.get.
    unfold noAssetsCached in Hs. rewrite Hs. cbn.
    split; [reflexivity | exact Hs]. }
  intros cached ->.
  eapply hoare_try_catch.
  - step ltac:(apply hoare_gets_any) key Hkey.
    eapply hoare_bind; [apply fetchWithTimeout_down | intros ? []].
  - intros e _.
    step ltac:(apply (hoare_dateNow noAssetsCached)) t Ht.
    apply hoare_ret. reflexivity.
Qed.

Lemma getSnapshot_down params :
  hoare noAssetsCached (getSnapshot params) (degraded params) never.
Proof.
  unfold getSnapshot.
  eapply hoare_try_catch with (E1 := never); [|intros e []].
  eapply hoare_try_catch with (E1 := never); [|intros e []].
  unfold getVolumesWithRetry, getRatesWithRetry,
    getLiquidityDepthWithRetry, getListedAssetsWithRetry.
  step ltac:(apply hoare_retry; apply hoare_mapM; intros w _;
             apply volumeOf_down) vs Hvs.
  eapply hoare_bind with
    (Q1 := Forall2 fallbackFor
             (combinations (routes params) (notionals params))).
  { apply hoare_retry. unfold getRates. apply hoare_mapM.
    intros [route n] _. unfold rateOf.
    eapply hoare_try_catch with (E1 := never); [|intros e []].
    apply getAxelarQuote_down. }
  intros rs Hrs.
  step ltac:(apply hoare_retry; apply hoare_mapM; intros route _;
             apply liquidityOf_down) ls Hls.
  step ltac:(apply hoare_retry; apply getListedAssets_down) la Hla.
  apply hoare_ret. repeat split; assumption.
Qed.
End UpstreamDown.

(** C1, at the code.  When every upstream call fails and no asset
    list is cached, [getSnapshot] returns (it raises nothing): one volume
    entry per requested window with the heuristic estimate, one fallback
    rate per route and notional, the fallback asset list, and one liquidity
    entry per route.  The liquidity entry is not the fallback entry of
    [getLiquidityDepth]: [getAxelarQuote] has turned every failure into a
    fallback rate, so the ladder is probed to its top and both thresholds
    are the largest probed amount.  Nothing is cached by the run. *)
Theorem snapshot_when_upstream_down params (s : St World) :
  upstreamDown -> noAssetsCached s ->
  exists snap s',
    getSnapshot params s = (inr snap, s') /\
    Forall2 (fun w v => window v = w /\ volumeUsd v = getEstimatedVolume w)
            (default [W24h] (includeWindows params)) (volumes snap) /\
    Forall2 fallbackFor (combinations (routes params) (notionals params))
            (rates snap) /\
    Forall2 (fun route l => ld_route l = route /\
                            thresholds l = ladderTop route)
            (routes params) (liquidity snap) /\
    assets (listedAssets snap) = getFallbackAssets /\
    assets (listedAssets snap) <> [] /\
    noAssetsCached s'.
Proof.
  intros Hdown Hs.
  destruct (hoare_returns noAssetsCached (getSnapshot params)
              (degraded params) s (getSnapshot_down Hdown params) Hs)
    as (snap & s' & Hrun & (Hv & Hr & Hl & Ha) & Hs').
  exists snap, s'.
  refine (conj Hrun (conj Hv (conj Hr (conj Hl (conj Ha (conj _ Hs')))))).
  rewrite Ha. discriminate.
Qed.

(** *** retryOperation *)

Lemma retryOperation_unfold {A} (operation : M World A) :
  retryOperation operation = retryFrom 3 0 None operation.
Proof. reflexivity. Qed.

Lemma retryFrom_abort {A} (operation : M World A) fuel attempt last s e s1 :
  operation s = (inl e, s1) -> nonRetryable e = true ->
  retryFrom (S fuel) attempt last operation s = (inl e, s1).
Proof. intros Hop He. cbn [retryFrom]. rewrite Hop, He. reflexivity. Qed.

Lemma retryFrom_again {A} (operation : M World A) fuel attempt last s e s1 :
  operation s = (inl e, s1) -> nonRetryable e = false ->
  retryFrom (S fuel) attempt last operation s =
  retryFrom fuel (attempt + 1) (Some e) operation (backoff attempt e s1).
Proof. intros Hop He. cbn [retryFrom]. rewrite Hop, He. reflexivity. Qed.

(** C5 as the code has it.  At any attempt, a failure with an
    [AxelarAPIError] whose [retryable] is false ends [retryOperation] at
    once with that error, in the state the attempt left.  The error of an
    open circuit breaker is a plain [Error]: after it the loop backs off
    and goes on to the next attempt, as for any other error. *)
Theorem retry_non_retryable {A} (operation : M World A) fuel attempt last
    s e s1 :
  operation s = (inl e, s1) ->
  (forall statusCode, e = AxelarAPIError statusCode false ->
     retryFrom (S fuel) attempt last operation s = (inl e, s1) /\
     (attempt = 0 -> retryOperation operation s = (inl e, s1))) /\
  (e = CircuitBreaker.circuitOpenError ->
     retryFrom (S fuel) attempt last operation s =
     retryFrom fuel (attempt + 1) (Some e) operation
               (backoff attempt e s1)).
Proof.
  intros Hop. split.
  - intros statusCode ->. split.
    + apply retryFrom_abort; [exact Hop | reflexivity].
    + intros _. rewrite retryOperation_unfold.
      apply retryFrom_abort; [exact Hop | reflexivity].
  - intros ->. apply retryFrom_again; [exact Hop | reflexivity].
Qed.

(** C8.  When an attempt that is not the last fails with a
    [RateLimitError], the loop sleeps exactly [retryAfterMs] before the next
    attempt; after any other error that is retried it sleeps
    [retryDelayMs * 2^attempt + jitter], with
    [jitter = floor(Math.random() * 250)], which lies in [0, 250).  A
    response with status 429 makes [fetchWithTimeout] throw the
    [RateLimitError] that carries 1000 times the [retry-after] header (1
    second when the header is absent). *)
Theorem retry_delay {A} (operation : M World A) fuel attempt last s e s1 :
  operation s = (inl e, s1) ->
  nonRetryable e = false ->
  attempt < maxRetries - 1 ->
  let r := fst (random (world s1)) in
  let w1 := snd (random (world s1)) in
  let jitter := Qfloor (r * 250) in
  (forall retryAfterMs, e = RateLimitError retryAfterMs ->
     retryFrom (S fuel) attempt last operation s =
     retryFrom fuel (attempt + 1) (Some e) operation
               (setWorld (sleep retryAfterMs w1) s1)) /\
  ((forall retryAfterMs, e <> RateLimitError retryAfterMs) ->
     retryFrom (S fuel) attempt last operation s =
     retryFrom fuel (attempt + 1) (Some e) operation
               (setWorld (sleep (retryDelayMs * 2 ^ attempt + jitter) w1)
                         s1)) /\
  ((0 <= r)%Q /\ (r < 1)%Q -> 0 <= jitter < 250) /\
  (forall ep key s0 response w',
     fetch {| endpoint := ep; xApiKey := key; timeoutMs := timeout s0 |}
           (world s0) = (Responded response, w') ->
     status response = 429 ->
     fst (fetchWithTimeout ep key s0) =
     inl (RateLimitError (default 1 (retryAfter response) * 1000))).
Proof.
  intros Hop He Hattempt r w1 jitter.
  assert (Hstep : retryFrom (S fuel) attempt last operation s =
                  retryFrom fuel (attempt + 1) (Some e) operation
                    (setWorld (sleep (retryDelay attempt jitter e) w1) s1)).
  { rewrite (retryFrom_again operation fuel attempt last s e s1 Hop He).
    unfold backoff.
    destruct (attempt <? maxRetries - 1) eqn:Hlt; [|lia].
    subst jitter r w1. destruct (random (world s1)) as [r0 w0].
    reflexivity. }
  split; [|split; [|split]].
  - intros retryAfterMs ->. exact Hstep.
  - intros Hother. rewrite Hstep. unfold retryDelay.
    destruct e; try reflexivity. exfalso. eapply Hother. reflexivity.
  - intros [H0 H1]. subst jitter. split.
    + change 0 with (Qfloor 0). apply Qfloor_resp_le. lra.
    + apply Z.lt_le_trans with (Qfloor (r * 250) + 1); [lia|].
      assert (Hlt : (inject_Z (Qfloor (r * 250)) < inject_Z 250)%Q).
      { apply Qle_lt_trans with (r * 250)%Q; [apply Qfloor_le|].
        change (inject_Z 250) with (250%Q). lra. }
      rewrite <- Zlt_Qlt in Hlt. lia.
  - intros ep key s0 response w' Hfetch H429. unfold fetchWithTimeout.
    rewrite Hfetch. rewrite H429. reflexivity.
Qed.

(** *** fetchWithTimeout *)

(** C6 as the code has it.  An invocation that receives a response (of any
    status, handed on or turned into an error) adds one to [apiCalls] and
    the latency to [totalResponseTime].  An invocation that is aborted by
    the deadline or fails in transport leaves both unchanged, adds one to
    [errors] and throws a retryable [AxelarAPIError]. *)
Theorem fetch_metrics ep key (s : St World) :
  let req := {| endpoint := ep; xApiKey := key; timeoutMs := timeout s |} in
  let w' := snd (fetch req (world s)) in
  let m := metrics s in
  let m' := metrics (snd (fetchWithTimeout ep key s)) in
  match fst (fetch req (world s)) with
  | Responded _ =>
      apiCalls m' = apiCalls m + 1 /\
      totalResponseTime m' =
        totalResponseTime m + (now w' - now (world s))
  | Aborted | Failed =>
      apiCalls m' = apiCalls m /\
      totalResponseTime m' = totalResponseTime m /\
      errors m' = errors m + 1 /\
      fst (fetchWithTimeout ep key s) = inl (AxelarAPIError 0 true)
  end.
Proof.
  intros req w' m m'. subst m' w' req. unfold fetchWithTimeout.
  destruct (fetch _ (world s)) as [res w1]. destruct res as [response| |].
  - cbn [fst snd].
    destruct (status response =? 429);
      [|destruct (negb (ok response) && (400 <=? status response))];
      split; reflexivity.
  - repeat split; reflexivity.
  - repeat split; reflexivity.
Qed.
End ServiceProperties.

(** * Concrete runs *)

Lemma offline_down : upstreamDown (H := offline).
Proof. intros req w. exact I. Qed.

Lemma steady_fees : feesNonNegative (H := steady).
Proof.
  intros req w r w' data Hfetch Hbody q Hq. cbn in Hfetch.
  injection Hfetch as <- _. cbn in Hbody. injection Hbody as <-.
  cbn in Hq. injection Hq as <-. discriminate.
Qed.

Lemma new_service_prices {World : Type} key timeout_ (w : World) :
  pricesPositive (newService key timeout_ w).
Proof. intros k e. cbn. rewrite lookup_empty. discriminate. Qed.

(** One route, two notionals and two windows, with the upstream down. *)
Lemma snapshot_when_upstream_down_witness :
  upstreamDown (H := offline) /\
  noAssetsCached (newService EmptyString 30000 1000) /\
  exists snap s',
    getSnapshot (H := offline) demoParams (newService EmptyString 30000 1000)
    = (inr snap, s') /\
    length (volumes snap) = 2%nat /\
    length (rates snap) = 2%nat /\
    Forall2 (fun route l => ld_route l = route /\
                            thresholds l = ladderTop route)
            (routes demoParams) (liquidity snap) /\
    assets (listedAssets snap) = getFallbackAssets.
Proof.
  split; [exact offline_down|]. split; [reflexivity|].
  destruct (snapshot_when_upstream_down (H := offline) demoParams
              (newService EmptyString 30000 1000) offline_down eq_refl)
    as (snap & s' & Hrun & Hv & Hr & Hl & Ha & _ & _).
  exists snap, s'. split; [exact Hrun|].
  split; [symmetry; exact (Forall2_length _ _ _ Hv)|].
  split; [symmetry; exact (Forall2_length _ _ _ Hr)|].
  split; [exact Hl | exact Ha].
Defined.

(** The same run, evaluated: the liquidity entry has both thresholds at
    1,000,000 USDC, where the fallback entry of [getLiquidityDepth] has
    800,000 and 600,000. *)
Lemma upstream_down_liquidity_evaluated :
  let route := mkRoute usdcEth usdcPolygon in
  match fst (getSnapshot (H := offline) demoParams
                         (newService EmptyString 30000 1000)) with
  | inr snap =>
      map (fun l => map maxAmountIn (thresholds l)) (liquidity snap)
      = [[1000000000000; 1000000000000]]
  | inl _ => False
  end /\
  map maxAmountIn (thresholds (fallbackLiquidity route 0))
  = [800000000000; 600000000000].
Proof. split; vm_compute; reflexivity. Qed.

(** A quote from BSC USDC (18 decimals) to Ethereum USDC (6 decimals) for
    1000 USDC, with the fee endpoint answering and no fee figure: the fee is
    6 USD, [amountOut] is 994 * 10^18 and [effectiveRate] is 994 * 10^9. *)
Lemma effective_rate_above_one :
  match fst (getSnapshot
               (mkParams [mkRoute usdcBsc usdcEth] [1000 * 10 ^ 18] None)
               (simService [Failed; Responded (answer200 None)])) with
  | inr snap =>
      exists r, rates snap = [r] /\
                amountIn r = 1000 * 10 ^ 18 /\
                amountOut r = 994 * 10 ^ 18 /\
                ~ (effectiveRate r <= 1)%Q
  | inl _ => False
  end.
Proof.
  set (run := fst _). vm_compute in run. subst run. cbv beta iota.
  eexists. split; [reflexivity|]. split; [reflexivity|].
  split; [reflexivity|]. cbn [effectiveRate]. intros Hle.
  unfold Qle in Hle. cbn in Hle. lia.
Qed.

(** 10^21 units between BSC USDC (18 decimals) and Ethereum USDC (6
    decimals), in both directions, where every call is answered with a fee
    of 2 USD: from 18 to 6 decimals the fee is 3 USD of 1000 USD and the
    effective rate is 997 * 10^9; from 6 to 18 decimals it is below
    10^-12. *)
Lemma snapshot_rate_invariants_witness :
  let params := mkParams [mkRoute usdcBsc usdcEth; mkRoute usdcEth usdcBsc]
                         [1000 * 10 ^ 18] None in
  let s := newService EmptyString 30000 1000 in
  pricesPositive s /\
  feesNonNegative (H := steady) /\
  Forall (fun n => 0 < n) (notionals params) /\
  exists snap s',
    getSnapshot (H := steady) params s = (inr snap, s') /\
    Forall rateInvariant (rates snap) /\
    exists r1 r2,
      rates snap = [r1; r2] /\
      (effectiveRate r1 == 997000000000)%Q /\
      (effectiveRate r2 < 1 # 1000000000000)%Q.
Proof.
  intros params s.
  assert (Hn : Forall (fun n => 0 < n) (notionals params)).
  { cbn. constructor; [lia|]. constructor. }
  split; [apply new_service_prices|]. split; [exact steady_fees|].
  split; [exact Hn|].
  destruct (snapshot_rate_invariants (H := steady) params s
              (new_service_prices _ _ _) steady_fees Hn)
    as (snap & s' & Hrun & Hrates & _).
  exists snap, s'. split; [exact Hrun|]. split; [exact Hrates|].
  assert (Heval :
            match fst (getSnapshot (H := steady) params s) with
            | inr snap0 =>
                exists r1 r2,
                  rates snap0 = [r1; r2] /\
                  (effectiveRate r1 == 997000000000)%Q /\
                  (effectiveRate r2 < 1 # 1000000000000)%Q
            | inl _ => False
            end).
  { set (run := fst _). vm_compute in run. subst run. cbv beta iota.
    eexists _, _. split; [reflexivity|].
    split; vm_compute; reflexivity. }
  rewrite Hrun in Heval. exact Heval.
Defined.

(** 1000 USDC at 1 USD with the default gas fee of 5 USD: the fee is 6 USD
    (0.6%) and [amountOut] is 994 USDC. *)
Lemma quote_fee_and_output_witness :
  let r := quoteRate usdcEth usdcPolygon 1000000000 1 None 0 in
  amountOut r = Qfloor (inject_Z 1000000000 * (1 - (6 # 1000))) /\
  0 < amountOut r /\
  amountOut r = 994000000.
Proof.
  intros r.
  destruct (quote_fee_and_output usdcEth usdcPolygon 1000000000 1 None 0
              eq_refl eq_refl)
    as (_ & _ & _ & _ & _ & Hout & _ & Hpos).
  subst r. split; [|split; [apply Hpos; lia | reflexivity]].
  rewrite Hout. apply Qfloor_comp. vm_compute. reflexivity.
Defined.

(** One unit of USDC (0.000001 USD): the fee is 50.1% of the value, above
    the cap of 50%, and [amountOut] is 0. *)
Lemma tiny_notional_counterexample :
  let usd := (inject_Z 1 / pow10 6 * 1)%Q in
  let fee := totalFeeUsdOf usd (cappedGasFee usd (quotedGasFee None)) in
  (0 < usd)%Q /\
  ~ (fee <= usd * (1 # 2))%Q /\
  amountOut (quoteRate usdcEth usdcPolygon 1 1 None 0) = 0.
Proof.
  cbv zeta. split; [reflexivity|]. split; [|reflexivity].
  intros Hle. vm_compute in Hle. apply Hle. reflexivity.
Qed.

(** A 404 from the upstream ends the retry loop after one request. *)
Lemma retry_non_retryable_witness :
  let operation := fetchWithTimeout CrossChainChains None in
  let s := simService [Responded (answer 404 None)] in
  let s1 := snd (operation s) in
  retryOperation operation s = (inl (AxelarAPIError 404 false), s1) /\
  length (requests (world s1)) = 1%nat.
Proof.
  intros operation s s1.
  destruct (retry_non_retryable operation 2 0 None s
              (AxelarAPIError 404 false) s1 eq_refl) as [Habort _].
  destruct (Habort 404 eq_refl) as [_ Hretry].
  split; [apply Hretry; reflexivity | reflexivity].
Defined.

(** With the price circuit breaker OPEN, the guarded call is refused three
    times, with backoffs of 1000 ms and 2000 ms in between: the refusal does
    not end the retry loop. *)
Lemma open_circuit_is_retried :
  fst (guardedCall tripped) = inl CircuitBreaker.circuitOpenError /\
  fst (retryOperation guardedCall tripped)
  = inl CircuitBreaker.circuitOpenError /\
  errors (metrics (snd (retryOperation guardedCall tripped))) = 3 /\
  timers (world (snd (retryOperation guardedCall tripped))) = [2000; 1000].
Proof. repeat split; vm_compute; reflexivity. Qed.

(** A 429 with [retry-after: 5], then a 200: the loop sleeps 5000 ms, once,
    not the 1000 ms plus jitter of the first backoff. *)
Lemma retry_delay_witness :
  let operation := fetchWithTimeout CrossChainChains None in
  let s := simService [Responded (answer 429 (Some 5));
                       Responded (answer200 None)] in
  let s1 := snd (operation s) in
  let w1 := snd (random (world s1)) in
  retryFrom 3 0 None operation s =
  retryFrom 2 1 (Some (RateLimitError 5000)) operation
            (setWorld (sleep 5000 w1) s1) /\
  timers (world (snd (retryOperation operation s))) = [5000].
Proof.
  intros operation s s1 w1.
  destruct (retry_delay operation 2 0 None s (RateLimitError 5000) s1
              eq_refl eq_refl ltac:(reflexivity)) as (Hrate & _).
  split; [exact (Hrate 5000 eq_refl) | reflexivity].
Defined.

(** A call aborted by the deadline: one millisecond passes on the clock, and
    neither [apiCalls] nor [totalResponseTime] changes. *)
Lemma aborted_call_is_not_counted :
  let s := simService [Aborted] in
  let s' := snd (fetchWithTimeout CrossChainChains None s) in
  fst (fetchWithTimeout CrossChainChains None s)
  = inl (AxelarAPIError 0 true) /\
  now (world s') - now (world s) = 1 /\
  apiCalls (metrics s') = apiCalls (metrics s) /\
  totalResponseTime (metrics s') = totalResponseTime (metrics s).
Proof. repeat split. Qed.

(** * Further properties *)

(** ** TTLCache *)

Section CacheRunProperties.
Context {K : Type} `{Countable K} {V : Type}.
Implicit Types (c : TTLCache.t K V) (calls : list (CacheCall K V)).

Lemma cacheCall_counters (call : CacheCall K V) c reads :
  0 <= TTLCache.hits c -> 0 <= TTLCache.misses c ->
  TTLCache.hits c + TTLCache.misses c = Z.of_nat reads ->
  let c' := cacheCall call c in
  0 <= TTLCache.hits c' /\ 0 <= TTLCache.misses c' /\
  TTLCache.hits c' + TTLCache.misses c'
  = Z.of_nat (readsSinceClear [call] reads) /\
  TTLCache.ttlMs c' = TTLCache.ttlMs c.
Proof.
  intros Hh Hm Hsum. destruct call as [t key | t key v |]; cbn.
  - unfold TTLCache.get. destruct (TTLCache.store c !! key) as [hit|];
      [destruct (TTLCache.expiresAt hit <? t)|]; cbn; repeat split; lia.
  - repeat split; lia.
  - repeat split; lia.
Qed.

Lemma cacheRun_counters calls : forall c reads,
  0 <= TTLCache.hits c -> 0 <= TTLCache.misses c ->
  TTLCache.hits c + TTLCache.misses c = Z.of_nat reads ->
  0 <= TTLCache.hits (cacheRun calls c) /\
  0 <= TTLCache.misses (cacheRun calls c) /\
  TTLCache.hits (cacheRun calls c) + TTLCache.misses (cacheRun calls c)
  = Z.of_nat (readsSinceClear calls reads) /\
  TTLCache.ttlMs (cacheRun calls c) = TTLCache.ttlMs c.
Proof.
  induction calls as [|call rest IH]; intros c reads Hh Hm Hsum.
  - cbn. repeat split; assumption.
  - destruct (cacheCall_counters call c reads Hh Hm Hsum)
      as (H1 & H2 & H3 & H4).
    change (cacheRun (call :: rest) c)
      with (cacheRun rest (cacheCall call c)).
    destruct (IH (cacheCall call c) (readsSinceClear [call] reads) H1 H2 H3)
      as (G1 & G2 & G3 & G4).
    refine (conj G1 (conj G2 (conj _ _))); [|congruence].
    rewrite G3. destruct call; reflexivity.
Qed.

Lemma hitRate_bounds c :
  0 <= TTLCache.hits c -> 0 <= TTLCache.misses c ->
  (0 <= TTLCache.hitRate (TTLCache.getStats c))%Q /\
  (TTLCache.hitRate (TTLCache.getStats c) <= 1)%Q.
Proof.
  intros Hh Hm. cbn [TTLCache.getStats TTLCache.hitRate].
  destruct (0 <? TTLCache.hits c + TTLCache.misses c) eqn:Hpos;
    [|split; [apply Qle_refl | discriminate]].
  apply Z.ltb_lt in Hpos.
  assert (Hden : (0 < inject_Z (TTLCache.hits c + TTLCache.misses c))%Q)
    by (apply inject_Z_pos; exact Hpos).
  assert (Hnum : (0 <= inject_Z (TTLCache.hits c))%Q).
  { change 0%Q with (inject_Z 0). rewrite <- Zle_Qle. exact Hh. }
  split.
  - apply Qle_shift_div_l; [exact Hden | lra].
  - apply Qle_shift_div_r; [exact Hden|]. rewrite Qmult_1_l.
    rewrite <- Zle_Qle. lia.
Qed.

(** X1. After any sequence of [get], [set] and [clear] calls on a new cache, the
    hit and miss counters are non-negative and add up to the number of reads
    since the last [clear], the TTL is the one the cache was built with, and
    the reported [hitRate] lies between 0 and 1. *)
Theorem cache_statistics (ttl : Z) calls :
  let c := cacheRun calls (TTLCache.create ttl) in
  0 <= TTLCache.hits c /\ 0 <= TTLCache.misses c /\
  TTLCache.hits c + TTLCache.misses c = Z.of_nat (readsSinceClear calls 0) /\
  TTLCache.ttlMs c = ttl /\
  (0 <= TTLCache.hitRate (TTLCache.getStats c))%Q /\
  (TTLCache.hitRate (TTLCache.getStats c) <= 1)%Q.
Proof.
  intros c.
  destruct (cacheRun_counters calls (TTLCache.create ttl) 0%nat)
    as (Hh & Hm & Hsum & Httl); try (cbn; lia).
  fold c in Hh, Hm, Hsum, Httl. cbn in Httl.
  destruct (hitRate_bounds c Hh Hm) as [H0 H1].
  repeat split; assumption.
Qed.

(** X2. A [get] or a [set] of one key leaves the entry of every other key as it
    is, expired or not; and a [get] that hits leaves the value and the expiry
    of its entry as they are (reading does not extend the life of an entry)
    and adds one to its access counter. *)
Theorem cache_isolation c (key other : K) now_ (v : V) :
  other <> key ->
  TTLCache.store (snd (TTLCache.get now_ key c)) !! other
  = TTLCache.store c !! other /\
  TTLCache.store (TTLCache.set now_ key v c) !! other
  = TTLCache.store c !! other /\
  (forall e, TTLCache.store c !! key = Some e ->
     now_ <= TTLCache.expiresAt e ->
     TTLCache.store (snd (TTLCache.get now_ key c)) !! key
     = Some (TTLCache.mkEntry (TTLCache.value e) (TTLCache.expiresAt e)
                              (TTLCache.accessCount e + 1))).
Proof.
  intros Hne. split; [|split].
  - unfold TTLCache.get. destruct (TTLCache.store c !! key) as [hit|];
      [destruct (TTLCache.expiresAt hit <? now_)|]; cbn.
    + apply lookup_delete_ne. congruence.
    + apply lookup_insert_ne. congruence.
    + reflexivity.
  - cbn. apply lookup_insert_ne. congruence.
  - intros e He Hle. unfold TTLCache.get. rewrite He.
    destruct (TTLCache.expiresAt e <? now_) eqn:Hexp; [lia|].
    cbn. apply lookup_insert_eq.
Qed.
End CacheRunProperties.

(** ** CircuitBreaker *)

Section BreakerInvariant.
Import CircuitBreaker.
Context {W T : Type} (now_ : W -> Z).
Implicit Types (cb : t) (w : W) (fn : W -> (JsError + T) * W).

Lemma create_sound threshold resetMs :
  1 <= threshold -> breakerSound (create threshold resetMs).
Proof. intros Hth. unfold breakerSound. cbn. repeat split; auto; lia. Qed.

Lemma execute_sound cb w fn :
  breakerSound cb -> breakerSound (snd (fst (execute now_ fn cb w))).
Proof.
  intros Hsound. pose proof Hsound as (Hth & Hf & Hiff).
  unfold execute, gate.
  assert (Hgate : forall cb1,
            failures cb1 = failures cb ->
            failureThreshold cb1 = failureThreshold cb ->
            (state cb1 = CLOSED <-> state cb = CLOSED) ->
            breakerSound
              (snd (fst (let '(r, w') := fn w in
                         match r with
                         | inr result => (inr result, onSuccess cb1, w')
                         | inl error =>
                             (inl error, onFailure (now_ w') cb1, w')
                         end)))).
  { intros cb1 Hf1 Ht1 Hs1. destruct (fn w) as [[e|v] w']; cbn.
    - unfold breakerSound. cbn. rewrite Hf1, Ht1.
      destruct (failureThreshold cb <=? failures cb + 1) eqn:Hle.
      + apply Z.leb_le in Hle. repeat split; try lia; try discriminate.
      + apply Z.leb_gt in Hle. repeat split; try lia.
        intros _. apply Hs1. apply Hiff. lia.
    - unfold breakerSound. cbn. rewrite Ht1. repeat split; auto; lia. }
  destruct (state cb) eqn:Hst.
  - apply Hgate; [reflexivity | reflexivity | rewrite Hst; tauto].
  - destruct (resetTimeoutMs cb <? now_ w - lastFailureTime cb).
    + apply Hgate; cbn; try reflexivity.
      split; discriminate.
    + exact Hsound.
  - apply Hgate; [reflexivity | reflexivity | rewrite Hst; tauto].
Qed.

Lemma executeAll_sound (fns : list (W -> (JsError + T) * W)) : forall cb w,
  breakerSound cb -> breakerSound (fst (executeAll now_ fns cb w)).
Proof.
  induction fns as [|fn rest IH]; intros cb w Hcb; [exact Hcb|].
  cbn [executeAll]. pose proof (execute_sound cb w fn Hcb) as Hstep.
  destruct (execute now_ fn cb w) as [[r cb'] w']. apply IH. exact Hstep.
Qed.

(** X3. Whatever calls a new breaker (with a threshold of at least 1) has gone
    through, succeeding, failing or refused, its failure count is not
    negative and it is CLOSED exactly when the count is below the
    threshold. *)
Theorem breaker_closed_iff_below_threshold
    (fns : list (W -> (JsError + T) * W)) threshold resetMs w :
  1 <= threshold ->
  let cb := fst (executeAll now_ fns (create threshold resetMs) w) in
  0 <= failures cb /\
  failureThreshold cb = threshold /\
  (state cb = CLOSED <-> failures cb < threshold).
Proof.
  intros Hth cb.
  pose proof (executeAll_sound fns (create threshold resetMs) w
                (create_sound threshold resetMs Hth)) as (H1 & H2 & H3).
  fold cb in H1, H2, H3.
  assert (Hconf : forall (l : list (W -> (JsError + T) * W)) cb0 w0,
            failureThreshold (fst (executeAll now_ l cb0 w0))
            = failureThreshold cb0).
  { induction l as [|fn rest IH]; intros cb0 w0; [reflexivity|].
    cbn [executeAll]. unfold execute.
    destruct (gate now_ cb0 w0) as [cb1|] eqn:Hg.
    - assert (Hc1 : failureThreshold cb1 = failureThreshold cb0).
      { unfold gate in Hg. destruct (state cb0);
          [injection Hg as <-; reflexivity | | injection Hg as <-; reflexivity].
        destruct (_ <? _); [injection Hg as <-; reflexivity | discriminate]. }
      destruct (fn w0) as [[e|v] w1]; rewrite IH; cbn; exact Hc1.
    - apply IH. }
  assert (Hcfg : failureThreshold cb = threshold) by (apply Hconf).
  rewrite Hcfg in H3. repeat split; try assumption; apply H3.
Qed.

(** X4. In a breaker that is CLOSED exactly below its threshold, a failure of the
    probing call in HALF_OPEN opens the breaker again, adds one to the
    failure count and records the time of the failure. *)
Theorem breaker_half_open_failure cb w fn e w' :
  breakerSound cb -> state cb = HALF_OPEN -> fn w = (inl e, w') ->
  exists cb', execute now_ fn cb w = (inl e, cb', w') /\
              state cb' = OPEN /\
              failures cb' = failures cb + 1 /\
              lastFailureTime cb' = now_ w'.
Proof.
  intros (Hth & Hf & Hiff) Hst Hfn. unfold execute, gate.
  rewrite Hst, Hfn. eexists. split; [reflexivity|]. cbn.
  destruct (failureThreshold cb <=? failures cb + 1) eqn:Hle;
    [repeat split|].
  apply Z.leb_gt in Hle. assert (state cb = CLOSED) by (apply Hiff; lia).
  congruence.
Qed.

(** X5. While the breaker is OPEN and the reset timeout has not passed, no call
    of any sequence of calls is run: the breaker and the state of the wrapped
    operations stay as they are. *)
Theorem breaker_open_refuses_all
    (fns : list (W -> (JsError + T) * W)) cb w :
  state cb = OPEN ->
  now_ w - lastFailureTime cb <= resetTimeoutMs cb ->
  executeAll now_ fns cb w = (cb, w).
Proof.
  intros Hst Hle. induction fns as [|fn rest IH]; [reflexivity|].
  cbn [executeAll].
  rewrite (BreakerProperties.execute_open_early now_ cb w fn Hst Hle).
  exact IH.
Qed.
End BreakerInvariant.

(** ** RequestDeduplicator *)

Section DedupInvariant.
Import RequestDeduplicator DedupProperties.
Context {T : Type}.
Implicit Types (d : t T) (key : string) (ev : Event T).

Lemma create_unsettled : unsettled (create (T := T)).
Proof.
  split; intros p x; cbn; rewrite lookup_empty; discriminate.
Qed.

Lemma deduplicate_unsettled key d :
  unsettled d -> unsettled (snd (deduplicate key d)).
Proof.
  intros [Hclean Hlt]. unfold deduplicate.
  destruct (pending d !! key) as [existing|]; [split; assumption|].
  split; cbn.
  - intros p k. destruct (decide (p = nextPromise d)) as [->|Hp].
    + intros _. destruct (settled d !! nextPromise d) as [o|] eqn:Ho;
        [|reflexivity].
      apply Hlt in Ho. lia.
    + rewrite lookup_insert_ne by congruence. apply Hclean.
  - intros p o Ho. apply Hlt in Ho. lia.
Qed.

Lemma settle_unsettled p o d :
  consistent d -> unsettled d -> unsettled (settle p o d).
Proof.
  intros [_ Halloc] [Hclean Hlt]. unfold settle.
  destruct (cleanup d !! p) as [key|] eqn:Hp; [|split; assumption].
  split; cbn.
  - intros q k. destruct (decide (q = p)) as [->|Hq].
    + rewrite lookup_delete_eq. discriminate.
    + rewrite lookup_delete_ne, lookup_insert_ne by congruence. apply Hclean.
  - intros q o'. destruct (decide (q = p)) as [->|Hq].
    + intros _. exact (Halloc p key Hp).
    + rewrite lookup_insert_ne by congruence. apply Hlt.
Qed.

Lemma run_consistent evs : forall d,
  consistent d -> unsettled d ->
  consistent (snd (run evs d)) /\ unsettled (snd (run evs d)).
Proof.
  induction evs as [|ev rest IH]; intros d Hc Hu; [split; assumption|].
  cbn [run].
  assert (Hstep : consistent (snd (step ev d)) /\ unsettled (snd (step ev d))).
  { destruct ev as [key | p o]; cbn [step].
    - pose proof (deduplicate_consistent key d Hc) as Hc'.
      pose proof (deduplicate_unsettled key d Hu) as Hu'.
      destruct (deduplicate key d) as [h d']. split; assumption.
    - split; [apply settle_consistent | apply settle_unsettled]; assumption. }
  destruct (step ev d) as [r d1]. destruct Hstep as [Hc1 Hu1].
  specialize (IH d1 Hc1 Hu1). destruct (run rest d1) as [rs d2].
  exact IH.
Qed.

(** X6. After any sequence of calls and settlements on a new deduplicator, a key
    is pending only for an operation that has not settled: once an operation
    has settled, with either outcome, its key is gone from the pending map. *)
Theorem pending_only_while_unsettled (evs : list (Event T)) :
  let d := snd (run evs create) in
  forall key p, pending d !! key = Some p ->
    settled d !! p = None /\ cleanup d !! p = Some key /\
    (p < nextPromise d)%nat.
Proof.
  intros d key p Hkey.
  destruct (run_consistent evs create create_consistent create_unsettled)
    as [[Hinv Halloc] [Hclean _]].
  fold d in Hinv, Halloc, Hclean.
  assert (Hp : cleanup d !! p = Some key) by (apply Hinv; exact Hkey).
  split; [exact (Hclean p key Hp)|]. split; [exact Hp|].
  exact (Halloc p key Hp).
Qed.

(** X7. Results are not cached: once the operation of a key has settled, the
    next call for that key calls the producer again and is handed a new,
    unsettled promise, not the outcome of the first one. *)
Theorem settled_result_is_not_reused key d outcome :
  consistent d -> unsettled d -> pending d !! key = None ->
  let h := fst (deduplicate key d) in
  let d1 := snd (deduplicate key d) in
  let d2 := settle h outcome d1 in
  let h' := fst (deduplicate key d2) in
  let d3 := snd (deduplicate key d2) in
  h' <> h /\
  invocations key d3 = S (S (invocations key d)) /\
  settled d3 !! h = Some outcome /\
  settled d3 !! h' = None.
Proof.
  intros Hc Hu Hfree h d1 d2 h' d3.
  assert (Hstart : h = nextPromise d /\
                   cleanup d1 !! h = Some key /\
                   invocations key d1 = S (invocations key d)).
  { subst d1 h. unfold deduplicate. rewrite Hfree. cbn.
    split; [reflexivity|]. split; [apply lookup_insert_eq|].
    unfold invocations. cbn.
    destruct (decide (key = key)); [reflexivity | contradiction]. }
  destruct Hstart as (Hh & Hclean1 & Hinv1).
  assert (Hdone : settled d2 !! h = Some outcome).
  { subst d2. unfold settle. rewrite Hclean1. cbn. apply lookup_insert_eq. }
  assert (Hgone : pending d2 !! key = None).
  { subst d2. unfold settle. rewrite Hclean1. cbn. apply lookup_delete_eq. }
  assert (Hc2 : consistent d2).
  { apply settle_consistent, deduplicate_consistent. exact Hc. }
  assert (Hu2 : unsettled d2).
  { apply settle_unsettled; [apply deduplicate_consistent; exact Hc|].
    apply deduplicate_unsettled. exact Hu. }
  assert (Hnext : nextPromise d2 = S h).
  { subst d2. unfold settle. rewrite Hclean1. cbn.
    subst d1 h. unfold deduplicate. rewrite Hfree. reflexivity. }
  assert (Hinv2 : invocations key d2 = invocations key d1).
  { subst d2. unfold settle. destruct (cleanup d1 !! h); reflexivity. }
  assert (Hh' : h' = S h /\ invocations key d3 = S (invocations key d2)
                /\ settled d3 = settled d2).
  { subst h' d3. unfold deduplicate. rewrite Hgone. cbn.
    split; [exact Hnext|]. split; [|reflexivity].
    unfold invocations. cbn.
    destruct (decide (key = key)); [reflexivity | contradiction]. }
  destruct Hh' as (Hfresh & Hinv3 & Hsame).
  split; [lia|]. split; [congruence|]. rewrite Hsame.
  split; [exact Hdone|].
  destruct (settled d2 !! h') as [o|] eqn:Ho; [|reflexivity].
  destruct Hu2 as [_ Hlt]. apply Hlt in Ho. lia.
Qed.

(** X8. [clear()] empties the pending map but leaves the [finally] callbacks of
    the operations in flight.  If a key is cleared while its operation is in
    flight, the next call starts a second operation for the key, and the
    settlement of the first one removes the entry of the second: the key is
    no longer pending although its second operation has not settled. *)
Theorem clear_breaks_single_flight key d outcome :
  pending d !! key = None ->
  let h := fst (deduplicate key d) in
  let d1 := clear (snd (deduplicate key d)) in
  let h' := fst (deduplicate key d1) in
  let d2 := snd (deduplicate key d1) in
  let d3 := settle h outcome d2 in
  h' <> h /\
  invocations key d2 = S (S (invocations key d)) /\
  pending d2 !! key = Some h' /\
  pending d3 !! key = None /\
  cleanup d3 !! h' = Some key.
Proof.
  intros Hfree h d1 h' d2 d3.
  assert (E1 : deduplicate key d =
               (nextPromise d,
                mkDedup (<[key := nextPromise d]> (pending d))
                        (<[nextPromise d := key]> (cleanup d))
                        (settled d) (S (nextPromise d))
                        (key :: invoked d))).
  { unfold deduplicate. rewrite Hfree. reflexivity. }
  subst d3 d2 h' d1 h. rewrite E1. cbn [fst snd clear pending cleanup
                                        settled nextPromise invoked].
  set (d1 := clear _).
  assert (E2 : deduplicate key d1 =
               (S (nextPromise d),
                mkDedup (<[key := S (nextPromise d)]> ∅)
                        (<[S (nextPromise d) := key]>
                           (<[nextPromise d := key]> (cleanup d)))
                        (settled d) (S (S (nextPromise d)))
                        (key :: key :: invoked d))).
  { unfold deduplicate. change (pending d1) with (∅ : gmap string nat).
    rewrite lookup_empty. reflexivity. }
  rewrite E2. cbn [fst snd pending].
  assert (Hclean : forall (m : gmap nat string),
            <[S (nextPromise d) := key]> (<[nextPromise d := key]> m)
            !! nextPromise d = Some key).
  { intros m. rewrite lookup_insert_ne by lia. apply lookup_insert_eq. }
  unfold settle. cbn [cleanup]. rewrite Hclean.
  cbn [pending cleanup].
  split; [lia|]. split.
  { unfold invocations. cbn.
    destruct (decide (key = key)); [reflexivity | contradiction]. }
  split; [apply lookup_insert_eq|].
  split; [apply lookup_delete_eq|].
  rewrite lookup_delete_ne by lia. apply lookup_insert_eq.
Qed.
End DedupInvariant.

(** ** More of the DataProviderService *)

Section MoreServiceProperties.
Context {World : Type} `{Platform World}.

(** *** fetchWithTimeout *)

(** X9. How [fetchWithTimeout] classifies what [fetch] does.  A response with
    status 429 becomes a [RateLimitError]; any other response with a status
    of 400 or more becomes an [AxelarAPIError] that is retryable exactly from
    500 on; a response with a status below 400 is returned.  An abort or a
    transport failure becomes a retryable [AxelarAPIError] with status 0.
    [errors] grows by one exactly when an error is thrown, and the error ends
    a retry loop exactly for the statuses 400 to 499 other than 429. *)
Theorem fetch_classification ep key (s : St World) :
  let req := {| endpoint := ep; xApiKey := key; timeoutMs := timeout s |} in
  let outcome := fst (fetch req (world s)) in
  let result := fst (fetchWithTimeout ep key s) in
  let s' := snd (fetchWithTimeout ep key s) in
  match outcome with
  | Responded r =>
      (status r = 429 ->
       result = inl (RateLimitError (default 1 (retryAfter r) * 1000))) /\
      (400 <= status r -> status r <> 429 ->
       result = inl (AxelarAPIError (status r) (500 <=? status r))) /\
      (status r < 400 -> result = inr r)
  | Aborted | Failed => result = inl (AxelarAPIError 0 true)
  end /\
  (forall e, result = inl e ->
     errors (metrics s') = errors (metrics s) + 1 /\
     (nonRetryable e = true <->
      exists r, outcome = Responded r /\
                400 <= status r < 500 /\ status r <> 429)) /\
  (forall r, result = inr r ->
     errors (metrics s') = errors (metrics s) /\
     outcome = Responded r /\ status r < 400).
Proof.
  intros req outcome result s'. subst s' result outcome req.
  unfold fetchWithTimeout.
  destruct (fetch _ (world s)) as [res w']. cbn [fst snd].
  destruct res as [r| |].
  - destruct (status r =? 429) eqn:H429.
    + apply Z.eqb_eq in H429. cbn [fst snd]. split; [|split].
      * split; [intros _; reflexivity|]. split; [intros _ Hne; lia|].
        intros Hlt; lia.
      * intros e [= <-]. split; [reflexivity|]. split; [discriminate|].
        intros (r' & [= <-] & _ & Hne). lia.
      * intros r' [=].
    + apply Z.eqb_neq in H429. unfold ok.
      destruct (400 <=? status r) eqn:H400.
      * apply Z.leb_le in H400.
        assert (Hok : (200 <=? status r) && (status r <=? 299) = false).
        { apply andb_false_iff. right. apply Z.leb_gt. lia. }
        rewrite Hok. cbn [negb andb fst snd]. split; [|split].
        -- split; [intros; lia|]. split; [intros; reflexivity | intros; lia].
        -- intros e [= <-]. split; [reflexivity|].
           unfold nonRetryable. cbn. rewrite negb_true_iff. split.
           ++ intros H500. apply Z.leb_gt in H500. exists r.
              repeat split; [lia | lia | exact H429].
           ++ intros (r' & [= <-] & [_ Hlt] & _). apply Z.leb_gt. exact Hlt.
        -- intros r' [=].
      * apply Z.leb_gt in H400. rewrite andb_false_r. cbn [fst snd].
        split; [|split].
        -- split; [intros; lia|]. split; [intros; lia | intros; reflexivity].
        -- intros e [=].
        -- intros r' [= <-]. repeat split. exact H400.
  - cbn [fst snd]. split; [reflexivity|]. split.
    + intros e [= <-]. split; [reflexivity|]. split; [discriminate|].
      intros (r' & [=] & _).
    + intros r' [=].
  - cbn [fst snd]. split; [reflexivity|]. split.
    + intros e [= <-]. split; [reflexivity|]. split; [discriminate|].
      intros (r' & [=] & _).
    + intros r' [=].
Qed.

(** *** retryOperation *)

Lemma backoff_last e (s : St World) : backoff 2 e s = s.
Proof. reflexivity. Qed.

(** X10. The attempt budget.  After a first failure that is retried, a success of
    the second or of the third attempt is the result; when the third attempt
    fails as well, its error is the result, in the state that attempt left:
    there is no fourth attempt and no wait after the third. *)
Theorem retry_budget {A} (operation : M World A) s0 e1 s1 :
  operation s0 = (inl e1, s1) -> nonRetryable e1 = false ->
  (forall v s2, operation (backoff 0 e1 s1) = (inr v, s2) ->
     retryOperation operation s0 = (inr v, s2)) /\
  (forall e2 s2, operation (backoff 0 e1 s1) = (inl e2, s2) ->
     nonRetryable e2 = false ->
     (forall v s3, operation (backoff 1 e2 s2) = (inr v, s3) ->
        retryOperation operation s0 = (inr v, s3)) /\
     (forall e3 s3, operation (backoff 1 e2 s2) = (inl e3, s3) ->
        retryOperation operation s0 = (inl e3, s3))).
Proof.
  intros H1 N1. rewrite retryOperation_unfold.
  rewrite (retryFrom_again operation 2 0 None s0 e1 s1 H1 N1).
  change (0 + 1) with 1. split.
  - intros v s2 H2. cbn [retryFrom]. rewrite H2. reflexivity.
  - intros e2 s2 H2 N2.
    rewrite (retryFrom_again operation 1 1 (Some e1) _ e2 s2 H2 N2).
    change (1 + 1) with 2. split.
    + intros v s3 H3. cbn [retryFrom]. rewrite H3. reflexivity.
    + intros e3 s3 H3. cbn [retryFrom]. rewrite H3.
      destruct (nonRetryable e3); [reflexivity|].
      rewrite backoff_last. reflexivity.
Qed.

(** *** The sub-pipelines never throw *)

Lemma retry_of_total {A} (operation : M World A) Q :
  hoare anyState operation Q never ->
  forall s, retryOperation operation s = operation s.
Proof.
  intros Hop s. rewrite retryOperation_unfold. cbn [retryFrom].
  specialize (Hop s Logic.I). destruct (operation s) as [[e|a] s1].
  - destruct Hop as [[] _].
  - reflexivity.
Qed.

Lemma getAxelarQuote_total src dst n E :
  hoare anyState (getAxelarQuote src dst n)
        (quoted (fun _ => True) (fun _ => True) src dst n) E.
Proof. apply hoare_getAxelarQuote; unfold anyState; auto. Qed.

Lemma getVolumes_total windows E :
  hoare anyState (getVolumes windows)
        (Forall2 (fun w v => window v = w) windows) E.
Proof. apply hoare_getVolumes; unfold anyState; auto. Qed.

Lemma getRates_total routes_ notionals_ E :
  hoare anyState (getRates routes_ notionals_)
        (Forall2 (quotedFor (fun _ => True) (fun _ => True))
                 (combinations routes_ notionals_)) E.
Proof. apply hoare_getRates; unfold anyState; auto. Qed.

Lemma getLiquidityDepth_total routes_ E :
  hoare anyState (getLiquidityDepth routes_) (Forall2 liquidityFor routes_) E.
Proof.
  apply hoare_getLiquidityDepth with (goodPrice := fun _ => True)
                                     (goodFee := fun _ => True);
    unfold anyState; auto.
Qed.

Lemma getListedAssets_total E : hoare anyState getListedAssets any E.
Proof. apply hoare_getListedAssets; unfold anyState; auto. Qed.

(** X11. No sub-pipeline of [getSnapshot] is ever retried: each one catches its
    own failures, so its retry wrapper returns what the single attempt
    returns, from every state and for every upstream. *)
Theorem retry_wrappers_never_retry windows routes_ notionals_ (s : St World) :
  getVolumesWithRetry windows s = getVolumes windows s /\
  getRatesWithRetry routes_ notionals_ s = getRates routes_ notionals_ s /\
  getLiquidityDepthWithRetry routes_ s = getLiquidityDepth routes_ s /\
  getListedAssetsWithRetry s = getListedAssets s.
Proof.
  split; [|split; [|split]].
  - eapply retry_of_total. apply getVolumes_total.
  - eapply retry_of_total. apply getRates_total.
  - eapply retry_of_total. apply getLiquidityDepth_total.
  - eapply retry_of_total. apply getListedAssets_total.
Qed.

(** *** The shape of a snapshot *)

Lemma quoted_rateKey goodPrice goodFee (item : Route * Z) r :
  quotedFor goodPrice goodFee item r -> rateKey r = item.
Proof.
  destruct item as [[src dst] n]. unfold quotedFor, quoted, rateKey. cbn.
  intros [(p & fee & t & _ & _ & ->)|(t & ->)]; reflexivity.
Qed.

Lemma Forall2_map_eq {A B} (f : B -> A) (l : list A) (k : list B) :
  Forall2 (fun x y => f y = x) l k -> map f k = l.
Proof. induction 1 as [|x y l k Hxy _ IH]; cbn; congruence. Qed.

Lemma combinations_length (routes_ : list Route) (notionals_ : list Z) :
  length (combinations routes_ notionals_)
  = (length routes_ * length notionals_)%nat.
Proof.
  unfold combinations. induction routes_ as [|route rest IH]; [reflexivity|].
  cbn [flat_map]. rewrite length_app, length_map, IH. reflexivity.
Qed.

(** X12. For every request, from every state and for every upstream, the snapshot
    keeps the order of the request: the volumes are for the requested
    windows in their order; the rates are for the route and notional pairs,
    routes first and notionals within a route, each rate echoing its source,
    destination and [amountIn]; the liquidity entries are for the routes in
    their order, each with exactly two thresholds, at 50 and at 100 basis
    points. *)
Theorem snapshot_keeps_request_order params (s : St World) :
  exists snap s',
    getSnapshot params s = (inr snap, s') /\
    map window (volumes snap) = default [W24h] (includeWindows params) /\
    map rateKey (rates snap)
    = combinations (routes params) (notionals params) /\
    length (rates snap)
    = (length (routes params) * length (notionals params))%nat /\
    map ld_route (liquidity snap) = routes params /\
    Forall (fun l => map slippageBps (thresholds l) = [50; 100])
           (liquidity snap).
Proof.
  destruct (hoare_returns anyState (getSnapshot params)
              (shaped (fun _ => True) (fun _ => True) params) s)
    as (snap & s' & Hrun & (Hv & Hr & Hl) & _).
  - apply hoare_getSnapshot; unfold anyState; auto.
  - exact Logic.I.
  - exists snap, s'. split; [exact Hrun|].
    assert (Hkeys : map rateKey (rates snap)
                    = combinations (routes params) (notionals params)).
    { apply Forall2_map_eq. eapply Forall2_impl; [exact Hr|].
      intros item r. apply quoted_rateKey. }
    split; [apply Forall2_map_eq; exact Hv|].
    split; [exact Hkeys|].
    split; [rewrite <- (length_map rateKey), Hkeys;
            apply combinations_length|].
    split.
    + apply Forall2_map_eq. eapply Forall2_impl; [exact Hl|].
      intros route l [Hroute _]. exact Hroute.
    + eapply Forall2_Forall_right; [exact Hl|].
      intros route l _ [_ Hth]. exact Hth.
Qed.
End MoreServiceProperties.

Section PipelineProperties.
Context {World : Type} `{Platform World}.

Ltac step lem x Hx := eapply hoare_bind; [lem | cbv beta; intros x Hx].

(** *** Volumes *)





(** *** Liquidity depth *)

Lemma scaled_mono u u' d : u <= u' -> scaled u d <= scaled u' d.
Proof.
  intros Hle. unfold scaled. apply Qfloor_resp_le.
  pose proof (pow10_pos d) as Hd.
  assert (Hq : (inject_Z u <= inject_Z u')%Q) by (rewrite <- Zle_Qle; exact Hle).
  nra.
Qed.

Lemma scaled_exact u d : 0 <= d -> scaled u d = u * 10 ^ d.
Proof.
  intros Hd. unfold scaled, pow10.
  rewrite <- (Qfloor_Z (u * 10 ^ d)). apply Qfloor_comp.
  rewrite inject_Z_mult, Zpower_Qpower by exact Hd. reflexivity.
Qed.

Lemma slippage_50_100 rate baseline :
  slippageWithin 50 rate baseline = true ->
  slippageWithin 100 rate baseline = true.
Proof.
  unfold slippageWithin. destruct (Qeq_bool baseline 0); [discriminate|].
  rewrite !Qle_bool_iff. intros H50. eapply Qle_trans; [exact H50|].
  discriminate.
Qed.

Lemma probeLadder_ordered route baselineRate testAmounts E :
  forall max50 max100,
  max50 <= max100 ->
  Forall (Z.le max100) testAmounts ->
  StronglySorted Z.le testAmounts ->
  hoare anyState (probeLadder route baselineRate testAmounts max50 max100)
        (fun maxima =>
           fst maxima <= snd maxima /\
           In (fst maxima) (max50 :: testAmounts) /\
           In (snd maxima) (max100 :: testAmounts)) E.
Proof.
  induction testAmounts as [|amount rest IH];
    intros max50 max100 Hle Hall Hsorted; cbn [probeLadder].
  - apply hoare_ret. cbn. auto.
  - inversion Hall as [|? ? Hamount Hrest]; subst.
    inversion Hsorted as [|? ? Hsorted' Hafter]; subst.
    eapply hoare_bind with (Q1 := any).
    + eapply hoare_try_catch with (E1 := never); [|intros e []].
      step ltac:(apply getAxelarQuote_total) q Hq.
      apply hoare_ret. exact Logic.I.
    + intros [quote|] _; [|apply hoare_ret; cbn; auto].
      pose proof (slippage_50_100 (effectiveRate quote) baselineRate) as H50.
      destruct (slippageWithin 50 (effectiveRate quote) baselineRate);
        [rewrite (H50 eq_refl)
        |destruct (slippageWithin 100 (effectiveRate quote) baselineRate)].
      * eapply hoare_weaken; [apply IH|..].
        -- lia.
        -- exact Hafter.
        -- exact Hsorted'.
        -- cbn. intros p (H1 & [H2|H2] & [H3|H3]); repeat split; auto.
        -- auto.
      * eapply hoare_weaken; [apply IH|..].
        -- lia.
        -- exact Hafter.
        -- exact Hsorted'.
        -- cbn. intros p (H1 & [H2|H2] & [H3|H3]); repeat split; auto.
        -- auto.
      * eapply hoare_weaken; [apply IH|..].
        -- exact Hle.
        -- exact Hrest.
        -- exact Hsorted'.
        -- cbn. intros p (H1 & [H2|H2] & [H3|H3]); repeat split; auto.
        -- auto.
Qed.

Lemma liquidityOf_ordered route E :
  hoare anyState (liquidityOf route) (orderedOnLadder route) E.
Proof.
  unfold liquidityOf. eapply hoare_try_catch with (E1 := never);
    [|intros e []].
  step ltac:(apply getAxelarQuote_total) base Hbase.
  eapply hoare_bind.
  - apply probeLadder_ordered.
    + lia.
    + repeat constructor; apply scaled_mono; lia.
    + repeat constructor; apply scaled_mono; lia.
  - cbv beta. intros maxima (Hle & H50 & H100).
    step ltac:(apply (hoare_dateNow anyState)) t Ht.
    apply hoare_ret.
    exists (fst maxima), (snd maxima). split; [reflexivity|].
    split; [exact Hle|]. split; [exact H50 | exact H100].
Qed.

(** X14. For every route and every upstream, the amount reported for 50 basis
    points is at most the amount reported for 100 basis points, and both
    are amounts of the ladder (the baseline or one of the three probes).  For
    a source asset with a non-negative number of decimals the entry is
    therefore never the fallback entry, whose amounts are 800000 and 600000
    units. *)
Theorem liquidity_thresholds_ordered routes_ (s : St World) :
  exists ls s',
    getLiquidityDepth routes_ s = (inr ls, s') /\
    Forall2 (fun route l =>
               orderedOnLadder route l /\
               (0 <= decimals (source route) ->
                forall t, thresholds l <> thresholds (fallbackLiquidity route t)))
            routes_ ls.
Proof.
  destruct (hoare_returns anyState (getLiquidityDepth routes_)
              (Forall2 orderedOnLadder routes_) s)
    as (ls & s' & Hrun & Hls & _).
  - unfold getLiquidityDepth. apply hoare_mapM. intros route _.
    apply liquidityOf_ordered.
  - exact Logic.I.
  - exists ls, s'. split; [exact Hrun|].
    eapply Forall2_impl; [exact Hls|]. intros route l Hl.
    split; [exact Hl|]. intros Hd t Heq.
    destruct Hl as (m50 & m100 & Hth & Hle & _).
    rewrite Hth in Heq. unfold fallbackLiquidity in Heq.
    cbn [thresholds] in Heq. injection Heq as -> ->.
    rewrite !scaled_exact in Hle by exact Hd.
    assert (0 < 10 ^ decimals (source route)) by (apply Z.pow_pos_nonneg; lia).
    nia.
Qed.

(** *** The health check *)

(** X15. [ping] never fails and always reports "ok": an upstream that is down or
    unhealthy is only logged. *)
Theorem ping_never_fails (s : St World) :
  exists t s', ping s = (inr (mkHealth "ok" t), s').
Proof.
  destruct (hoare_returns anyState ping
              (fun h => exists t, h = mkHealth "ok" t) s)
    as (h & s' & Hrun & (t & ->) & _).
  - unfold ping. eapply hoare_bind with (Q1 := any).
    + eapply hoare_try_catch with (E1 := any).
      * step ltac:(apply hoare_fetchWithTimeout; unfold anyState; auto)
             response Hresponse.
        destruct (negb (ok response));
          [apply hoare_throw | apply hoare_ret]; exact Logic.I.
      * intros e _. apply hoare_ret. exact Logic.I.
    + intros u _. step ltac:(apply (hoare_dateNow anyState)) t Ht.
      apply hoare_ret. eexists. reflexivity.
  - exact Logic.I.
  - exists t, s'. exact Hrun.
Qed.

(** *** Listed assets *)

Lemma cachedAssetsNonEmpty_frame (s s' : St World) :
  priceCache s' = priceCache s -> assetCache s' = assetCache s ->
  cachedAssetsNonEmpty s -> cachedAssetsNonEmpty s'.
Proof. intros _ Ha. unfold cachedAssetsNonEmpty. rewrite Ha. auto. Qed.

Lemma getListedAssets_nonempty E :
  hoare cachedAssetsNonEmpty getListedAssets
        (fun listed => assets listed <> []) E.
Proof.
  unfold getListedAssets.
  eapply hoare_bind with
    (Q1 := fun cached => forall listed, cached = Some listed ->
                                        assets listed <> []).
  { intros s Hs. unfold assetCacheGet, TTLCache.get.
    destruct (TTLCache.store (assetCache s) !! "all-assets") as [hit|] eqn:Hk.
    - destruct (TTLCache.expiresAt hit <? now (world s)); cbn.
      + split; [discriminate|]. intros e. cbn.
        rewrite lookup_delete_eq. discriminate.
      + split.
        * intros listed [= <-]. exact (Hs hit Hk).
        * intros e. cbn. rewrite lookup_insert_eq. intros [= <-]. cbn.
          exact (Hs hit Hk).
    - cbn. split; [discriminate|]. intros e. cbn. rewrite Hk. discriminate. }
  intros [listed|] Hcached; [apply hoare_ret; apply Hcached; reflexivity|].
  eapply hoare_try_catch.
  - step ltac:(apply hoare_gets_any) key Hkey.
    step ltac:(apply (hoare_fetchWithTimeout cachedAssetsNonEmpty
                        cachedAssetsNonEmpty_frame)) chainsRes Hc.
    destruct (negb (ok chainsRes)); [apply hoare_throw; exact Logic.I|].
    step ltac:(apply (hoare_json cachedAssetsNonEmpty)) chainsData Hcd.
    step ltac:(apply (hoare_fetchWithTimeout cachedAssetsNonEmpty
                        cachedAssetsNonEmpty_frame)) assetsRes Ha.
    destruct (negb (ok assetsRes)); [apply hoare_throw; exact Logic.I|].
    step ltac:(apply (hoare_json cachedAssetsNonEmpty)) assetsData Had.
    step ltac:(apply (hoare_dateNow cachedAssetsNonEmpty)) t Ht.
    assert (Hne : match flattenAssets (registry assetsData) with
                  | [] => getFallbackAssets
                  | _ :: _ => flattenAssets (registry assetsData)
                  end <> []).
    { destruct (flattenAssets (registry assetsData)); discriminate. }
    eapply hoare_bind with (Q1 := any).
    { apply hoare_modify. intros s Hs e. cbn.
      rewrite lookup_insert_eq. intros [= <-]. exact Hne. }
    intros u _. apply hoare_ret. exact Hne.
  - intros e _.
    step ltac:(apply (hoare_dateNow cachedAssetsNonEmpty)) t Ht.
    apply hoare_ret. discriminate.
Qed.

(** X16. [getListedAssets] never throws and never returns an empty asset list,
    whatever the upstream sends, provided the asset list in the cache, if
    there is one, is not empty; and the asset list it leaves in the cache is
    not empty either, so this holds for every later call. *)
Theorem listed_assets_never_empty (s : St World) :
  cachedAssetsNonEmpty s ->
  exists listed s',
    getListedAssets s = (inr listed, s') /\
    assets listed <> [] /\
    cachedAssetsNonEmpty s'.
Proof.
  intros Hs.
  exact (hoare_returns cachedAssetsNonEmpty getListedAssets _ s
           (getListedAssets_nonempty never) Hs).
Qed.
End PipelineProperties.

(** ** What a snapshot costs and what it leaves alone *)

Section Graded.
Context {World : Type} `{Platform World}.
Variable R : nat -> St World -> St World -> Prop.
Hypothesis HR : tracked R.

Lemma tracked_then (k : nat) (s s1 s2 : St World) :
  R k s s1 -> R 0%nat s1 s2 -> R k s s2.
Proof.
  intros H1 H2. eapply (tracked_mono R HR); [|exact (tracked_trans R HR _ _ _ _ _ H1 H2)].
  lia.
Qed.

Lemma tracked_any (k : nat) (s : St World) : R k s s.
Proof. eapply (tracked_mono R HR); [|apply (tracked_refl R HR)]. lia. Qed.

Lemma graded_ret {A} (k : nat) (a : A) : graded R k (ret a).
Proof. intros s. apply tracked_any. Qed.

Lemma graded_throw {A} (k : nat) e : graded R k (throw (A := A) e).
Proof. intros s. apply tracked_any. Qed.

Lemma graded_gets {A} (k : nat) (f : St World -> A) : graded R k (gets f).
Proof. intros s. apply tracked_any. Qed.

Lemma graded_modify (k : nat) (f : St World -> St World) :
  (forall s, R 0%nat s (f s)) -> graded R k (modify f).
Proof.
  intros Hf s. cbn. eapply (tracked_mono R HR); [|apply Hf]. lia.
Qed.

Lemma graded_mono {A} (j k : nat) (m : M World A) :
  (j <= k)%nat -> graded R j m -> graded R k m.
Proof. intros Hjk Hm s. eapply (tracked_mono R HR); [exact Hjk | apply Hm]. Qed.

Lemma graded_bind {A B} (j k : nat) (m : M World A) (f : A -> M World B) :
  graded R j m -> (forall a, graded R k (f a)) ->
  graded R (j + k) (bind m f).
Proof.
  intros Hm Hf s. specialize (Hm s). unfold bind.
  destruct (m s) as [[e|a] s1]; cbn in Hm |- *.
  - eapply (tracked_mono R HR); [|exact Hm]. lia.
  - eapply (tracked_trans R HR); [exact Hm | apply Hf].
Qed.

Lemma graded_try_catch {A} (j k : nat) (m : M World A) handler :
  graded R j m -> (forall e, graded R k (handler e)) ->
  graded R (j + k) (try_catch m handler).
Proof.
  intros Hm Hh s. specialize (Hm s). unfold try_catch.
  destruct (m s) as [[e|a] s1]; cbn in Hm |- *.
  - eapply (tracked_trans R HR); [exact Hm | apply Hh].
  - eapply (tracked_mono R HR); [|exact Hm]. lia.
Qed.

Lemma graded_mapM {A B} (k : nat) (f : A -> M World B) (l : list A) :
  (forall a, graded R k (f a)) ->
  graded R (length l * k) (mapM f l).
Proof.
  intros Hf. induction l as [|a rest IH]; cbn [mapM length].
  - apply graded_ret.
  - apply (graded_mono (k + (length rest * k + 0))); [lia|].
    apply graded_bind; [apply Hf|]. intros b.
    apply graded_bind; [exact IH|]. intros bs. apply graded_ret.
Qed.

Lemma graded_retry {A} (k : nat) (operation : M World A) Q :
  hoare anyState operation Q never ->
  graded R k operation -> graded R k (retryOperation operation).
Proof.
  intros Htotal Hop s. rewrite (retry_of_total operation Q Htotal s).
  apply Hop.
Qed.

Lemma graded_json (k : nat) response : graded R k (json response).
Proof.
  unfold json. destruct (body response);
    [apply graded_ret | apply graded_throw].
Qed.

Lemma graded_fetchWithTimeout ep key :
  graded R 1 (fetchWithTimeout ep key).
Proof.
  intros s. unfold fetchWithTimeout.
  pose proof (tracked_fetch R HR
                {| endpoint := ep; xApiKey := key; timeoutMs := timeout s |} s)
    as Hstep.
  destruct (fetch _ (world s)) as [res w']. cbn [snd] in Hstep.
  destruct res as [response| |]; cbn [snd].
  - pose proof (tracked_then _ _ _ _ Hstep
                  (tracked_recordCall R HR (now w' - now (world s)) _))
      as Hcall.
    destruct (status response =? 429);
      [|destruct (negb (ok response) && (400 <=? status response))];
      cbn [snd].
    + exact (tracked_then _ _ _ _ Hcall (tracked_recordError R HR _)).
    + exact (tracked_then _ _ _ _ Hcall (tracked_recordError R HR _)).
    + exact Hcall.
  - exact (tracked_then _ _ _ _ Hstep (tracked_recordError R HR _)).
  - exact (tracked_then _ _ _ _ Hstep (tracked_recordError R HR _)).
Qed.

Lemma graded_fetchTransferPages remaining :
  forall fromTime toTime cursor vol,
  graded R remaining
         (fetchTransferPages remaining fromTime toTime cursor vol).
Proof.
  induction remaining as [|n IH]; intros fromTime toTime cursor vol;
    cbn [fetchTransferPages].
  - apply graded_ret.
  - apply (graded_bind 0 (S n)); [apply graded_gets|]. intros key.
    apply (graded_bind 1 n); [apply graded_fetchWithTimeout|].
    intros response.
    destruct (negb (ok response)); [apply graded_throw|].
    apply (graded_bind 0 n); [apply graded_json|]. intros data.
    destruct (next_cursor data); [apply IH | apply graded_ret].
Qed.

Lemma graded_volumeOf w : graded R 5 (volumeOf w).
Proof.
  unfold volumeOf. apply (graded_try_catch 5 0).
  - apply (graded_bind 0 5); [apply graded_gets|]. intros t.
    apply (graded_bind 5 0); [apply graded_fetchTransferPages|]. intros vol.
    apply (graded_bind 0 0); [apply graded_gets|]. intros t1.
    apply graded_ret.
  - intros e. apply (graded_bind 0 0); [apply graded_gets|]. intros t.
    apply graded_ret.
Qed.

Lemma graded_priceCacheGet (k : nat) key : graded R k (priceCacheGet key).
Proof.
  intros s. unfold priceCacheGet.
  destruct (TTLCache.get _ _ _) as [v c]. cbn [snd].
  eapply (tracked_mono R HR); [|apply (tracked_priceCache R HR)]. lia.
Qed.

Lemma graded_priceCacheSet (k : nat) key v : graded R k (priceCacheSet key v).
Proof.
  apply graded_modify. intros s. apply (tracked_priceCache R HR).
Qed.

Lemma graded_priceCircuitExecute {T} (k : nat) (fn : M World T) :
  graded R k fn -> graded R k (priceCircuitExecute fn).
Proof.
  intros Hfn s. unfold priceCircuitExecute, CircuitBreaker.execute.
  destruct (CircuitBreaker.gate _ _ _) as [cb1|].
  - specialize (Hfn s). destruct (fn s) as [[e|a] s1]; cbn [snd] in Hfn |- *;
      exact (tracked_then _ _ _ _ Hfn (tracked_priceCircuit R HR _ _)).
  - cbn [snd]. eapply (tracked_mono R HR);
      [|apply (tracked_priceCircuit R HR)]. lia.
Qed.

Lemma graded_lookupPrice chain assetAddress sym :
  graded R 1 (lookupPrice chain assetAddress sym).
Proof.
  unfold lookupPrice.
  apply (graded_bind 0 1); [apply graded_gets|]. intros startTime.
  apply (graded_bind 1 0); [apply graded_fetchWithTimeout|]. intros res.
  apply (graded_bind 0 0).
  { apply graded_modify. intros s. apply (tracked_recordCall R HR). }
  intros _. destruct (ok res); [|apply graded_throw].
  apply (graded_bind 0 0); [apply graded_json|]. intros data.
  destruct (Qgtb _ 0); [apply graded_ret | apply graded_throw].
Qed.

Lemma graded_getUsdPrice chain assetAddress sym :
  graded R 1 (getUsdPrice chain assetAddress sym).
Proof.
  unfold getUsdPrice, deduplicate.
  apply (graded_bind 0 1); [apply graded_priceCacheGet|]. intros [price|].
  - apply (graded_bind 0 1); [|intros _; apply graded_ret].
    apply graded_modify. apply (tracked_recordCacheHit R HR).
  - apply (graded_bind 0 1).
    { apply graded_modify. apply (tracked_recordCacheMiss R HR). }
    intros _. destruct (isStablecoin _).
    + apply (graded_bind 0 1); [apply graded_priceCacheSet|]. intros _.
      apply graded_ret.
    + apply (graded_try_catch 1 0).
      * apply (graded_bind 1 0).
        { apply graded_priceCircuitExecute. apply graded_lookupPrice. }
        intros price.
        apply (graded_bind 0 0); [apply graded_priceCacheSet|]. intros _.
        apply graded_ret.
      * intros e.
        apply (graded_bind 0 0); [apply graded_priceCacheSet|]. intros _.
        apply graded_ret.
Qed.

Lemma graded_getAxelarQuote src dst n :
  graded R 2 (getAxelarQuote src dst n).
Proof.
  unfold getAxelarQuote. apply (graded_try_catch 2 0).
  - apply (graded_bind 0 2); [apply graded_gets|]. intros key.
    apply (graded_bind 1 1); [apply graded_fetchWithTimeout|].
    intros response.
    apply (graded_bind 0 1).
    { destruct (ok response); [|apply graded_ret].
      apply (graded_bind 0 0); [apply graded_json|]. intros data.
      apply graded_ret. }
    intros feeData.
    apply (graded_bind 1 0); [apply graded_getUsdPrice|]. intros priceUsd.
    apply (graded_bind 0 0); [apply graded_gets|]. intros t.
    apply graded_ret.
  - intros e. apply (graded_bind 0 0); [apply graded_gets|]. intros t.
    apply graded_ret.
Qed.

Lemma graded_rateOf item : graded R 2 (rateOf item).
Proof.
  destruct item as [route notional]. unfold rateOf.
  apply (graded_try_catch 2 0); [apply graded_getAxelarQuote|].
  intros e. apply (graded_bind 0 0); [apply graded_gets|]. intros t.
  apply graded_ret.
Qed.

Lemma graded_probeLadder route baselineRate testAmounts :
  forall max50 max100,
  graded R (length testAmounts * 2)
         (probeLadder route baselineRate testAmounts max50 max100).
Proof.
  induction testAmounts as [|amount rest IH]; intros max50 max100;
    cbn [probeLadder length].
  - apply graded_ret.
  - apply (graded_bind 2 (length rest * 2)).
    + apply (graded_try_catch 2 0); [|intros e; apply graded_ret].
      apply (graded_bind 2 0); [apply graded_getAxelarQuote|].
      intros quote. apply graded_ret.
    + intros [quote|]; [apply IH | apply graded_ret].
Qed.

Lemma graded_liquidityOf route : graded R 8 (liquidityOf route).
Proof.
  unfold liquidityOf. apply (graded_try_catch 8 0).
  - apply (graded_bind 2 6); [apply graded_getAxelarQuote|]. intros base.
    apply (graded_bind 6 0); [apply (graded_probeLadder _ _ [_; _; _])|].
    intros maxima.
    apply (graded_bind 0 0); [apply graded_gets|]. intros t.
    apply graded_ret.
  - intros e. apply (graded_bind 0 0); [apply graded_gets|]. intros t.
    apply graded_ret.
Qed.

Lemma graded_assetCacheGet (k : nat) key : graded R k (assetCacheGet key).
Proof.
  intros s. unfold assetCacheGet.
  destruct (TTLCache.get _ _ _) as [v c]. cbn [snd].
  eapply (tracked_mono R HR); [|apply (tracked_assetCache R HR)]. lia.
Qed.

Lemma graded_getListedAssets : graded R 2 getListedAssets.
Proof.
  unfold getListedAssets.
  apply (graded_bind 0 2); [apply graded_assetCacheGet|].
  intros [listed|]; [apply graded_ret|].
  apply (graded_try_catch 2 0).
  - apply (graded_bind 0 2); [apply graded_gets|]. intros key.
    apply (graded_bind 1 1); [apply graded_fetchWithTimeout|].
    intros chainsResponse.
    destruct (negb (ok chainsResponse)); [apply graded_throw|].
    apply (graded_bind 0 1); [apply graded_json|]. intros chainsData.
    apply (graded_bind 1 0); [apply graded_fetchWithTimeout|].
    intros assetsResponse.
    destruct (negb (ok assetsResponse)); [apply graded_throw|].
    apply (graded_bind 0 0); [apply graded_json|]. intros assetsData.
    apply (graded_bind 0 0); [apply graded_gets|]. intros t.
    apply (graded_bind 0 0); [|intros _; apply graded_ret].
    apply graded_modify. intros s. apply (tracked_assetCache R HR).
  - intros e. apply (graded_bind 0 0); [apply graded_gets|]. intros t.
    apply graded_ret.
Qed.

Lemma graded_getSnapshot params :
  graded R (callBudget params) (getSnapshot params).
Proof.
  unfold getSnapshot.
  set (windows := default [W24h] (includeWindows params)).
  apply (graded_mono
           (length windows * 5
            + (length (combinations (routes params) (notionals params)) * 2
               + (length (routes params) * 8 + (2 + 0))) + 0 + 0)).
  { unfold callBudget. fold windows. rewrite combinations_length. lia. }
  apply graded_try_catch.
  - apply graded_try_catch.
    + apply graded_bind.
      { unfold getVolumesWithRetry.
        eapply graded_retry; [apply getVolumes_total|].
        apply graded_mapM. apply graded_volumeOf. }
      intros volumes_. apply graded_bind.
      { unfold getRatesWithRetry.
        eapply graded_retry; [apply getRates_total|].
        apply graded_mapM. apply graded_rateOf. }
      intros rates_. apply graded_bind.
      { unfold getLiquidityDepthWithRetry.
        eapply graded_retry; [apply getLiquidityDepth_total|].
        apply graded_mapM. apply graded_liquidityOf. }
      intros liquidity_. apply graded_bind.
      { unfold getListedAssetsWithRetry.
        eapply graded_retry; [apply getListedAssets_total|].
        apply graded_getListedAssets. }
      intros listed. apply graded_ret.
    + intros e. apply (graded_bind 0 0); [|intros _; apply graded_throw].
      apply graded_modify. apply (tracked_recordError R HR).
  - intros e. destruct (isAxelarAPIError e); apply graded_throw.
Qed.
End Graded.

Section SnapshotFootprint.
Context {World : Type} `{Platform World}.

Lemma callsWithin_tracked (count : World -> nat) :
  countsFetches count -> tracked (callsWithin count).
Proof.
  intros (Hfetch & Hrandom & Hsleep).
  constructor; unfold callsWithin; intros; cbn; try lia.
  rewrite Hfetch. lia.
Qed.

Lemma countersGrow_tracked : tracked countersGrow.
Proof. constructor; unfold countersGrow; intros; cbn; lia. Qed.

Lemma settingsKept_tracked : tracked settingsKept.
Proof.
  constructor; unfold settingsKept; intros; cbn; try tauto.
  - intuition congruence.
Qed.

(** X17. A snapshot makes at most five upstream calls for each window, two for
    each pair of a route and a notional, eight more for each route and two
    for the asset list, whatever the upstream answers: nothing is retried
    and no loop is unbounded. *)
Theorem snapshot_call_budget (count : World -> nat) params (s : St World) :
  countsFetches count ->
  (count (world (snd (getSnapshot params s)))
   <= count (world s) + callBudget params)%nat.
Proof.
  intros Hcount.
  exact (graded_getSnapshot (callsWithin count)
           (callsWithin_tracked count Hcount) params s).
Qed.

(** X18. The four counters of the metrics never decrease during a snapshot. *)
Theorem snapshot_counters_grow params (s : St World) :
  let s' := snd (getSnapshot params s) in
  apiCalls (metrics s) <= apiCalls (metrics s') /\
  cacheHits (metrics s) <= cacheHits (metrics s') /\
  cacheMisses (metrics s) <= cacheMisses (metrics s') /\
  errors (metrics s) <= errors (metrics s').
Proof.
  exact (graded_getSnapshot countersGrow countersGrow_tracked params s).
Qed.

(** X19. A snapshot leaves the API key, the timeout, the Axelarscan circuit
    breaker and the chain cache as they were: the Axelarscan calls do not go
    through a circuit breaker, and the chain cache is never filled. *)
Theorem snapshot_keeps_settings params (s : St World) :
  let s' := snd (getSnapshot params s) in
  apiKey s' = apiKey s /\ timeout s' = timeout s /\
  axelarscanCircuit s' = axelarscanCircuit s /\
  chainCache s' = chainCache s.
Proof.
  exact (graded_getSnapshot settingsKept settingsKept_tracked params s).
Qed.
End SnapshotFootprint.

Section PriceProperties.
Context {World : Type} `{Platform World}.

Lemma priceCacheSet_fresh key price (s : St World) :
  0 <= TTLCache.ttlMs (priceCache s) ->
  cachedFresh key price (snd (priceCacheSet key price s)) /\
  world (snd (priceCacheSet key price s)) = world s.
Proof.
  intros Httl. split; [|reflexivity].
  eexists. cbn. split; [apply lookup_insert_eq|]. cbn. split; [reflexivity|].
  lia.
Qed.

Lemma priceCacheGet_ttl key (s : St World) :
  TTLCache.ttlMs (priceCache (snd (priceCacheGet key s)))
  = TTLCache.ttlMs (priceCache s).
Proof.
  unfold priceCacheGet, TTLCache.get.
  destruct (TTLCache.store (priceCache s) !! key) as [hit|]; [|reflexivity].
  destruct (TTLCache.expiresAt hit <? now (world s)); reflexivity.
Qed.

Lemma getUsdPrice_hit chain assetAddress sym price (s : St World) :
  cachedFresh (priceKey chain assetAddress) price s ->
  exists s',
    getUsdPrice chain assetAddress sym s = (inr price, s') /\
    world s' = world s /\
    cacheHits (metrics s') = cacheHits (metrics s) + 1 /\
    apiCalls (metrics s') = apiCalls (metrics s).
Proof.
  intros (e & Hkey & Hvalue & Hfresh).
  unfold getUsdPrice, bind, priceCacheGet, TTLCache.get.
  fold (priceKey chain assetAddress). rewrite Hkey.
  destruct (TTLCache.expiresAt e <? now (world s)) eqn:Hexp; [lia|].
  cbn. rewrite Hvalue. eexists. split; [reflexivity|]. cbn. auto.
Qed.

Lemma guarded_lookup_ttl chain assetAddress sym (s : St World) :
  0 <= TTLCache.ttlMs (priceCache s) ->
  0 <= TTLCache.ttlMs
         (priceCache
            (snd (priceCircuitExecute (lookupPrice chain assetAddress sym) s))).
Proof.
  intros Httl.
  pose (I := fun s' : St World => 0 <= TTLCache.ttlMs (priceCache s')).
  assert (I_frame : forall s1 s2 : St World,
             priceCache s2 = priceCache s1 -> assetCache s2 = assetCache s1 ->
             I s1 -> I s2).
  { unfold I. intros s1 s2 -> _ Hs1. exact Hs1. }
  pose proof (hoare_priceCircuitExecute I I_frame _ _
                (hoare_lookupPrice I any I_frame (fun _ _ => Logic.I)
                   chain assetAddress sym) s Httl) as Hrun.
  destruct (priceCircuitExecute _ s) as [[e|price] s1]; apply Hrun.
Qed.

Lemma getUsdPrice_caches chain assetAddress sym (s : St World) :
  0 <= TTLCache.ttlMs (priceCache s) ->
  exists price s',
    getUsdPrice chain assetAddress sym s = (inr price, s') /\
    cachedFresh (priceKey chain assetAddress) price s'.
Proof.
  intros Httl. unfold getUsdPrice, deduplicate.
  fold (priceKey chain assetAddress). set (key := priceKey _ _).
  unfold bind at 1.
  pose proof (priceCacheGet_ttl key s) as Hkept.
  unfold priceCacheGet, TTLCache.get in *.
  destruct (TTLCache.store (priceCache s) !! key) as [hit|] eqn:Hkey;
    [destruct (TTLCache.expiresAt hit <? now (world s)) eqn:Hexp|].
  2:{ cbn. eexists _, _. split; [reflexivity|].
      eexists. cbn. split; [apply lookup_insert_eq|]. cbn.
      split; [reflexivity | lia]. }
  all: cbn [fst snd] in *; unfold bind at 1; cbn [modify];
    match goal with
    | |- context [recordCacheMiss ?s0] => set (s1 := recordCacheMiss s0)
    end;
    assert (Httl1 : 0 <= TTLCache.ttlMs (priceCache s1))
      by (subst s1; cbn; lia);
    clearbody s1;
    (destruct (isStablecoin _);
     [ exists 1%Q, (snd (priceCacheSet key 1 s1));
       split; [reflexivity | apply priceCacheSet_fresh; exact Httl1]
     | ]);
    unfold try_catch, bind;
    pose proof (guarded_lookup_ttl chain assetAddress sym s1 Httl1) as Httl2;
    destruct (priceCircuitExecute _ s1) as [[e|price] s2];
    cbn [snd] in Httl2;
    [ exists 1%Q, (snd (priceCacheSet key 1 s2))
    | exists price, (snd (priceCacheSet key price s2)) ];
    (split; [reflexivity | apply priceCacheSet_fresh; exact Httl2]).
Qed.

(** X20. [getUsdPrice] never fails, and the price it returns is in the cache
    when it returns: the next call for the same asset, at the same reading of
    the clock, returns the same price from the cache, with one more cache hit
    and without an upstream call.  The time-to-live of the cache is not
    negative. *)
Theorem price_is_memoised chain assetAddress sym sym' (s : St World) :
  0 <= TTLCache.ttlMs (priceCache s) ->
  exists price s1 s2,
    getUsdPrice chain assetAddress sym s = (inr price, s1) /\
    getUsdPrice chain assetAddress sym' s1 = (inr price, s2) /\
    world s2 = world s1 /\
    cacheHits (metrics s2) = cacheHits (metrics s1) + 1 /\
    apiCalls (metrics s2) = apiCalls (metrics s1).
Proof.
  intros Httl.
  destruct (getUsdPrice_caches chain assetAddress sym s Httl)
    as (price & s1 & Hfirst & Hfresh).
  destruct (getUsdPrice_hit chain assetAddress sym' price s1 Hfresh)
    as (s2 & Hsecond & Hworld & Hhits & Hcalls).
  exists price, s1, s2. auto.
Qed.

(** X21. For a symbol that contains USDC, USDT, DAI or BUSD in any case, and
    while the price circuit breaker refuses calls, [getUsdPrice] makes no
    upstream call; when the cache has no live entry either, the price is 1. *)
Theorem price_short_circuits chain assetAddress sym (s : St World) :
  isStablecoin (toUpperCase sym) = true \/ priceCircuitRefuses s ->
  exists price s',
    getUsdPrice chain assetAddress sym s = (inr price, s') /\
    world s' = world s /\
    apiCalls (metrics s') = apiCalls (metrics s) /\
    (fst (TTLCache.get (now (world s)) (priceKey chain assetAddress)
            (priceCache s)) = None -> price = 1%Q).
Proof.
  intros Hshort. unfold getUsdPrice, deduplicate.
  fold (priceKey chain assetAddress). set (key := priceKey _ _).
  unfold bind at 1. unfold priceCacheGet.
  destruct (TTLCache.get (now (world s)) key (priceCache s))
    as [[cached|] c].
  { cbn. eexists _, _. split; [reflexivity|]. cbn.
    split; [reflexivity|]. split; [reflexivity | discriminate]. }
  cbn [fst snd]. unfold bind at 1. cbn [modify].
  destruct (isStablecoin (toUpperCase sym)) eqn:Hstable.
  { cbn. eexists _, _. split; [reflexivity|]. cbn. auto. }
  destruct Hshort as [|(Hopen & Hwindow)]; [discriminate|].
  unfold try_catch, bind, priceCircuitExecute, CircuitBreaker.execute,
    CircuitBreaker.gate.
  cbn [priceCircuit recordCacheMiss setMetrics setPriceCache world].
  rewrite Hopen.
  destruct (CircuitBreaker.resetTimeoutMs (priceCircuit s)
            <? now (world s)
               - CircuitBreaker.lastFailureTime (priceCircuit s)) eqn:Hlate;
    [lia|].
  cbn. eexists _, _. split; [reflexivity|]. cbn. auto.
Qed.

(** X22. A price lookup that gets a response is counted twice: once by
    [fetchWithTimeout] and once more by the lookup itself, in the number of
    API calls and in the total response time. *)
Theorem price_call_counted_twice chain assetAddress sym (s : St World)
    response w' :
  fetch {| endpoint := TokenPrice (platformMap chain) assetAddress;
           xApiKey := None; timeoutMs := timeout s |} (world s)
  = (Responded response, w') ->
  status response <> 429 ->
  ok response = true \/ status response < 400 ->
  let s' := snd (lookupPrice chain assetAddress sym s) in
  apiCalls (metrics s') = apiCalls (metrics s) + 2 /\
  totalResponseTime (metrics s')
  = totalResponseTime (metrics s) + 2 * (now w' - now (world s)) /\
  errors (metrics s') = errors (metrics s).
Proof.
  intros Hfetch Hlimit Hpass. unfold lookupPrice, bind, dateNow, gets.
  unfold fetchWithTimeout. rewrite Hfetch.
  destruct (status response =? 429) eqn:H429; [lia|].
  assert (Hmid : negb (ok response) && (400 <=? status response) = false).
  { destruct Hpass as [->|Hlow]; [reflexivity|].
    destruct (400 <=? status response) eqn:Hhigh; [lia|].
    apply andb_false_r. }
  rewrite Hmid. cbn [modify].
  destruct (ok response).
  - unfold json. destruct (body response) as [data|]; cbn;
      [destruct (Qgtb _ 0); cbn|]; repeat split; lia.
  - cbn. repeat split; lia.
Qed.
End PriceProperties.

(** ** The asset registry *)







(** ** Start-up *)

Section StartUpProperties.
Context {World : Type} `{Platform World}.

Lemma ping_footprint (s : St World) :
  let s' := snd (ping s) in
  (exists h, fst (ping s) = inr h) /\
  apiKey s' = apiKey s /\ timeout s' = timeout s /\
  priceCache s' = priceCache s /\ chainCache s' = chainCache s /\
  assetCache s' = assetCache s /\
  axelarscanCircuit s' = axelarscanCircuit s /\
  priceCircuit s' = priceCircuit s /\
  cacheHits (metrics s') = cacheHits (metrics s) /\
  cacheMisses (metrics s') = cacheMisses (metrics s) /\
  (apiCalls (metrics s') = apiCalls (metrics s) \/
   apiCalls (metrics s') = apiCalls (metrics s) + 1) /\
  (errors (metrics s') = errors (metrics s) \/
   errors (metrics s') = errors (metrics s) + 1).
Proof.
  unfold ping, bind, try_catch, fetchWithTimeout, dateNow, gets.
  destruct (fetch _ (world s)) as [[response| |] w']; cbn;
    [destruct (status response =? 429);
     [|destruct (negb (ok response) && (400 <=? status response));
       [|destruct (negb (ok response))]]| |];
    cbn; (split; [eexists; reflexivity|]); repeat split; auto.
Qed.

(** X24. The start-up of the plugin never fails, whatever the upstream does, and
    makes at most one upstream call.  The service it returns has the
    configured key and timeout; its metrics report at most one API call and
    at most one error, empty caches with no hit and no miss and a hit rate of
    0, and both circuit breakers CLOSED without a failure. *)
Theorem initialize_never_fails (key : string) (timeout_ : Z) (w : World) :
  exists s',
    initialize key timeout_ w = (inr tt, s') /\
    apiKey s' = key /\ timeout s' = timeout_ /\
    0 <= apiCalls (counters (getMetrics s')) <= 1 /\
    0 <= errors (counters (getMetrics s')) <= 1 /\
    cacheHits (counters (getMetrics s')) = 0 /\
    cacheMisses (counters (getMetrics s')) = 0 /\
    stats_price (getMetrics s') = TTLCache.mkStats 0 0 0 0 /\
    stats_chain (getMetrics s') = TTLCache.mkStats 0 0 0 0 /\
    stats_asset (getMetrics s') = TTLCache.mkStats 0 0 0 0 /\
    breaker_axelarscan (getMetrics s')
    = mkBreakerState CircuitBreaker.CLOSED 0 0 /\
    breaker_price (getMetrics s') = mkBreakerState CircuitBreaker.CLOSED 0 0.
Proof.
  set (s := newService key timeout_ w).
  pose proof (ping_footprint s) as Hfoot.
  destruct (ping s) as [result s'] eqn:Hping. cbn [fst snd] in Hfoot.
  destruct Hfoot as ((h & ->) & Hkey & Htimeout & Hprice & Hchain & Hasset & Haxelar
                     & Hcircuit & Hhits & Hmisses & Hcalls & Herrors).
  exists s'. unfold initialize, bind. fold s. rewrite Hping.
  split; [reflexivity|]. unfold getMetrics. cbn [counters stats_price
    stats_chain stats_asset breaker_axelarscan breaker_price].
  rewrite Hkey, Htimeout, Hprice, Hchain, Hasset, Haxelar, Hcircuit,
    Hhits, Hmisses.
  subst s. cbn in Hcalls, Herrors |- *.
  repeat split; try reflexivity; lia.
Qed.
End StartUpProperties.

(** * Further concrete runs *)

(** Reading and writing the key "a" leaves the entry of "b" alone. *)
Lemma cache_isolation_witness :
  let c := TTLCache.set 0 "b" 7 (TTLCache.create (K := string) 100) in
  "b" <> "a" /\
  TTLCache.store (snd (TTLCache.get 500 "a" c)) !! "b"
  = Some (TTLCache.mkEntry 7 100 0) /\
  TTLCache.store (TTLCache.set 500 "a" 1 c) !! "b"
  = Some (TTLCache.mkEntry 7 100 0).
Proof.
  intros c.
  assert (Hne : "b" <> "a") by discriminate.
  destruct (cache_isolation c "a" "b" 500 1 Hne) as (Hget & Hset & _).
  split; [exact Hne|]. split.
  - rewrite Hget. reflexivity.
  - rewrite Hset. reflexivity.
Defined.

(** Two failures, a success, two failures: the count is 2, below the
    threshold of 3, and the breaker is CLOSED. *)
Lemma breaker_closed_iff_below_threshold_witness :
  let cb := fst (executeAll (fun c : Z => c)
                   [failing; failing; succeeding; failing; failing]
                   (CircuitBreaker.create 3 30000) 0) in
  1 <= 3 /\
  0 <= CircuitBreaker.failures cb /\
  (CircuitBreaker.state cb = CircuitBreaker.CLOSED
   <-> CircuitBreaker.failures cb < 3).
Proof.
  intros cb.
  assert (Hthreshold : 1 <= 3) by lia.
  destruct (breaker_closed_iff_below_threshold (fun c : Z => c)
              [failing; failing; succeeding; failing; failing]
              3 30000 0 Hthreshold) as (Hcount & _ & Hclosed).
  split; [exact Hthreshold|]. split; [exact Hcount | exact Hclosed].
Defined.

(** A breaker that opened at t = 1000 and is probing at t = 40000: the
    probe fails and the breaker is open again, from t = 40010. *)
Lemma breaker_half_open_failure_witness :
  let cb := CircuitBreaker.mkBreaker 3 1000 CircuitBreaker.HALF_OPEN 3 30000 in
  breakerSound cb /\
  exists cb',
    CircuitBreaker.execute (fun c : Z => c) failing cb 40000
    = (inl (AxelarAPIError 500 true), cb', 40010) /\
    CircuitBreaker.state cb' = CircuitBreaker.OPEN /\
    CircuitBreaker.failures cb' = 3 + 1 /\
    CircuitBreaker.lastFailureTime cb' = 40010.
Proof.
  intros cb.
  assert (Hsound : breakerSound cb).
  { unfold breakerSound. cbn. split; [lia|]. split; [lia|].
    split; [discriminate | lia]. }
  split; [exact Hsound|].
  exact (breaker_half_open_failure (fun c : Z => c) cb 40000 failing
           (AxelarAPIError 500 true) 40010 Hsound eq_refl eq_refl).
Defined.

(** A breaker that opened at t = 1000, called twice at t = 2000. *)
Lemma breaker_open_refuses_all_witness :
  let cb := CircuitBreaker.mkBreaker 3 1000 CircuitBreaker.OPEN 3 30000 in
  executeAll (fun c : Z => c) [failing; succeeding] cb 2000 = (cb, 2000).
Proof.
  intros cb.
  apply (breaker_open_refuses_all (fun c : Z => c) [failing; succeeding]
           cb 2000 eq_refl).
  cbn. lia.
Defined.

(** One call: its key is pending for promise 0, which has not settled. *)
Lemma pending_only_while_unsettled_witness :
  let d := snd (RequestDeduplicator.run
                  [RequestDeduplicator.Call (T := Z) "1:0xabc"]
                  RequestDeduplicator.create) in
  RequestDeduplicator.pending d !! "1:0xabc" = Some 0%nat /\
  RequestDeduplicator.settled d !! 0%nat = None.
Proof.
  intros d.
  assert (Hpending : RequestDeduplicator.pending d !! "1:0xabc" = Some 0%nat)
    by reflexivity.
  destruct (pending_only_while_unsettled
              [RequestDeduplicator.Call (T := Z) "1:0xabc"]
              "1:0xabc" 0%nat Hpending) as (Hopen & _).
  split; [exact Hpending | exact Hopen].
Defined.

(** A price lookup that completes with 42, asked for again. *)
Lemma settled_result_is_not_reused_witness :
  let d := RequestDeduplicator.create (T := Z) in
  let h := fst (RequestDeduplicator.deduplicate "1:0xabc" d) in
  let d1 := snd (RequestDeduplicator.deduplicate "1:0xabc" d) in
  let d2 := RequestDeduplicator.settle h (inr 42) d1 in
  let h' := fst (RequestDeduplicator.deduplicate "1:0xabc" d2) in
  let d3 := snd (RequestDeduplicator.deduplicate "1:0xabc" d2) in
  RequestDeduplicator.pending d !! "1:0xabc" = None /\
  h' <> h /\
  RequestDeduplicator.invocations "1:0xabc" d3 = 2%nat.
Proof.
  intros d h d1 d2 h' d3.
  assert (Hfree : RequestDeduplicator.pending d !! "1:0xabc" = None)
    by reflexivity.
  destruct (settled_result_is_not_reused "1:0xabc" d (inr 42)
              DedupProperties.create_consistent create_unsettled Hfree)
    as (Hnew & Hcount & _).
  split; [exact Hfree|]. split; [exact Hnew | exact Hcount].
Defined.

(** A lookup in flight, [clear()], a second lookup, and the first one
    completing with 42. *)
Lemma clear_breaks_single_flight_witness :
  let d := RequestDeduplicator.create (T := Z) in
  let h := fst (RequestDeduplicator.deduplicate "1:0xabc" d) in
  let d1 := RequestDeduplicator.clear
              (snd (RequestDeduplicator.deduplicate "1:0xabc" d)) in
  let h' := fst (RequestDeduplicator.deduplicate "1:0xabc" d1) in
  let d2 := snd (RequestDeduplicator.deduplicate "1:0xabc" d1) in
  let d3 := RequestDeduplicator.settle h (inr 42) d2 in
  RequestDeduplicator.pending d !! "1:0xabc" = None /\
  RequestDeduplicator.pending d2 !! "1:0xabc" = Some h' /\
  RequestDeduplicator.pending d3 !! "1:0xabc" = None /\
  RequestDeduplicator.cleanup d3 !! h' = Some "1:0xabc".
Proof.
  intros d h d1 h' d2 d3.
  assert (Hfree : RequestDeduplicator.pending d !! "1:0xabc" = None)
    by reflexivity.
  destruct (clear_breaks_single_flight "1:0xabc" d (inr 42) Hfree)
    as (_ & _ & Hsecond & Hgone & Hleft).
  split; [exact Hfree|]. split; [exact Hsecond|].
  split; [exact Hgone | exact Hleft].
Defined.

(** A 500 and then a 200: the second attempt is the result, after two
    requests. *)
Lemma retry_budget_witness :
  let operation := fetchWithTimeout CrossChainChains None in
  let s := simService [Responded (answer 500 None);
                       Responded (answer200 None)] in
  fst (operation s) = inl (AxelarAPIError 500 true) /\
  fst (retryOperation operation s) = inr (answer200 None) /\
  length (requests (world (snd (retryOperation operation s)))) = 2%nat.
Proof.
  intros operation s.
  destruct (retry_budget operation s (AxelarAPIError 500 true)
              (snd (operation s)) eq_refl eq_refl) as [Hsecond _].
  assert (Hrun : operation (backoff 0 (AxelarAPIError 500 true)
                                    (snd (operation s)))
                 = (inr (answer200 None),
                    snd (operation (backoff 0 (AxelarAPIError 500 true)
                                            (snd (operation s))))))
    by (vm_compute; reflexivity).
  rewrite (Hsecond _ _ Hrun).
  split; [reflexivity|]. split; vm_compute; reflexivity.
Defined.

Lemma new_service_assets :
  cachedAssetsNonEmpty (World := Z) (newService EmptyString 30000 1000).
Proof. intros e. cbn. rewrite lookup_empty. discriminate. Qed.

(** A new service with the upstream down. *)
Lemma listed_assets_never_empty_witness :
  cachedAssetsNonEmpty (World := Z) (newService EmptyString 30000 1000) /\
  exists listed s',
    getListedAssets (H := offline) (newService EmptyString 30000 1000)
    = (inr listed, s') /\
    assets listed <> [] /\
    cachedAssetsNonEmpty s'.
Proof.
  split; [exact new_service_assets|].
  exact (listed_assets_never_empty (H := offline)
           (newService EmptyString 30000 1000) new_service_assets).
Defined.

Lemma sim_counts_fetches : countsFetches requestsMade.
Proof.
  split; [|split].
  - intros req w. cbn. destruct (script w); reflexivity.
  - intros w. cbn. destruct (randoms w); reflexivity.
  - intros delay w. reflexivity.
Qed.

(** One route, two notionals and two windows against an upstream that does
    not answer: at most 24 requests. *)
Lemma snapshot_call_budget_witness :
  countsFetches requestsMade /\
  callBudget demoParams = 24%nat /\
  (requestsMade (world (snd (getSnapshot demoParams (simService []))))
   <= 24)%nat.
Proof.
  split; [exact sim_counts_fetches|]. split; [reflexivity|].
  exact (snapshot_call_budget requestsMade demoParams (simService [])
           sim_counts_fetches).
Defined.

(** The price of an asset that is not a stablecoin, asked for twice. *)
Lemma price_is_memoised_witness :
  0 <= TTLCache.ttlMs (priceCache (simService [])) /\
  exists price s1 s2,
    getUsdPrice "1" "0xC02aaA39b223FE8D0A0e5C4F27eAD9083C756Cc2" "WETH"
                (simService [])
    = (inr price, s1) /\
    getUsdPrice "1" "0xC02aaA39b223FE8D0A0e5C4F27eAD9083C756Cc2" "WETH" s1
    = (inr price, s2) /\
    world s2 = world s1 /\
    cacheHits (metrics s2) = cacheHits (metrics s1) + 1 /\
    apiCalls (metrics s2) = apiCalls (metrics s1).
Proof.
  assert (Httl : 0 <= TTLCache.ttlMs (priceCache (simService [])))
    by (cbn; lia).
  split; [exact Httl|].
  exact (price_is_memoised "1" "0xC02aaA39b223FE8D0A0e5C4F27eAD9083C756Cc2"
           "WETH" "WETH" (simService []) Httl).
Defined.

(** The symbol "axlUSDC" contains USDC. *)
Lemma price_short_circuits_witness :
  isStablecoin (toUpperCase "axlUSDC") = true /\
  exists price s',
    getUsdPrice "1" "0xabc" "axlUSDC" (simService []) = (inr price, s') /\
    world s' = world (simService []) /\
    price = 1%Q.
Proof.
  assert (Hstable : isStablecoin (toUpperCase "axlUSDC") = true)
    by reflexivity.
  split; [exact Hstable|].
  destruct (price_short_circuits "1" "0xabc" "axlUSDC" (simService [])
              (or_introl Hstable))
    as (price & s' & Hrun & Hworld & _ & Hone).
  exists price, s'. split; [exact Hrun|]. split; [exact Hworld|].
  apply Hone. reflexivity.
Defined.

(** One answer with status 200 and no price in it. *)
Lemma price_call_counted_twice_witness :
  let s := simService [Responded (answer200 None)] in
  apiCalls (metrics (snd (lookupPrice "1" "0xabc" "WETH" s))) = 2 /\
  length (requests (world (snd (lookupPrice "1" "0xabc" "WETH" s)))) = 1%nat.
Proof.
  intros s.
  assert (Hstatus : status (answer200 None) <> 429) by discriminate.
  assert (Hfetch :
            fetch {| endpoint := TokenPrice (platformMap "1") "0xabc";
                     xApiKey := None; timeoutMs := timeout s |} (world s)
            = (Responded (answer200 None),
               snd (fetch {| endpoint := TokenPrice (platformMap "1") "0xabc";
                             xApiKey := None; timeoutMs := timeout s |}
                          (world s))))
    by reflexivity.
  destruct (price_call_counted_twice "1" "0xabc" "WETH" s _ _
              Hfetch Hstatus (or_introl eq_refl)) as (Hcalls & _).
  split; [exact Hcalls | vm_compute; reflexivity].
Defined.

(** An item deployed on the chains 137, "ethereum" and 1, in that order in
    the document: its assets come out for 1, 137 and "ethereum". *)
Lemma registry_order_example :
  map chainId
      (flattenAssets
         [mkAxelarAsset "uusdc" "USDC" 6
            [("137", "0x750e"); ("ethereum", "0xEB46"); ("1", "0xA0b8")]])
  = ["1"; "137"; "ethereum"].
Proof. vm_compute. reflexivity. Qed.

